(** * stress-memrate: the rate-controlled memory access engine

    A shallow embedding of [stress-memrate.c] (stress-ng) and the
    properties of its rate controller, strategy catalogue, dispatcher,
    benchmark driver, cancellation path and reporter.

    Conventions of the embedding.
    - [uint64_t] and [size_t] values are [Z] with the wrap-around written
      out ([wrap64]) where the code can reach 2^64.
    - Pointers are byte addresses in [Z]; [ptr + n] on a [type *] is
      [ptr + n * sizeof(type)].
    - [double] values are rationals ([Q]).  The arithmetic of the pacing
      block, whose results are cut to nanoseconds, is the arithmetic of
      binary64: every operation returns the binary64 number nearest to the
      exact result ([round64]).  The sums and the quotient of the
      statistics table are taken exactly.
    - Calls that leave the file ([stress_time_now], [nanosleep], the
      memory accesses, the CPU feature test) act on an explicit [world]
      that is threaded through every strategy. *)

From Stdlib Require Import ZArith QArith Qround Qpower Qreduction Lqa Lia.
From Stdlib Require Import List Sorted Bool String.
From stdpp Require Import base list gmap strings.
Import ListNotations.

Open Scope Z_scope.

(* ================================================================== *)
(** * Constants *)
(* ================================================================== *)

(** Modelled from the spec: the byte units [KB] and [MB] of stress-ng.h,
    which is not among the sources; the specification fixes one KiB at
    1024 bytes and one MiB at 1_048_576 bytes. *)
Definition KB : Z := 1024.
Definition MB : Z := 1048576.

(** Modelled from the spec: [STRESS_NANOSECOND] of stress-ng.h, the number
    of nanoseconds in a second (the sleep resolution of the controller). *)
Definition STRESS_NANOSECOND : Z := 1000000000.

Definition MR_RD : Z := 0.
Definition MR_WR : Z := 1.

Definition MIN_MEMRATE_BYTES : Z := 4 * KB.
Definition DEFAULT_MEMRATE_BYTES : Z := 256 * MB.
Definition STRESS_MEMRATE_PF_OFFSET : Z := 2 * KB.

(** [~0ULL], the "unlimited" rate. *)
Definition UNLIMITED : Z := Z.ones 64.

Definition wrap64 (z : Z) : Z := z mod 2 ^ 64.

(** [STRESS_MINIMUM] on two addresses. *)
Definition STRESS_PTR_MINIMUM (a b : Z) : Z := if a <? b then a else b.

(* ================================================================== *)
(** * Data model *)
(* ================================================================== *)

Record stress_memrate_stats_t : Type := mk_stats {
  duration : Q;
  kbytes : Q;
  valid : bool
}.

Record stress_memrate_context_t : Type := mk_context {
  stats : list stress_memrate_stats_t;
  memrate_bytes : Z;
  memrate_rd_mbs : Z;
  memrate_wr_mbs : Z;
  start : Z;
  end_ : Z;
  memrate_flush : bool
}.

(* ================================================================== *)
(** * Pass granularity of the rate controller *)
(* ================================================================== *)

(** The values [chunk_shift] takes in
    [for (chunk_shift = 20; chunk_shift >= 10; chunk_shift--)]. *)
Definition chunk_shifts : list Z := [20; 19; 18; 17; 16; 15; 14; 13; 12; 11; 10].

Fixpoint stress_memrate_loops_for (bytes best_fit : Z) (shifts : list Z) : Z :=
  match shifts with
  | [] => best_fit
  | chunk_shift :: rest =>
      if wrap64 (Z.shiftl (Z.shiftr bytes chunk_shift) chunk_shift) =? bytes then
        let n := wrap64 (Z.shiftl 1 chunk_shift) in
        if n <=? best_fit then n
        else stress_memrate_loops_for bytes best_fit rest
      else stress_memrate_loops_for bytes best_fit rest
  end.

Definition stress_memrate_loops (context : stress_memrate_context_t) (size : Z) : Z :=
  let bytes := memrate_bytes context in
  let best_fit := bytes / size in
  stress_memrate_loops_for bytes best_fit chunk_shifts.

(** The granularity as the specification words it: the largest power of
    two between 1 KiB and 1 MiB that divides the buffer size, and
    [buffer_size / step] when none does. *)
Definition spec_pass_granularity (bytes size : Z) : Z :=
  match List.find (fun k => bytes mod 2 ^ k =? 0) chunk_shifts with
  | Some k => 2 ^ k
  | None => bytes / size
  end.

(** A context of which only the buffer size matters. *)
Definition context_of_bytes (bytes : Z) : stress_memrate_context_t :=
  mk_context [] bytes UNLIMITED UNLIMITED 0 bytes false.

(* ================================================================== *)
(** * The world outside the file *)
(* ================================================================== *)

Record timespec : Type := mk_timespec { tv_sec : Z; tv_nsec : Z }.

(** One memory operation on the buffer: its address and width in bytes. *)
Inductive access : Type :=
| Load (addr width : Z)
| Store (addr width : Z)
| NtStore (addr width : Z)
| Prefetch (addr : Z)
| Clflush (addr : Z).

Record world : Type := mk_world {
  clock : nat -> Q;       (* the successive answers of stress_time_now() *)
  ticks : nat;            (* how many of them were consumed *)
  naps : list timespec;   (* the nanosleep() requests, oldest first *)
  touched : list access;  (* the memory traffic, oldest first *)
  sse2 : bool             (* the answer of stress_cpu_x86_has_sse2() *)
}.

(** A computation on the world; [None] when a loop did not finish within
    its fuel. *)
Definition M (A : Type) : Type := world -> option (A * world).

Definition ret {A : Type} (a : A) : M A := fun w => Some (a, w).

Definition bind {A B : Type} (m : M A) (k : A -> M B) : M B :=
  fun w => match m w with
           | Some (a, w') => k a w'
           | None => None
           end.

Definition out_of_fuel {A : Type} : M A := fun _ => None.

Declare Scope world_scope.
Delimit Scope world_scope with world.
Notation "x <- m ;; k" := (bind m (fun x => k))
  (at level 20, m at level 99, k at level 200, only parsing) : world_scope.
Notation "m ;; k" := (bind m (fun _ => k))
  (at level 100, k at level 200, only parsing, right associativity) : world_scope.
Open Scope world_scope.

(** Modelled from the spec: [stress_time_now] (not among the sources) is
    the wall clock the controller reads for [t_start] and [t_now]; what it
    answers is a parameter of the world, and each call takes the next
    reading. *)
Definition stress_time_now : M Q :=
  fun w => Some (clock w (ticks w),
                 mk_world (clock w) (S (ticks w)) (naps w) (touched w) (sse2 w)).

(** The request is recorded; how long the sleep lasts shows in the later
    readings of the clock. *)
Definition nanosleep (t : timespec) : M unit :=
  fun w => Some (tt, mk_world (clock w) (ticks w) (naps w ++ [t]) (touched w) (sse2 w)).

(** The memory operations [l] are carried out, in this order. *)
Definition touch (l : list access) : M unit :=
  fun w => Some (tt, mk_world (clock w) (ticks w) (naps w) (touched w ++ l) (sse2 w)).

(** Modelled from the spec: [stress_cpu_x86_has_sse2] (not among the
    sources) is the platform capability query for the instruction
    extension of the non-temporal stores; its answer is a parameter of the
    world. *)
Definition stress_cpu_x86_has_sse2 : M bool := fun w => Some (sse2 w, w).

(** The conversion of a [double] to an integer type: towards zero. *)
Definition Qtrunc (q : Q) : Z := Z.quot (Qnum q) (Z.pos (Qden q)).

(* ================================================================== *)
(** * The arithmetic of [double] *)
(* ================================================================== *)

(** [2^e] for an integer [e] of either sign. *)
Definition pow2 (e : Z) : Q := Qpower 2 e.

(** The exponent of the binade of [q > 0]:
    [2^(ilog2 q) <= q < 2^(ilog2 q + 1)]. *)
Definition ilog2 (q : Q) : Z :=
  let l := Z.log2 (Qnum q) - Z.log2 (Z.pos (Qden q)) in
  if Qle_bool (pow2 l) q then l else l - 1.

(** The integer nearest to [q >= 0], the even one of two that are as
    near. *)
Definition rne (q : Q) : Z :=
  let f := Qfloor q in
  match Qcompare (q - inject_Z f) (1 # 2) with
  | Lt => f
  | Gt => f + 1
  | Eq => if Z.even f then f else f + 1
  end.

(** The exponent of the last place of the binary64 numbers around
    [q > 0]: 53 significant bits, and [2^-1074] for the subnormal
    numbers. *)
Definition ulp_exp (q : Q) : Z := Z.max (ilog2 q - 52) (-1074).

Definition round_pos (q : Q) : Q :=
  let e := ulp_exp q in
  (inject_Z (rne (q / pow2 e)) * pow2 e)%Q.

(** Rounding to the nearest binary64 number, ties to even, as the
    processor rounds the result of every operation on [double].  The
    numbers of the pacing block stay far below [2^1024], so the model has
    no infinity; a division by zero, which the code can only reach with a
    target of 0 MB/s, is outside it. *)
Definition round64 (q : Q) : Q :=
  let q := Qred q in
  match Qcompare q 0 with
  | Eq => 0%Q
  | Gt => round_pos q
  | Lt => (- round_pos (- q))%Q
  end.

(** The operations of C on [double] and the conversion of an integer to
    [double]. *)
Definition double_add (a b : Q) : Q := round64 (a + b).
Definition double_sub (a b : Q) : Q := round64 (a - b).
Definition double_mul (a b : Q) : Q := round64 (a * b).
Definition double_div (a b : Q) : Q := round64 (a / b).
Definition double_of_int (z : Z) : Q := round64 (inject_Z z).

(** The rationals that are binary64 numbers. *)
Definition is_double (x : Q) : Prop :=
  exists m e, (x == inject_Z m * pow2 e)%Q /\ Z.abs m < 2 ^ 53 /\ -1074 <= e.

(* ================================================================== *)
(** * The pacing block of the rate controller *)
(* ================================================================== *)

(** The [struct timespec] the pacing block builds from the slack:
<<
    time_t sec = (time_t)dur_remainder;
    t.tv_sec = sec;
    t.tv_nsec = (long)((dur_remainder - (double)sec) * STRESS_NANOSECOND);
>> *)
Definition timespec_of (dur_remainder : Q) : timespec :=
  let sec := Qtrunc dur_remainder in
  {| tv_sec := sec;
     tv_nsec := Qtrunc (double_mul (double_sub dur_remainder (double_of_int sec))
                                   (double_of_int STRESS_NANOSECOND)) |}.

(** The statements every rate-limited strategy runs after a chunk:
<<
    t2 = stress_time_now();
    total_dur += dur;
    dur_remainder = total_dur - (t2 - t1);
    if (dur_remainder >= 0.0) { (build t) (void)nanosleep(&t, NULL); }
>>
    The new [total_dur] is returned. *)
Definition throttle (t1 total_dur dur : Q) : M Q :=
  t2 <- stress_time_now ;;
  let total_dur := double_add total_dur dur in
  let dur_remainder := double_sub total_dur (double_sub t2 t1) in
  (if Qle_bool 0 dur_remainder then nanosleep (timespec_of dur_remainder)
   else ret tt) ;;
  ret total_dur.

(** What is requested for a slack: a sleep of the slack, as a
    [timespec], when it is not negative, and nothing otherwise. *)
Definition nap_for (slack : Q) : list timespec :=
  if Qle_bool 0 slack then [timespec_of slack] else [].

(** The controller in the words of the specification: after each chunk,
    at the clock reading [t], the running budget grows by the duration of
    one chunk, the slack is the budget less the time elapsed since
    [t_start], and the sleep for that slack is requested.  The budget is
    carried from one chunk to the next.  The sums and differences are
    those of [double]. *)
Fixpoint budget_naps (t_start total_budget chunk_dur : Q) (t_now : list Q)
    : list timespec :=
  match t_now with
  | [] => []
  | t :: rest =>
      let total_budget := double_add total_budget chunk_dur in
      nap_for (double_sub total_budget (double_sub t t_start))
      ++ budget_naps t_start total_budget chunk_dur rest
  end.

(** The running budget after [n] more chunks. *)
Fixpoint budget_after (total_budget chunk_dur : Q) (n : nat) : Q :=
  match n with
  | O => total_budget
  | S n => budget_after (double_add total_budget chunk_dur) chunk_dur n
  end.

(** The value of a [timespec] in seconds. *)
Definition timespec_seconds (t : timespec) : Q :=
  (inject_Z (tv_sec t) + inject_Z (tv_nsec t) / inject_Z STRESS_NANOSECOND)%Q.

(* ================================================================== *)
(** * Strategies *)
(* ================================================================== *)

Definition stress_memrate_func_t : Type :=
  stress_memrate_context_t -> M (Z * bool).

(** Every loop of a strategy advances its cursor by at least one byte, so
    one unit of fuel per byte of the buffer, and one more for the final
    test, lets it run to its end. *)
Definition pass_fuel (context : stress_memrate_context_t) : nat :=
  S (Z.to_nat (end_ context - start context)).

(** The sixteen accesses [ptr[0] .. ptr[15]] of one inner step on
    elements of [W] bytes. *)
Definition unrolled16 (op : Z -> Z -> access) (W ptr : Z) : list access :=
  List.map (fun i => op (ptr + Z.of_nat i * W) W) (seq 0 16).

Definition read16 (prefetch : bool) (W ptr : Z) : list access :=
  (if prefetch then [Prefetch (ptr + STRESS_MEMRATE_PF_OFFSET)] else [])
  ++ unrolled16 Load W ptr.

Definition write16 (W ptr : Z) : list access := unrolled16 Store W ptr.

Definition write_nt16 (W ptr : Z) : list access := unrolled16 NtStore W ptr.

(** [while (ptr < end) { body; ptr += 16; }] on elements of [W] bytes;
    the cursor is returned. *)
Fixpoint sweep (fuel : nat) (body : Z -> list access) (W ptr end_ : Z) : M Z :=
  match fuel with
  | O => out_of_fuel
  | S fuel =>
      if ptr <? end_ then
        touch (body ptr) ;;
        sweep fuel body W (ptr + 16 * W) end_
      else ret ptr
  end.

(** The outer loop of the rate-limited sweeps:
<<
    for (ptr = start; ptr < end;) {
        loop_end = ptr + loop_elements;
        read_end = STRESS_PTR_MINIMUM(loop_end, end);
        while (ptr < read_end) { body; ptr += 16; }
        (pacing block)
    }
>> *)
Fixpoint paced_sweep (fuel inner : nat) (body : Z -> list access)
    (W loop_elements : Z) (t1 total_dur dur : Q) (ptr end_ : Z) : M Z :=
  match fuel with
  | O => out_of_fuel
  | S fuel =>
      if ptr <? end_ then
        let loop_end := ptr + loop_elements * W in
        let read_end := STRESS_PTR_MINIMUM loop_end end_ in
        ptr <- sweep inner body W ptr read_end ;;
        total_dur <- throttle t1 total_dur dur ;;
        paced_sweep fuel inner body W loop_elements t1 total_dur dur ptr end_
      else ret ptr
  end.

(** [STRESS_MEMRATE_READ(size, type, prefetch)], [W = sizeof(type)]. *)
Definition stress_memrate_read (W : Z) (prefetch : bool) : stress_memrate_func_t :=
  fun context =>
    ptr <- sweep (pass_fuel context) (read16 prefetch W) W
                 (start context) (end_ context) ;;
    ret ((ptr - start context) / KB, true).

(** The chunk budget [(double)loop_size / (MB * (double)mbs)]. *)
Definition chunk_duration (chunk_bytes mbs : Z) : Q :=
  double_div (double_of_int chunk_bytes)
             (double_mul (double_of_int MB) (double_of_int mbs)).

(** [STRESS_MEMRATE_READ_RATE(size, type, prefetch)]. *)
Definition stress_memrate_read_rate (W : Z) (prefetch : bool) : stress_memrate_func_t :=
  fun context =>
    let loops := stress_memrate_loops context (W * 16) in
    let loop_elements := wrap64 (loops * 16) in
    let loop_size := wrap64 (loops * W * 16) in
    let dur := chunk_duration loop_size (memrate_rd_mbs context) in
    t1 <- stress_time_now ;;
    ptr <- paced_sweep (pass_fuel context) (pass_fuel context)
                       (read16 prefetch W) W loop_elements t1 0 dur
                       (start context) (end_ context) ;;
    ret ((ptr - start context) / KB, true).

(** [stress_memrate_memset]. *)
Definition stress_memrate_memset : stress_memrate_func_t :=
  fun context =>
    let size := memrate_bytes context in
    touch [Store (start context) size] ;;
    ret (size / KB, true).

(** The chunk loop of [stress_memrate_memset_rate] and of
    [stress_memrate_stos_rate]:
<<
    for (ptr = start; (ptr + chunk_size) < end; ptr += chunk_size) {
        (write chunk_size bytes at ptr)
        (pacing block)
    }
>>
    The cursor and the running budget are returned. *)
Fixpoint paced_chunks (fuel : nat) (chunk_size : Z) (t1 total_dur dur : Q)
    (ptr end_ : Z) : M (Z * Q) :=
  match fuel with
  | O => out_of_fuel
  | S fuel =>
      if ptr + chunk_size <? end_ then
        touch [Store ptr chunk_size] ;;
        total_dur <- throttle t1 total_dur dur ;;
        paced_chunks fuel chunk_size t1 total_dur dur (ptr + chunk_size) end_
      else ret (ptr, total_dur)
  end.

(** [stress_memrate_memset_rate]. *)
Definition stress_memrate_memset_rate : stress_memrate_func_t :=
  fun context =>
    let size := end_ context - start context in
    let chunk_size := if size >? MB then MB else size in
    let dur := chunk_duration chunk_size (memrate_wr_mbs context) in
    t1 <- stress_time_now ;;
    r <- paced_chunks (pass_fuel context) chunk_size t1 0 dur
                      (start context) (end_ context) ;;
    let ptr := fst r in
    let total_dur := snd r in
    if end_ context - ptr >? 0 then
      touch [Store ptr (end_ context - ptr)] ;;
      throttle t1 total_dur dur ;;
      ret ((end_ context - start context) / KB, true)
    else ret ((ptr - start context) / KB, true).

(** [STRESS_MEMRATE_WRITE(size, type)]. *)
Definition stress_memrate_write (W : Z) : stress_memrate_func_t :=
  fun context =>
    ptr <- sweep (pass_fuel context) (write16 W) W
                 (start context) (end_ context) ;;
    ret ((ptr - start context) / KB, true).

(** [STRESS_MEMRATE_WRITE_RATE(size, type)]. *)
Definition stress_memrate_write_rate (W : Z) : stress_memrate_func_t :=
  fun context =>
    let loops := stress_memrate_loops context (W * 16) in
    let loop_size := wrap64 (loops * W * 16) in
    let loop_elements := wrap64 (loops * 16) in
    let dur := chunk_duration loop_size (memrate_wr_mbs context) in
    t1 <- stress_time_now ;;
    ptr <- paced_sweep (pass_fuel context) (pass_fuel context)
                       (write16 W) W loop_elements t1 0 dur
                       (start context) (end_ context) ;;
    ret ((ptr - start context) / KB, true).

Definition wrap32 (z : Z) : Z := z mod 2 ^ 32.

(** The chunk loop of [stress_memrate_stos]:
    [for (ptr = start; (ptr + chunk_size) < end; ptr += chunk_size) func(ptr, loops);]
    where [func] stores [loops] words of [wr_size] bytes from [ptr] on. *)
Fixpoint stos_chunks (fuel : nat) (chunk_size loops wr_size : Z) (ptr end_ : Z) : M Z :=
  match fuel with
  | O => out_of_fuel
  | S fuel =>
      if ptr + chunk_size <? end_ then
        touch [Store ptr (loops * wr_size)] ;;
        stos_chunks fuel chunk_size loops wr_size (ptr + chunk_size) end_
      else ret ptr
  end.

(** [stress_memrate_stos]. *)
Definition stress_memrate_stos (wr_size : Z) : stress_memrate_func_t :=
  fun context =>
    let size := end_ context - start context in
    let chunk_size := if size >? MB then MB else size in
    let loops := wrap32 (chunk_size / wr_size) in
    ptr <- stos_chunks (pass_fuel context) chunk_size loops wr_size
                       (start context) (end_ context) ;;
    let loops := wrap32 ((end_ context - ptr) / wr_size) in
    if negb (loops =? 0) then
      touch [Store ptr (loops * wr_size)] ;;
      ret ((end_ context - start context) / KB, true)
    else ret ((ptr - start context) / KB, true).

(** The chunk loop of [stress_memrate_stos_rate]. *)
Fixpoint paced_stos_chunks (fuel : nat) (chunk_size loops wr_size : Z)
    (t1 total_dur dur : Q) (ptr end_ : Z) : M (Z * Q) :=
  match fuel with
  | O => out_of_fuel
  | S fuel =>
      if ptr + chunk_size <? end_ then
        touch [Store ptr (loops * wr_size)] ;;
        total_dur <- throttle t1 total_dur dur ;;
        paced_stos_chunks fuel chunk_size loops wr_size t1 total_dur dur
                          (ptr + chunk_size) end_
      else ret (ptr, total_dur)
  end.

(** [stress_memrate_stos_rate]. *)
Definition stress_memrate_stos_rate (wr_size : Z) : stress_memrate_func_t :=
  fun context =>
    let size := end_ context - start context in
    let chunk_size := if size >? MB then MB else size in
    let loops := wrap32 (chunk_size / wr_size) in
    let dur := chunk_duration chunk_size (memrate_wr_mbs context) in
    t1 <- stress_time_now ;;
    r <- paced_stos_chunks (pass_fuel context) chunk_size loops wr_size t1 0 dur
                           (start context) (end_ context) ;;
    let ptr := fst r in
    let total_dur := snd r in
    let loops := wrap32 ((end_ context - ptr) / wr_size) in
    if negb (loops =? 0) then
      touch [Store ptr (loops * wr_size)] ;;
      throttle t1 total_dur dur ;;
      ret ((end_ context - start context) / KB, true)
    else ret ((ptr - start context) / KB, true).

(** [STRESS_MEMRATE_WRITE_NT(size, type, op, init)]. *)
Definition stress_memrate_write_nt (W : Z) : stress_memrate_func_t :=
  fun context =>
    has <- stress_cpu_x86_has_sse2 ;;
    if negb has then ret (0, false)
    else
      ptr <- sweep (pass_fuel context) (write_nt16 W) W
                   (start context) (end_ context) ;;
      ret ((ptr - start context) / KB, true).

(** [STRESS_MEMRATE_WRITE_NT_RATE(size, type, op, init)]. *)
Definition stress_memrate_write_nt_rate (W : Z) : stress_memrate_func_t :=
  fun context =>
    let loops := stress_memrate_loops context (W * 16) in
    let loop_size := wrap64 (loops * W * 16) in
    let loop_elements := wrap64 (loops * 16) in
    let dur := chunk_duration loop_size (memrate_wr_mbs context) in
    has <- stress_cpu_x86_has_sse2 ;;
    if negb has then ret (0, false)
    else
      t1 <- stress_time_now ;;
      ptr <- paced_sweep (pass_fuel context) (pass_fuel context)
                         (write_nt16 W) W loop_elements t1 0 dur
                         (start context) (end_ context) ;;
      ret ((ptr - start context) / KB, true).

(** [stress_memrate_flush]: one cache line eviction every 64 bytes. *)
Fixpoint flush_for (fuel : nat) (start end_ : Z) : M unit :=
  match fuel with
  | O => out_of_fuel
  | S fuel =>
      if start <? end_ then
        touch [Clflush start] ;;
        flush_for fuel (start + 64) end_
      else ret tt
  end.

Definition stress_memrate_flush (context : stress_memrate_context_t) : M unit :=
  flush_for (pass_fuel context) (start context) (end_ context).

(* ================================================================== *)
(** * The instances of the strategy macros *)
(* ================================================================== *)

(** The element widths are [sizeof] of the vector types of 1024 to 128
    bits, of [__uint128_t] and of [uint64_t] down to [uint8_t]; the
    [stos] strategies pass [sizeof] of the word they store. *)
Definition stress_memrate_read1024 : stress_memrate_func_t := stress_memrate_read 128 false.
Definition stress_memrate_read_rate1024 : stress_memrate_func_t := stress_memrate_read_rate 128 false.
Definition stress_memrate_read512 : stress_memrate_func_t := stress_memrate_read 64 false.
Definition stress_memrate_read_rate512 : stress_memrate_func_t := stress_memrate_read_rate 64 false.
Definition stress_memrate_read256 : stress_memrate_func_t := stress_memrate_read 32 false.
Definition stress_memrate_read_rate256 : stress_memrate_func_t := stress_memrate_read_rate 32 false.
Definition stress_memrate_read128 : stress_memrate_func_t := stress_memrate_read 16 false.
Definition stress_memrate_read_rate128 : stress_memrate_func_t := stress_memrate_read_rate 16 false.
Definition stress_memrate_read64 : stress_memrate_func_t := stress_memrate_read 8 false.
Definition stress_memrate_read_rate64 : stress_memrate_func_t := stress_memrate_read_rate 8 false.
Definition stress_memrate_read32 : stress_memrate_func_t := stress_memrate_read 4 false.
Definition stress_memrate_read_rate32 : stress_memrate_func_t := stress_memrate_read_rate 4 false.
Definition stress_memrate_read16 : stress_memrate_func_t := stress_memrate_read 2 false.
Definition stress_memrate_read_rate16 : stress_memrate_func_t := stress_memrate_read_rate 2 false.
Definition stress_memrate_read8 : stress_memrate_func_t := stress_memrate_read 1 false.
Definition stress_memrate_read_rate8 : stress_memrate_func_t := stress_memrate_read_rate 1 false.
Definition stress_memrate_read128pf : stress_memrate_func_t := stress_memrate_read 16 true.
Definition stress_memrate_read_rate128pf : stress_memrate_func_t := stress_memrate_read_rate 16 true.
Definition stress_memrate_read64pf : stress_memrate_func_t := stress_memrate_read 8 true.
Definition stress_memrate_read_rate64pf : stress_memrate_func_t := stress_memrate_read_rate 8 true.
Definition stress_memrate_write1024 : stress_memrate_func_t := stress_memrate_write 128.
Definition stress_memrate_write_rate1024 : stress_memrate_func_t := stress_memrate_write_rate 128.
Definition stress_memrate_write512 : stress_memrate_func_t := stress_memrate_write 64.
Definition stress_memrate_write_rate512 : stress_memrate_func_t := stress_memrate_write_rate 64.
Definition stress_memrate_write256 : stress_memrate_func_t := stress_memrate_write 32.
Definition stress_memrate_write_rate256 : stress_memrate_func_t := stress_memrate_write_rate 32.
Definition stress_memrate_write128 : stress_memrate_func_t := stress_memrate_write 16.
Definition stress_memrate_write_rate128 : stress_memrate_func_t := stress_memrate_write_rate 16.
Definition stress_memrate_write64 : stress_memrate_func_t := stress_memrate_write 8.
Definition stress_memrate_write_rate64 : stress_memrate_func_t := stress_memrate_write_rate 8.
Definition stress_memrate_write32 : stress_memrate_func_t := stress_memrate_write 4.
Definition stress_memrate_write_rate32 : stress_memrate_func_t := stress_memrate_write_rate 4.
Definition stress_memrate_write16 : stress_memrate_func_t := stress_memrate_write 2.
Definition stress_memrate_write_rate16 : stress_memrate_func_t := stress_memrate_write_rate 2.
Definition stress_memrate_write8 : stress_memrate_func_t := stress_memrate_write 1.
Definition stress_memrate_write_rate8 : stress_memrate_func_t := stress_memrate_write_rate 1.
Definition stress_memrate_write_nt128 : stress_memrate_func_t := stress_memrate_write_nt 16.
Definition stress_memrate_write_nt_rate128 : stress_memrate_func_t := stress_memrate_write_nt_rate 16.
Definition stress_memrate_write_nt64 : stress_memrate_func_t := stress_memrate_write_nt 8.
Definition stress_memrate_write_nt_rate64 : stress_memrate_func_t := stress_memrate_write_nt_rate 8.
Definition stress_memrate_write_nt32 : stress_memrate_func_t := stress_memrate_write_nt 4.
Definition stress_memrate_write_nt_rate32 : stress_memrate_func_t := stress_memrate_write_nt_rate 4.
Definition stress_memrate_write_stos64 : stress_memrate_func_t := stress_memrate_stos 8.
Definition stress_memrate_write_stos_rate64 : stress_memrate_func_t := stress_memrate_stos_rate 8.
Definition stress_memrate_write_stos32 : stress_memrate_func_t := stress_memrate_stos 4.
Definition stress_memrate_write_stos_rate32 : stress_memrate_func_t := stress_memrate_stos_rate 4.
Definition stress_memrate_write_stos16 : stress_memrate_func_t := stress_memrate_stos 2.
Definition stress_memrate_write_stos_rate16 : stress_memrate_func_t := stress_memrate_stos_rate 2.
Definition stress_memrate_write_stos8 : stress_memrate_func_t := stress_memrate_stos 1.
Definition stress_memrate_write_stos_rate8 : stress_memrate_func_t := stress_memrate_stos_rate 1.

(* ================================================================== *)
(** * The catalogue *)
(* ================================================================== *)

Record stress_memrate_info_t : Type := mk_info {
  name : string;
  rdwr : Z;
  func : stress_memrate_func_t;
  func_rate : stress_memrate_func_t
}.

(** The preprocessor symbols that decide which entries a build has. *)
Record build_config : Type := mk_build {
  HAVE_VECMATH : bool;
  HAVE_INT128_T : bool;
  HAVE_BUILTIN_PREFETCH : bool;
  HAVE_NT_STORE128 : bool;
  HAVE_NT_STORE64 : bool;
  HAVE_NT_STORE32 : bool;
  HAVE_ASM_X86_REP_STOSQ : bool;
  HAVE_ASM_X86_REP_STOSD : bool;
  HAVE_ASM_X86_REP_STOSW : bool;
  HAVE_ASM_X86_REP_STOSB : bool;
  ILP32 : bool
}.

Definition ifdef {A : Type} (c : bool) (l : list A) : list A :=
  if c then l else [].

Definition memrate_info (b : build_config) : list stress_memrate_info_t :=
  ifdef (HAVE_ASM_X86_REP_STOSQ b && negb (ILP32 b))
    [mk_info "write64stoq" MR_WR stress_memrate_write_stos64 stress_memrate_write_stos_rate64]
  ++ ifdef (HAVE_ASM_X86_REP_STOSD b && negb (ILP32 b))
    [mk_info "write32stow" MR_WR stress_memrate_write_stos32 stress_memrate_write_stos_rate32]
  ++ ifdef (HAVE_ASM_X86_REP_STOSW b && negb (ILP32 b))
    [mk_info "write16stod" MR_WR stress_memrate_write_stos16 stress_memrate_write_stos_rate16]
  ++ ifdef (HAVE_ASM_X86_REP_STOSB b && negb (ILP32 b))
    [mk_info "write8stob" MR_WR stress_memrate_write_stos8 stress_memrate_write_stos_rate8]
  ++ ifdef (HAVE_NT_STORE128 b)
    [mk_info "write128nt" MR_WR stress_memrate_write_nt128 stress_memrate_write_nt_rate128]
  ++ ifdef (HAVE_NT_STORE64 b)
    [mk_info "write64nt" MR_WR stress_memrate_write_nt64 stress_memrate_write_nt_rate64]
  ++ ifdef (HAVE_NT_STORE32 b)
    [mk_info "write32nt" MR_WR stress_memrate_write_nt32 stress_memrate_write_nt_rate32]
  ++ ifdef (HAVE_VECMATH b)
    [mk_info "write1024" MR_WR stress_memrate_write1024 stress_memrate_write_rate1024;
     mk_info "write512" MR_WR stress_memrate_write512 stress_memrate_write_rate512;
     mk_info "write256" MR_WR stress_memrate_write256 stress_memrate_write_rate256;
     mk_info "write128" MR_WR stress_memrate_write128 stress_memrate_write_rate128]
  ++ ifdef (HAVE_INT128_T b && negb (HAVE_VECMATH b))
    [mk_info "write128" MR_WR stress_memrate_write128 stress_memrate_write_rate128]
  ++ [mk_info "write64" MR_WR stress_memrate_write64 stress_memrate_write_rate64;
      mk_info "write32" MR_WR stress_memrate_write32 stress_memrate_write_rate32;
      mk_info "write16" MR_WR stress_memrate_write16 stress_memrate_write_rate16;
      mk_info "write8" MR_WR stress_memrate_write8 stress_memrate_write_rate8;
      mk_info "memset" MR_WR stress_memrate_memset stress_memrate_memset_rate]
  ++ ifdef (HAVE_BUILTIN_PREFETCH b)
    (ifdef (HAVE_INT128_T b)
       [mk_info "read128pf" MR_RD stress_memrate_read128pf stress_memrate_read_rate128pf]
     ++ [mk_info "read64pf" MR_RD stress_memrate_read64pf stress_memrate_read_rate64pf])
  ++ ifdef (HAVE_VECMATH b)
    [mk_info "read1024" MR_RD stress_memrate_read1024 stress_memrate_read_rate1024;
     mk_info "read512" MR_RD stress_memrate_read512 stress_memrate_read_rate512;
     mk_info "read256" MR_RD stress_memrate_read256 stress_memrate_read_rate256;
     mk_info "read128" MR_RD stress_memrate_read128 stress_memrate_read_rate128]
  ++ ifdef (HAVE_INT128_T b && negb (HAVE_VECMATH b))
    [mk_info "read128" MR_RD stress_memrate_read128 stress_memrate_read_rate128]
  ++ [mk_info "read64" MR_RD stress_memrate_read64 stress_memrate_read_rate64;
      mk_info "read32" MR_RD stress_memrate_read32 stress_memrate_read_rate32;
      mk_info "read16" MR_RD stress_memrate_read16 stress_memrate_read_rate16;
      mk_info "read8" MR_RD stress_memrate_read8 stress_memrate_read_rate8].

Definition memrate_items (b : build_config) : nat := length (memrate_info b).

(* ================================================================== *)
(** * Dispatch *)
(* ================================================================== *)

Definition stress_memrate_dispatch (info : stress_memrate_info_t)
    (context : stress_memrate_context_t) : M (Z * bool) :=
  if ((rdwr info =? MR_RD) && (memrate_rd_mbs context =? UNLIMITED))
     || ((rdwr info =? MR_WR) && (memrate_wr_mbs context =? UNLIMITED))
  then func info context
  else func_rate info context.

(* ================================================================== *)
(** * The benchmark driver, [stress_memrate_child] *)
(* ================================================================== *)

(** [stress_memrate_init_data]:
<<
    for (ptr = start; ptr < end; ptr++)
        ptr[0] = stress_mwc32();
>>
    on a cursor of type [uint32_t].  One 32-bit word is stored per step; the values, which come from the
    random number generator of stress-ng, are not part of the model. *)
Fixpoint init_data_for (fuel : nat) (ptr end_ : Z) : M unit :=
  match fuel with
  | O => out_of_fuel
  | S fuel =>
      if ptr <? end_ then
        touch [Store ptr 4] ;;
        init_data_for fuel (ptr + 4) end_
      else ret tt
  end.

Definition stress_memrate_init_data (start end_ : Z) : M unit :=
  init_data_for (S (Z.to_nat (end_ - start))) start end_.


Inductive exit_status : Type := EXIT_SUCCESS | EXIT_NO_RESOURCE.

(** The places of [stress_memrate_child] between which the run is
    observed. *)
Inductive child_pc : Type :=
| PcMmap                           (* entry, before stress_memrate_mmap *)
| PcSigsetjmp                      (* before sigsetjmp(jmpbuf, 1) *)
| PcSighandler                     (* before stress_sighandler(..., SIGALRM, ...) *)
| PcFor (i : nat)                  (* the test i < memrate_items *)
| PcDispatch (i : nat) (t1 : Q)    (* inside stress_memrate_dispatch for entry i *)
| PcIncCounter                     (* inc_counter(args) and the while test *)
| PcTidy                           (* the label tidy, before munmap *)
| PcReturn                         (* after munmap, before return EXIT_SUCCESS *)
| PcExit (rc : exit_status).       (* the function has returned *)

Record child_state : Type := mk_child {
  pc : child_pc;
  context : stress_memrate_context_t;  (* its [stats] is the shared table *)
  wld : world;
  handler : bool;   (* SIGALRM is routed to stress_memrate_alarm_handler *)
  jmpbuf : bool;    (* sigsetjmp has filled jmpbuf *)
  munmaps : nat;    (* the calls of munmap on the buffer so far *)
  counter : nat     (* the bogo operations counted by inc_counter *)
}.

(** Where SIGALRM can land between the return of the strategy and the
    end of the statements that write its slot:
<<
    kbytes = stress_memrate_dispatch(info, context, &valid);
                                                  (AfterDispatch)
    context->stats[i].kbytes += (double)kbytes;   (AfterKbytes)
    t2 = stress_time_now();                       (AfterClock)
    context->stats[i].duration += (t2 - t1);      (AfterDuration)
    context->stats[i].valid = valid;
>>
    After the last of them the update is complete. *)
Inductive update_point : Type :=
| AfterDispatch
| AfterKbytes
| AfterClock
| AfterDuration.

(** What the environment decides at each step. *)
Inductive event : Type :=
| EvMmap (buffer : option Z)  (* stress_memrate_mmap: the address, or MAP_FAILED *)
| EvSighandler (ok : bool)    (* whether stress_sighandler succeeds *)
| EvRun                       (* the statements up to the next place *)
| EvReturn (keep : bool)      (* the strategy returns and its slot is written;
                                 [keep] is keep_stressing(args) *)
| EvLoop (keep : bool)        (* inc_counter; [keep] is keep_stressing(args) *)
| EvAlarmInUpdate (p : update_point)
                              (* SIGALRM after the strategy has returned and
                                 before the slot is written in full *)
| EvAlarm (in_flight : Z).    (* SIGALRM; [in_flight] is (ptr - start) / KB for the
                                 cursor of the strategy that is running, if any *)

Definition set_pc (p : child_pc) (s : child_state) : child_state :=
  mk_child p (context s) (wld s) (handler s) (jmpbuf s) (munmaps s) (counter s).

Definition set_stats (st : list stress_memrate_stats_t)
    (c : stress_memrate_context_t) : stress_memrate_context_t :=
  mk_context st (memrate_bytes c) (memrate_rd_mbs c) (memrate_wr_mbs c)
             (start c) (end_ c) (memrate_flush c).

(** [context->start = buffer; context->end = buffer_end;] with
    [buffer_end = buffer + context->memrate_bytes] in bytes. *)
Definition set_buffer (buffer : Z) (c : stress_memrate_context_t)
    : stress_memrate_context_t :=
  let buffer_end := buffer + memrate_bytes c in
  mk_context (stats c) (memrate_bytes c) (memrate_rd_mbs c) (memrate_wr_mbs c)
             buffer buffer_end (memrate_flush c).

(** The statements after the dispatch of entry [i]:
<<
    context->stats[i].kbytes += (double)kbytes;
    t2 = stress_time_now();
    context->stats[i].duration += (t2 - t1);
    context->stats[i].valid = valid;
>> *)
Definition stats_update (i : nat) (t1 t2 : Q) (kb : Z) (v : bool)
    (st : list stress_memrate_stats_t) : list stress_memrate_stats_t :=
  alter (fun s => mk_stats (duration s + (t2 - t1)) (kbytes s + inject_Z kb) v) i st.

(** The three assignments, one by one. *)
Definition stats_kbytes (i : nat) (kb : Z)
    (st : list stress_memrate_stats_t) : list stress_memrate_stats_t :=
  alter (fun s => mk_stats (duration s) (kbytes s + inject_Z kb) (valid s)) i st.

Definition stats_duration (i : nat) (t1 t2 : Q)
    (st : list stress_memrate_stats_t) : list stress_memrate_stats_t :=
  alter (fun s => mk_stats (duration s + (t2 - t1)) (kbytes s) (valid s)) i st.

Definition stats_valid (i : nat) (v : bool)
    (st : list stress_memrate_stats_t) : list stress_memrate_stats_t :=
  alter (fun s => mk_stats (duration s) (kbytes s) v) i st.

(** The statements after the dispatch of entry [i] up to the point [p]
    where SIGALRM lands: the table they leave. *)
Definition interrupted_update (p : update_point) (i : nat) (t1 : Q) (kb : Z)
    (st : list stress_memrate_stats_t) : M (list stress_memrate_stats_t) :=
  match p with
  | AfterDispatch => ret st
  | AfterKbytes => ret (stats_kbytes i kb st)
  | AfterClock =>
      stress_time_now ;;
      ret (stats_kbytes i kb st)
  | AfterDuration =>
      t2 <- stress_time_now ;;
      ret (stats_duration i t1 t2 (stats_kbytes i kb st))
  end.

(** [stress_memrate_alarm_handler]: [siglongjmp(jmpbuf, 1)] makes
    [sigsetjmp] return 1, and the code goes to [tidy].  Nothing else of
    the state is touched: the frame of the strategy that was running, with
    its cursor, is dropped. *)
Definition stress_memrate_alarm_handler (s : child_state) : child_state :=
  set_pc PcTidy s.

(** One step of [stress_memrate_child] on an event.  An event that does
    not fit the place has no successor.  The step after a successful
    [stress_memrate_mmap] runs [stress_memrate_init_data] on the buffer
    and sets [start] and [end].  The return of a dispatch runs the
    strategy, reads the clock and writes the slot.  An alarm is followed
    only while the handler of this file is installed (what SIGALRM does
    before that is decided outside the file) and the function has not
    returned (the jump buffer is then stale); it can land inside a
    strategy ([EvAlarm] at a dispatch), between the statements that write
    the slot ([EvAlarmInUpdate]) or anywhere else in the loop and in the
    teardown ([EvAlarm]). *)
Definition child_step (b : build_config) (e : event) (s : child_state)
    : option child_state :=
  match e, pc s with
  | EvAlarm _, PcExit _ => None
  | EvAlarm _, _ =>
      if handler s then Some (stress_memrate_alarm_handler s) else None
  | EvAlarmInUpdate p, PcDispatch i t1 =>
      if handler s then
        match memrate_info b !! i with
        | Some info =>
            match (r <- stress_memrate_dispatch info (context s) ;;
                   interrupted_update p i t1 (fst r) (stats (context s)))
                    (wld s) with
            | Some (st, w) =>
                Some (stress_memrate_alarm_handler
                        (mk_child (pc s) (set_stats st (context s)) w
                                  (handler s) (jmpbuf s) (munmaps s) (counter s)))
            | None => None
            end
        | None => None
        end
      else None
  | EvMmap None, PcMmap => Some (set_pc (PcExit EXIT_NO_RESOURCE) s)
  | EvMmap (Some buffer), PcMmap =>
      let buffer_end := buffer + memrate_bytes (context s) in
      match stress_memrate_init_data buffer buffer_end (wld s) with
      | Some (_, w) =>
          Some (mk_child PcSigsetjmp (set_buffer buffer (context s))
                         w (handler s) (jmpbuf s) (munmaps s) (counter s))
      | None => None
      end
  | EvRun, PcSigsetjmp =>
      Some (mk_child PcSighandler (context s) (wld s) (handler s) true
                     (munmaps s) (counter s))
  | EvSighandler false, PcSighandler => Some (set_pc (PcExit EXIT_NO_RESOURCE) s)
  | EvSighandler true, PcSighandler =>
      Some (mk_child (PcFor 0) (context s) (wld s) true (jmpbuf s)
                     (munmaps s) (counter s))
  | EvRun, PcFor i =>
      if (i <? memrate_items b)%nat then
        match ((if memrate_flush (context s)
                then stress_memrate_flush (context s) else ret tt) ;;
               stress_time_now) (wld s) with
        | Some (t1, w) =>
            Some (mk_child (PcDispatch i t1) (context s) w (handler s) (jmpbuf s)
                           (munmaps s) (counter s))
        | None => None
        end
      else Some (set_pc PcIncCounter s)
  | EvReturn keep, PcDispatch i t1 =>
      match memrate_info b !! i with
      | Some info =>
          match (r <- stress_memrate_dispatch info (context s) ;;
                 t2 <- stress_time_now ;;
                 ret (r, t2)) (wld s) with
          | Some ((kb, v, t2), w) =>
              Some (mk_child (if keep then PcFor (S i) else PcIncCounter)
                      (set_stats (stats_update i t1 t2 kb v (stats (context s)))
                                 (context s))
                      w (handler s) (jmpbuf s) (munmaps s) (counter s))
          | None => None
          end
      | None => None
      end
  | EvLoop keep, PcIncCounter =>
      Some (mk_child (if keep then PcFor 0 else PcTidy) (context s) (wld s)
                     (handler s) (jmpbuf s) (munmaps s) (S (counter s)))
  | EvRun, PcTidy =>
      Some (mk_child PcReturn (context s) (wld s) (handler s) (jmpbuf s)
                     (S (munmaps s)) (counter s))
  | EvRun, PcReturn => Some (set_pc (PcExit EXIT_SUCCESS) s)
  | _, _ => None
  end.

(** A run: the events in the order they happen. *)
Fixpoint child_run (b : build_config) (evs : list event) (s : child_state)
    : option child_state :=
  match evs with
  | [] => Some s
  | e :: evs =>
      match child_step b e s with
      | Some s' => child_run b evs s'
      | None => None
      end
  end.

Definition child_init (c : stress_memrate_context_t) (w : world) : child_state :=
  mk_child PcMmap c w false false 0 0.

(* ================================================================== *)
(** * The parent, [stress_memrate] *)
(* ================================================================== *)

Inductive setting : Type :=
| SettingUint64 (v : Z)
| SettingBool (v : bool).

(** Modelled from the spec: [stress_get_setting] (the settings store of
    stress-ng is not among the sources).  The options reach the core from
    an external option-parsing collaborator; an option that was not
    supplied leaves the destination as it is. *)
Definition stress_get_setting_uint64 (opts : gmap string setting)
    (key : string) (dest : Z) : Z :=
  match opts !! key with
  | Some (SettingUint64 v) => v
  | _ => dest
  end.

Definition stress_get_setting_bool (opts : gmap string setting)
    (key : string) (dest : bool) : bool :=
  match opts !! key with
  | Some (SettingBool v) => v
  | _ => dest
  end.

(** The context [stress_memrate] hands to the child: the defaults, the
    settings read over them, the zeroed table and the rounded size. *)
Definition stress_memrate_context (b : build_config) (opts : gmap string setting)
    : stress_memrate_context_t :=
  let bytes := stress_get_setting_uint64 opts "memrate-bytes" DEFAULT_MEMRATE_BYTES in
  let flush := stress_get_setting_bool opts "memrate-flush" false in
  let rd_mbs := stress_get_setting_uint64 opts "memrate-rd-mbs" UNLIMITED in
  let wr_mbs := stress_get_setting_uint64 opts "memrate-wr-mbs" UNLIMITED in
  let table := replicate (memrate_items b) (mk_stats 0 0 false) in
  let bytes := Z.land (wrap64 (bytes + 1023)) (Z.lxor 1023 (Z.ones 64)) in
  mk_context table bytes rd_mbs wr_mbs 0 0 flush.

(** What the reporting loop emits. *)
Inductive report : Type :=
| Metric (i : nat) (label : string) (rate : Q)  (* stress_metrics_set *)
| InterruptedEarly (who : string).              (* pr_inf "interrupted early" *)

Definition Qlt_bool (a b : Q) : bool := negb (Qle_bool b a).

(** The body of the reporting loop for slot [i]. *)
Definition report_slot (i : nat) (info : stress_memrate_info_t)
    (s : stress_memrate_stats_t) : list report :=
  if negb (valid s) then []
  else if Qlt_bool 0 (duration s) then
    let rate := (kbytes s / (duration s * inject_Z KB))%Q in
    [Metric i (name info ++ " MB per sec") rate]
  else [InterruptedEarly (name info)].

Fixpoint report_for (i : nat) (infos : list stress_memrate_info_t)
    (table : list stress_memrate_stats_t) : list report :=
  match infos, table with
  | info :: infos, s :: table => report_slot i info s ++ report_for (S i) infos table
  | _, _ => []
  end.

Definition stress_memrate_report (b : build_config)
    (c : stress_memrate_context_t) : list report :=
  report_for 0 (memrate_info b) (stats c).

(* ================================================================== *)
(** * Concrete builds, worlds and contexts for the examples *)
(* ================================================================== *)

(** An x86-64 build with every optional strategy compiled in. *)
Definition x86_64_build : build_config :=
  mk_build true true true true true true true true true true false.

(** A world whose clock stands still at [t]. *)
Definition frozen_world (t : Q) (has_sse2 : bool) : world :=
  mk_world (fun _ => t) 0 [] [] has_sse2.

(** A world whose clock advances by one second at every reading. *)
Definition ticking_world (has_sse2 : bool) : world :=
  mk_world (fun n => inject_Z (Z.of_nat n)) 0 [] [] has_sse2.


(** A buffer of [bytes] bytes mapped at address [buffer]. *)
Definition context_at (buffer bytes rd_mbs wr_mbs : Z) : stress_memrate_context_t :=
  mk_context [] bytes rd_mbs wr_mbs buffer (buffer + bytes) false.

(** The one option of a run on a 4 KiB buffer. *)
Definition small_opts : gmap string setting :=
  {[ "memrate-bytes"%string := SettingUint64 4096 ]}.

(** The start of a run on that buffer, mapped at address 4096, up to the
    first dispatch. *)
Definition to_first_dispatch : list event :=
  [EvMmap (Some 4096); EvRun; EvSighandler true; EvRun].

(* ================================================================== *)
(** * Alarms during teardown *)
(* ================================================================== *)

Definition is_alarm (e : event) : bool :=
  match e with
  | EvAlarm _ | EvAlarmInUpdate _ => true
  | _ => false
  end.

Definition at_return (p : child_pc) : bool :=
  match p with
  | PcReturn => true
  | _ => false
  end.

(** The alarms of a run that are delivered after the buffer was released
    and before the function returns. *)
Fixpoint late_alarms (b : build_config) (evs : list event) (s : child_state) : nat :=
  match evs with
  | [] => 0
  | e :: evs =>
      match child_step b e s with
      | Some s' =>
          ((if is_alarm e && at_return (pc s) then 1 else 0)
           + late_alarms b evs s')%nat
      | None => 0%nat
      end
  end.

(** The claim that partial progress is recorded: when an alarm cuts a
    dispatch of entry [i] off after the strategy has swept [in_flight]
    kilobytes, the slot of that entry has them. *)
Definition partial_progress_recorded (b : build_config) : Prop :=
  forall s i t1 in_flight slot s',
    pc s = PcDispatch i t1 ->
    stats (context s) !! i = Some slot ->
    child_step b (EvAlarm in_flight) s = Some s' ->
    exists slot',
      stats (context s') !! i = Some slot' /\
      (kbytes slot' == kbytes slot + inject_Z in_flight)%Q.

(** The claim that teardown is guarded: the first jump disarms the
    handler, and no run releases the buffer twice. *)
Definition handler_disarmed_by_jump (b : build_config) : Prop :=
  forall s in_flight s',
    child_step b (EvAlarm in_flight) s = Some s' -> handler s' = false.

Definition buffer_released_at_most_once (b : build_config) : Prop :=
  forall c w evs s,
    child_run b evs (child_init c w) = Some s -> (munmaps s <= 1)%nat.

(* ================================================================== *)
(** * Predicates used in the statements and proofs *)
(* ================================================================== *)

(** A shift is usable when its power of two divides the buffer size and
    does not exceed the best-fit count. *)
Definition usable (bytes best_fit k : Z) : Prop :=
  bytes mod 2 ^ k = 0 /\ 2 ^ k <= best_fit.

(** Only the memory traffic may have grown. *)
Definition quiet (w w' : world) : Prop :=
  clock w' = clock w /\ ticks w' = ticks w /\
  naps w' = naps w /\ sse2 w' = sse2 w.

(** The controller has charged [n] chunks, starting from the budget
    [total], and has requested what [budget_naps] says for the [n]
    readings of the clock it made. *)
Definition paced (t1 dur total : Q) (w : world) (total' : Q) (w' : world) : Prop :=
  clock w' = clock w /\ sse2 w' = sse2 w /\
  exists n : nat,
    ticks w' = (ticks w + n)%nat /\
    total' = budget_after total dur n /\
    naps w' = naps w ++ budget_naps t1 total dur
                                    (List.map (clock w) (seq (ticks w) n)).

(** A whole rate-limited pass: the clock is read once for [t1], and
    then once after each of the [n] chunks. *)
Definition pass_paced (dur : Q) (w w' : world) : Prop :=
  clock w' = clock w /\ sse2 w' = sse2 w /\
  exists n : nat,
    ticks w' = S (ticks w + n) /\
    naps w' = naps w ++ budget_naps (clock w (ticks w)) 0 dur
                                    (List.map (clock w) (seq (S (ticks w)) n)).

(** The clock and the CPU are the same, and time has not run backwards
    in the count of readings. *)
Definition world_le (w w' : world) : Prop :=
  clock w' = clock w /\ sse2 w' = sse2 w /\ (ticks w <= ticks w')%nat.

(** The chunk a rate-limited sweep is charged for: [loop_size]. *)
Definition sweep_chunk_bytes (W : Z) (c : stress_memrate_context_t) : Z :=
  wrap64 (stress_memrate_loops c (W * 16) * W * 16).

(** The chunk a rate-limited fill is charged for: [chunk_size]. *)
Definition fill_chunk_bytes (c : stress_memrate_context_t) : Z :=
  if end_ c - start c >? MB then MB else end_ c - start c.

(** A strategy is well behaved when, on a mapped buffer, it returns a
    count that is not negative and leaves the clock and the CPU alone. *)
Definition well_behaved (f : stress_memrate_func_t) : Prop :=
  forall c w kb v w',
    start c <= end_ c -> 0 <= memrate_bytes c ->
    f c w = Some ((kb, v), w') -> 0 <= kb /\ world_le w w'.

(** What holds at each place of [stress_memrate_child] for a clock
    [clk]: once the buffer is mapped the context spans it, once the loop
    runs the handler is installed, and the [t1] of a dispatch in flight
    is a reading of the clock that was already made. *)
Definition child_inv (clk : nat -> Q) (s : child_state) : Prop :=
  clock (wld s) = clk /\ 0 <= memrate_bytes (context s) /\
  match pc s with
  | PcMmap | PcExit _ => True
  | PcSigsetjmp | PcSighandler =>
      end_ (context s) = start (context s) + memrate_bytes (context s)
  | PcTidy | PcReturn => handler s = true
  | PcFor _ | PcIncCounter =>
      handler s = true /\
      end_ (context s) = start (context s) + memrate_bytes (context s)
  | PcDispatch i t1 =>
      handler s = true /\
      end_ (context s) = start (context s) + memrate_bytes (context s) /\
      exists n, (n < ticks (wld s))%nat /\ t1 = clk n
  end.

(** What a step does to the table, in full: nothing, or, once the
    strategy of entry [i] has returned [kb] and [v], the three assignments
    to slot [i] (the return of the dispatch) or those of them that were
    carried out when SIGALRM landed.  [t1] and [t2] are readings of the
    clock, [t2] the later one. *)
Definition table_step (b : build_config) (clk : nat -> Q) (e : event)
    (s s' : child_state) : Prop :=
  exists i t1 info kb v w1 n,
    pc s = PcDispatch i t1 /\
    memrate_info b !! i = Some info /\
    stress_memrate_dispatch info (context s) (wld s) = Some ((kb, v), w1) /\
    0 <= kb /\ (n < ticks w1)%nat /\ t1 = clk n /\
    let st := stats (context s) in
    let t2 := clk (ticks w1) in
    match e with
    | EvReturn _ => stats (context s') = stats_update i t1 t2 kb v st
    | EvAlarmInUpdate AfterKbytes | EvAlarmInUpdate AfterClock =>
        stats (context s') = stats_kbytes i kb st
    | EvAlarmInUpdate AfterDuration =>
        stats (context s') = stats_duration i t1 t2 (stats_kbytes i kb st)
    | _ => False
    end.


(** Whether a release of the buffer is still ahead at a place. *)
Definition release_pending (p : child_pc) : nat :=
  match p with
  | PcReturn | PcExit _ => 0
  | _ => 1
  end.

(** How far a cursor that advances by [step] bytes travels to pass [n]
    bytes: [n] rounded up to a multiple of [step]. *)
Definition swept (step n : Z) : Z := (Z.max 0 n + step - 1) / step * step.

(** A buffer size the options accept: a multiple of 1024 bytes from
    4 KiB up to the limit of the platform. *)
Definition valid_memrate_bytes (limit bytes : Z) : Prop :=
  MIN_MEMRATE_BYTES <= bytes <= limit /\ bytes mod 1024 = 0.

(** The context of a run on a mapped buffer of a valid size. *)
Definition mapped_context (c : stress_memrate_context_t) : Prop :=
  end_ c = start c + memrate_bytes c /\
  MIN_MEMRATE_BYTES <= memrate_bytes c < 2 ^ 64 /\
  memrate_bytes c mod 1024 = 0.

(** The unthrottled entry point of an entry stays within the buffer. *)
Definition within_buffer (info : stress_memrate_info_t) : Prop :=
  forall c w,
    mapped_context c ->
    exists kb v w',
      func info c w = Some ((kb, v), w') /\ 0 <= kb <= memrate_bytes c / KB.

(* ================================================================== *)
(** * The rate-limited entry points, by family *)
(* ================================================================== *)

Inductive rate_limited : Type :=
| ReadRate (W : Z) (prefetch : bool)
| WriteRate (W : Z)
| WriteNtRate (W : Z)
| StosRate (wr_size : Z)
| MemsetRate.

Definition rate_limited_func (v : rate_limited) : stress_memrate_func_t :=
  match v with
  | ReadRate W prefetch => stress_memrate_read_rate W prefetch
  | WriteRate W => stress_memrate_write_rate W
  | WriteNtRate W => stress_memrate_write_nt_rate W
  | StosRate wr_size => stress_memrate_stos_rate wr_size
  | MemsetRate => stress_memrate_memset_rate
  end.

(** The target the family paces itself to. *)
Definition rate_limited_target (v : rate_limited)
    (c : stress_memrate_context_t) : Z :=
  match v with
  | ReadRate _ _ => memrate_rd_mbs c
  | _ => memrate_wr_mbs c
  end.

(** The chunk the family is charged for. *)
Definition rate_limited_chunk (v : rate_limited)
    (c : stress_memrate_context_t) : Z :=
  match v with
  | ReadRate W _ | WriteRate W | WriteNtRate W => sweep_chunk_bytes W c
  | StosRate _ | MemsetRate => fill_chunk_bytes c
  end.

(** The element widths of the catalogue, and SSE2 where the family asks
    for it. *)
Definition rate_limited_ok (v : rate_limited) (w : world) : Prop :=
  match v with
  | ReadRate W _ | WriteRate W => 0 < W <= 128
  | WriteNtRate W => 0 < W <= 128 /\ sse2 w = true
  | StosRate wr_size => 0 < wr_size <= 8
  | MemsetRate => True
  end.


(* ================================================================== *)
(** * Further parts of the file and the words to speak of them *)
(* ================================================================== *)

(** The number of steps of [step] bytes a cursor takes to pass [n]
    bytes. *)
Definition stride_count (step n : Z) : nat :=
  Z.to_nat ((Z.max 0 n + step - 1) / step).

(** The addresses [ptr], [ptr + step], ... of [n] steps. *)
Definition strides (ptr step : Z) (n : nat) : list Z :=
  List.map (fun k => ptr + Z.of_nat k * step) (seq 0 n).

(** The elements [ptr[0]], [ptr[1]], ... of [W] bytes, [n] of them, each
    touched by [op]. *)
Definition elements (op : Z -> Z -> access) (W ptr : Z) (n : nat) : list access :=
  List.map (fun j => op (ptr + Z.of_nat j * W) W) (seq 0 n).

(** [l] is a row of stores, each of at least one byte and each starting
    where the one before ended; the row starts at [a], and the address
    where it ends is returned. *)
Fixpoint tiled_from (a : Z) (l : list access) : option Z :=
  match l with
  | [] => Some a
  | Store p n :: l =>
      if (p =? a) && (0 <? n) then tiled_from (a + n) l else None
  | _ :: _ => None
  end.

Definition store_width (a : access) : Z :=
  match a with
  | Store _ n => n
  | _ => 0
  end.

(** The world [w] with the memory traffic [l] added. *)
Definition with_traffic (w : world) (l : list access) : world :=
  mk_world (clock w) (ticks w) (naps w) (touched w ++ l) (sse2 w).

(** What a chunk loop leaves: a row of stores of one chunk each from the
    cursor on, up to a place less than one chunk before the end. *)
Definition chunk_row (chunk ptr e p : Z) (l : list access) : Prop :=
  tiled_from ptr l = Some p /\
  Forall (fun a => store_width a = chunk) l /\
  p = ptr + Z.of_nat (length l) * chunk /\
  e <= p + chunk /\ (p = ptr \/ p < e).


(** The places before the benchmark loop, and the failed exit. *)
Definition before_loop (p : child_pc) : Prop :=
  match p with
  | PcMmap | PcSigsetjmp | PcSighandler | PcExit EXIT_NO_RESOURCE => True
  | _ => False
  end.

(** A slot as the driver can leave it under a clock that moves on at
    every reading: nothing in it is negative, and a slot that was ever
    written has a positive duration. *)
Definition slot_sound (s : stress_memrate_stats_t) : Prop :=
  (0 <= kbytes s)%Q /\ (0 <= duration s)%Q /\
  (valid s = true -> (0 < duration s)%Q).

(** The entry is a non-temporal write strategy on elements of [W]
    bytes. *)
Definition non_temporal (info : stress_memrate_info_t) (W : Z) : Prop :=
  func info = stress_memrate_write_nt W /\
  func_rate info = stress_memrate_write_nt_rate W.

(** A line of the report that gives a rate, and a rate that is not
    negative. *)
Definition reported_rate (r : report) : Prop :=
  match r with
  | Metric _ _ rate => (0 <= rate)%Q
  | InterruptedEarly _ => False
  end.

(** The child is before its loop and nothing has happened yet but the
    initialisation of the buffer: the world is [w0] but for the memory
    traffic, the context is [c0] but for the buffer once it is mapped, and
    nothing was counted or released. *)
Definition untouched (c0 : stress_memrate_context_t) (w0 : world)
    (s : child_state) : Prop :=
  before_loop (pc s) /\ munmaps s = 0%nat /\ counter s = 0%nat /\
  quiet w0 (wld s) /\ handler s = false /\
  match pc s with
  | PcMmap => context s = c0 /\ jmpbuf s = false
  | PcSigsetjmp =>
      (exists buffer, context s = set_buffer buffer c0) /\ jmpbuf s = false
  | PcSighandler =>
      (exists buffer, context s = set_buffer buffer c0) /\ jmpbuf s = true
  | _ => if jmpbuf s then exists buffer, context s = set_buffer buffer c0
         else context s = c0
  end.

(** A strategy returns on every mapped buffer of a valid size. *)
Definition returns (f : stress_memrate_func_t) : Prop :=
  forall c w, mapped_context c -> exists kb v w', f c w = Some ((kb, v), w').

(** The names of the strategies no build option guards. *)
Definition portable_names : list string :=
  ["write64"; "write32"; "write16"; "write8"; "memset";
   "read64"; "read32"; "read16"; "read8"]%string.

(** Whether [stress_memrate], in instance 0, prints its hint about
    multiples of 1 MB for the rounded size:
<<
    if ((context.memrate_bytes > MB) && (context.memrate_bytes & MB))
        pr_inf("... for optimial speed, use multiples of 1 MB ...");
>> *)
Definition optimal_speed_hint (memrate_bytes : Z) : bool :=
  (memrate_bytes >? MB) && negb (Z.land memrate_bytes MB =? 0).

(* ================================================================== *)
(** * Properties *)
(* ================================================================== *)

Section Loops.

Lemma shift_round_trip (bytes k : Z) :
  0 <= k -> 0 <= bytes < 2 ^ 64 ->
  (wrap64 (Z.shiftl (Z.shiftr bytes k) k) =? bytes) = (bytes mod 2 ^ k =? 0).
Proof.
  intros Hk Hb. unfold wrap64.
  rewrite Z.shiftr_div_pow2, Z.shiftl_mul_pow2 by lia.
  assert (Hp : 0 < 2 ^ k) by (apply Z.pow_pos_nonneg; lia).
  pose proof (Z.div_mod bytes (2 ^ k) ltac:(lia)) as Hdm.
  pose proof (Z.mod_pos_bound bytes (2 ^ k) Hp) as Hm.
  pose proof (Z.mod_le bytes (2 ^ k) ltac:(lia) Hp) as Hr.
  assert (Hle : 0 <= bytes / 2 ^ k * 2 ^ k <= bytes) by lia.
  rewrite Z.mod_small by lia.
  destruct (Z.eqb_spec (bytes mod 2 ^ k) 0) as [E | E].
  - apply Z.eqb_eq. lia.
  - apply Z.eqb_neq. lia.
Qed.

Lemma loops_for_cases (bytes best_fit : Z) (shifts : list Z) :
  0 <= bytes < 2 ^ 64 ->
  (forall k, k ∈ shifts -> 0 <= k < 64) ->
  (exists pre k post,
      shifts = pre ++ k :: post /\
      stress_memrate_loops_for bytes best_fit shifts = 2 ^ k /\
      usable bytes best_fit k /\
      forall j, j ∈ pre -> ~ usable bytes best_fit j)
  \/ (stress_memrate_loops_for bytes best_fit shifts = best_fit /\
      forall j, j ∈ shifts -> ~ usable bytes best_fit j).
Proof.
  intros Hb. induction shifts as [| s rest IH]; intros Hr.
  - right. split; [reflexivity |]. intros j Hj. inversion Hj.
  - assert (Hs : 0 <= s < 64) by (apply Hr; left).
    assert (Hrest : forall k, k ∈ rest -> 0 <= k < 64)
      by (intros k Hk; apply Hr; right; exact Hk).
    assert (Hn : wrap64 (Z.shiftl 1 s) = 2 ^ s).
    { unfold wrap64. rewrite Z.shiftl_mul_pow2, Z.mul_1_l by lia.
      apply Z.mod_small. split; [apply Z.pow_nonneg; lia |].
      apply Z.pow_lt_mono_r; lia. }
    cbn [stress_memrate_loops_for]. rewrite shift_round_trip, Hn by lia.
    destruct (Z.eqb_spec (bytes mod 2 ^ s) 0) as [Ed | Ed];
      [destruct (Z.leb_spec (2 ^ s) best_fit) as [El | El] |].
    + left. exists [], s, rest.
      refine (conj eq_refl (conj eq_refl (conj (conj Ed El) _))).
      intros j Hj. inversion Hj.
    + destruct (IH Hrest) as [(pre & k & post & -> & Hv & Hu & Hpre) | [Hv Hall]].
      * left. exists (s :: pre), k, post.
        refine (conj eq_refl (conj Hv (conj Hu _))).
        intros j Hj. apply elem_of_cons in Hj as [-> | Hj]; [| auto].
        intros [_ Hle]. lia.
      * right. split; [exact Hv |]. intros j Hj.
        apply elem_of_cons in Hj as [-> | Hj]; [| auto].
        intros [_ Hle]. lia.
    + destruct (IH Hrest) as [(pre & k & post & -> & Hv & Hu & Hpre) | [Hv Hall]].
      * left. exists (s :: pre), k, post.
        refine (conj eq_refl (conj Hv (conj Hu _))).
        intros j Hj. apply elem_of_cons in Hj as [-> | Hj]; [| auto].
        intros [Hd _]. contradiction.
      * right. split; [exact Hv |]. intros j Hj.
        apply elem_of_cons in Hj as [-> | Hj]; [| auto].
        intros [Hd _]. contradiction.
Qed.

Lemma chunk_shifts_range (k : Z) : k ∈ chunk_shifts <-> 10 <= k <= 20.
Proof.
  unfold chunk_shifts. rewrite !elem_of_cons, elem_of_nil.
  split; [intros H; lia | intros H].
  repeat match goal with
         | |- ?x = ?c \/ _ =>
             destruct (Z.eq_dec x c) as [-> | ?]; [left; reflexivity | right]
         end.
  lia.
Qed.

(** In a descending list, what precedes [k] is what lies above it. *)
Lemma descending_before (pre post : list Z) (k j : Z) :
  StronglySorted Z.gt (pre ++ k :: post) ->
  j ∈ pre ++ k :: post -> k < j -> j ∈ pre.
Proof.
  induction pre as [| a pre IH]; cbn [app]; intros Hs Hin Hlt.
  - apply StronglySorted_inv in Hs as [_ Hall].
    apply elem_of_cons in Hin as [-> | Hin]; [lia |].
    rewrite Forall_forall in Hall. specialize (Hall _ Hin). lia.
  - apply StronglySorted_inv in Hs as [Hs _].
    apply elem_of_cons in Hin as [-> | Hin]; [left | right; auto].
Qed.

Lemma chunk_shifts_before (pre post : list Z) (k j : Z) :
  chunk_shifts = pre ++ k :: post -> k < j <= 20 -> j ∈ pre.
Proof.
  intros E Hj.
  assert (Hk : 10 <= k <= 20).
  { apply chunk_shifts_range. rewrite E. apply elem_of_app. right. left. }
  assert (Hin : j ∈ chunk_shifts) by (apply chunk_shifts_range; lia).
  assert (Hsorted : StronglySorted Z.gt chunk_shifts).
  { unfold chunk_shifts. repeat constructor; lia. }
  rewrite E in Hin, Hsorted.
  eapply descending_before; eauto. lia.
Qed.

End Loops.

(** C3 (as amended): the value [stress_memrate_loops] returns is a count
    of 16-element steps, not a size in bytes.  It is the largest power of
    two [2^k], [10 <= k <= 20], that divides the buffer size and does not
    exceed [bytes / size]; when no such power exists, also when powers of
    two divide the buffer but all exceed [bytes / size], it is
    [bytes / size].  The chunk of [n * size] bytes never exceeds the
    buffer. *)
Theorem stress_memrate_loops_granularity
    (context : stress_memrate_context_t) (size : Z) :
  0 <= memrate_bytes context < 2 ^ 64 ->
  0 < size ->
  let bytes := memrate_bytes context in
  let n := stress_memrate_loops context size in
  ((exists k, 10 <= k <= 20 /\ n = 2 ^ k /\
              bytes mod 2 ^ k = 0 /\ 2 ^ k <= bytes / size /\
              forall j, k < j <= 20 ->
                        ~ (bytes mod 2 ^ j = 0 /\ 2 ^ j <= bytes / size))
   \/ (n = bytes / size /\
       forall j, 10 <= j <= 20 ->
                 ~ (bytes mod 2 ^ j = 0 /\ 2 ^ j <= bytes / size)))
  /\ 0 <= n * size <= bytes.
Proof.
  intros Hb Hsz bytes n.
  assert (Hbest : 0 <= bytes / size) by (apply Z.div_pos; lia).
  assert (Hmul : bytes / size * size <= bytes)
    by (rewrite Z.mul_comm; apply Z.mul_div_le; lia).
  destruct (loops_for_cases bytes (bytes / size) chunk_shifts Hb)
    as [(pre & k & post & E & Hv & [Hd Hle] & Hpre) | [Hv Hall]].
  - intros k Hk. apply chunk_shifts_range in Hk. lia.
  - assert (Hk : 10 <= k <= 20).
    { apply chunk_shifts_range. rewrite E. apply elem_of_app. right. left. }
    assert (Hn : n = 2 ^ k) by exact Hv.
    split.
    + left. exists k. repeat split; try assumption; try lia.
      intros j Hj. apply Hpre. eapply chunk_shifts_before; eauto.
    + rewrite Hn. assert (0 < 2 ^ k) by (apply Z.pow_pos_nonneg; lia). nia.
  - assert (Hn : n = bytes / size) by exact Hv.
    split.
    + right. split; [exact Hn |]. intros j Hj. apply Hall.
      apply chunk_shifts_range. exact Hj.
    + rewrite Hn. nia.
Qed.

Lemma stress_memrate_loops_granularity_witness :
  let n := stress_memrate_loops (context_of_bytes (8 * MB)) 16 in
  n = 2 ^ 19 /\ 0 <= n * 16 <= 8 * MB.
Proof.
  intros n.
  destruct (stress_memrate_loops_granularity (context_of_bytes (8 * MB)) 16)
    as [_ Hle]; [vm_compute; split; [discriminate | reflexivity] | lia |].
  split; [reflexivity | exact Hle].
Defined.

(** C3 (counterexample): on an 8 MiB buffer swept in 16-byte steps the
    largest power of two between 1 KiB and 1 MiB that divides the buffer
    is 1 MiB, yet the function returns 2^19, which is neither that value
    as a count nor, multiplied by the step, that value in bytes; and on a
    4 KiB buffer the fall-back [bytes / size] is returned although 1 KiB,
    2 KiB and 4 KiB all divide the buffer. *)
Lemma stress_memrate_loops_not_largest_divisor :
  spec_pass_granularity (8 * MB) 16 = 1048576 /\
  stress_memrate_loops (context_of_bytes (8 * MB)) 16 = 524288 /\
  stress_memrate_loops (context_of_bytes (8 * MB)) 16 * 16 = 8388608 /\
  stress_memrate_loops (context_of_bytes (8 * MB)) 16
    <> spec_pass_granularity (8 * MB) 16 /\
  stress_memrate_loops (context_of_bytes (8 * MB)) 16 * 16
    <> spec_pass_granularity (8 * MB) 16 /\
  (4 * KB) mod 2 ^ 12 = 0 /\
  stress_memrate_loops (context_of_bytes (4 * KB)) 16 = 4 * KB / 16 /\
  stress_memrate_loops (context_of_bytes (4 * KB)) 16
    <> spec_pass_granularity (4 * KB) 16.
Proof.
  vm_compute. repeat split; discriminate.
Qed.

(* ------------------------------------------------------------------ *)
(** ** The catalogue and the dispatch rule *)
(* ------------------------------------------------------------------ *)

Section Catalogue.

Lemma Forall_ifdef {A : Type} (P : A -> Prop) (c : bool) (l : list A) :
  Forall P l -> Forall P (ifdef c l).
Proof. destruct c; cbn; [auto | constructor]. Qed.

(** Every entry of every build is a read or a write strategy. *)
Lemma memrate_info_direction (b : build_config) :
  Forall (fun info => rdwr info = MR_RD \/ rdwr info = MR_WR) (memrate_info b).
Proof.
  unfold memrate_info.
  repeat first
    [ apply Forall_app; split
    | apply Forall_ifdef
    | apply Forall_cons; split; [cbn; auto |]
    | apply Forall_nil_2 ].
Qed.

(** The rule for any record, whatever its two entry points are. *)
Lemma dispatch_cases (info : stress_memrate_info_t)
    (c : stress_memrate_context_t) :
  rdwr info = MR_RD \/ rdwr info = MR_WR ->
  let target := if rdwr info =? MR_RD then memrate_rd_mbs c
                else memrate_wr_mbs c in
  (target = UNLIMITED -> stress_memrate_dispatch info c = func info c) /\
  (target <> UNLIMITED -> stress_memrate_dispatch info c = func_rate info c).
Proof.
  intros Hd target. subst target. unfold stress_memrate_dispatch.
  destruct Hd as [E | E]; rewrite E.
  - change (MR_RD =? MR_RD) with true. change (MR_RD =? MR_WR) with false.
    cbn [andb orb]. rewrite orb_false_r.
    split; intros H;
      [rewrite H, Z.eqb_refl | apply Z.eqb_neq in H; rewrite H]; reflexivity.
  - change (MR_WR =? MR_RD) with false. change (MR_WR =? MR_WR) with true.
    cbn [andb orb].
    split; intros H;
      [rewrite H, Z.eqb_refl | apply Z.eqb_neq in H; rewrite H]; reflexivity.
Qed.

End Catalogue.

(** C5: for every entry of the catalogue of every build and every
    context, the dispatcher runs the unthrottled entry point when the
    target rate of the entry's direction (the read target for a read
    strategy, the write target for a write strategy) is the all-ones
    64-bit value, and the rate-limited entry point otherwise. *)
Theorem stress_memrate_dispatch_rule
    (b : build_config) (info : stress_memrate_info_t)
    (c : stress_memrate_context_t) :
  info ∈ memrate_info b ->
  UNLIMITED = 2 ^ 64 - 1 /\
  (rdwr info = MR_RD \/ rdwr info = MR_WR) /\
  let target := if rdwr info =? MR_RD then memrate_rd_mbs c
                else memrate_wr_mbs c in
  (target = UNLIMITED -> stress_memrate_dispatch info c = func info c) /\
  (target <> UNLIMITED -> stress_memrate_dispatch info c = func_rate info c).
Proof.
  intros Hin.
  pose proof (memrate_info_direction b) as Hdir.
  rewrite Forall_forall in Hdir. specialize (Hdir _ Hin).
  split; [reflexivity |]. split; [exact Hdir |].
  apply dispatch_cases. exact Hdir.
Qed.

Lemma stress_memrate_dispatch_rule_witness :
  let info := mk_info "memset" MR_WR stress_memrate_memset stress_memrate_memset_rate in
  let c := context_at 4096 4096 UNLIMITED 100 in
  info ∈ memrate_info x86_64_build /\
  stress_memrate_dispatch info c = stress_memrate_memset_rate c.
Proof.
  intros info c.
  assert (Hin : info ∈ memrate_info x86_64_build).
  { cbn. do 15 right. left. }
  split; [exact Hin |].
  destruct (stress_memrate_dispatch_rule x86_64_build info c Hin)
    as (_ & _ & _ & Hrate).
  apply Hrate. cbn. discriminate.
Defined.

(* ------------------------------------------------------------------ *)
(** ** The defaults of a run *)
(* ------------------------------------------------------------------ *)

(** C10: when neither rate option is supplied, both targets are the
    all-ones 64-bit value; without a size and a flush option the buffer is
    256 MB and flushing is off; and the dispatcher then runs the
    unthrottled entry point of every entry of the catalogue, wherever the
    buffer is mapped. *)
Theorem stress_memrate_default_run
    (b : build_config) (opts : gmap string setting) :
  opts !! "memrate-rd-mbs" = None ->
  opts !! "memrate-wr-mbs" = None ->
  let c := stress_memrate_context b opts in
  memrate_rd_mbs c = 2 ^ 64 - 1 /\
  memrate_wr_mbs c = 2 ^ 64 - 1 /\
  (opts !! "memrate-bytes" = None -> memrate_bytes c = 256 * MB) /\
  (opts !! "memrate-flush" = None -> memrate_flush c = false) /\
  forall info buffer,
    info ∈ memrate_info b ->
    stress_memrate_dispatch info (set_buffer buffer c)
    = func info (set_buffer buffer c).
Proof.
  intros Hrd Hwr c.
  assert (Erd : memrate_rd_mbs c = UNLIMITED).
  { cbn. unfold stress_get_setting_uint64. rewrite Hrd. reflexivity. }
  assert (Ewr : memrate_wr_mbs c = UNLIMITED).
  { cbn. unfold stress_get_setting_uint64. rewrite Hwr. reflexivity. }
  split; [exact Erd |]. split; [exact Ewr |]. split; [| split].
  - intros Hb. cbn. unfold stress_get_setting_uint64. rewrite Hb. reflexivity.
  - intros Hf. cbn. unfold stress_get_setting_bool. rewrite Hf. reflexivity.
  - intros info buffer Hin.
    pose proof (memrate_info_direction b) as Hdir.
    rewrite Forall_forall in Hdir. specialize (Hdir _ Hin).
    destruct (dispatch_cases info (set_buffer buffer c) Hdir) as [Hfull _].
    apply Hfull.
    change (memrate_rd_mbs (set_buffer buffer c)) with (memrate_rd_mbs c).
    change (memrate_wr_mbs (set_buffer buffer c)) with (memrate_wr_mbs c).
    rewrite Erd, Ewr. destruct (rdwr info =? MR_RD); reflexivity.
Qed.

Lemma stress_memrate_default_run_witness :
  let c := stress_memrate_context x86_64_build ∅ in
  let info := mk_info "read8" MR_RD stress_memrate_read8 stress_memrate_read_rate8 in
  memrate_rd_mbs c = 2 ^ 64 - 1 /\
  memrate_wr_mbs c = 2 ^ 64 - 1 /\
  memrate_bytes c = 256 * MB /\
  memrate_flush c = false /\
  stress_memrate_dispatch info (set_buffer 4096 c)
  = stress_memrate_read8 (set_buffer 4096 c).
Proof.
  intros c info.
  destruct (stress_memrate_default_run x86_64_build ∅)
    as (Hrd & Hwr & Hb & Hf & Hall); [reflexivity | reflexivity |].
  split; [exact Hrd |]. split; [exact Hwr |].
  split; [apply Hb; reflexivity |]. split; [apply Hf; reflexivity |].
  apply (Hall info 4096). cbn. do 25 right. left.
Defined.

(* ------------------------------------------------------------------ *)
(** ** Non-temporal stores without SSE2 *)
(* ------------------------------------------------------------------ *)

(** C6: when [stress_cpu_x86_has_sse2()] answers no, both entry points of
    a non-temporal write strategy return zero kilobytes with [valid]
    false and leave the world as it was: no store of any kind reaches the
    buffer, the clock is not read and nothing sleeps.  The driver records
    the outcome in the slot and goes on to the place it goes to after
    any other dispatch. *)
Theorem stress_memrate_write_nt_unsupported
    (W : Z) (c : stress_memrate_context_t) (w : world) :
  sse2 w = false ->
  stress_memrate_write_nt W c w = Some ((0, false), w) /\
  stress_memrate_write_nt_rate W c w = Some ((0, false), w) /\
  forall b info i t1 keep h j m n,
    memrate_info b !! i = Some info ->
    func info = stress_memrate_write_nt W ->
    func_rate info = stress_memrate_write_nt_rate W ->
    exists t2 w',
      child_step b (EvReturn keep) (mk_child (PcDispatch i t1) c w h j m n)
      = Some (mk_child (if keep then PcFor (S i) else PcIncCounter)
                (set_stats (stats_update i t1 t2 0 false (stats c)) c)
                w' h j m n) /\
      touched w' = touched w /\ naps w' = naps w.
Proof.
  intros Hs.
  assert (E1 : stress_memrate_write_nt W c w = Some ((0, false), w)).
  { unfold stress_memrate_write_nt, bind, stress_cpu_x86_has_sse2.
    rewrite Hs. reflexivity. }
  assert (E2 : stress_memrate_write_nt_rate W c w = Some ((0, false), w)).
  { unfold stress_memrate_write_nt_rate, bind, stress_cpu_x86_has_sse2.
    rewrite Hs. reflexivity. }
  split; [exact E1 |]. split; [exact E2 |].
  intros b info i t1 keep h j m n Hi Hf Hr.
  assert (Ed : stress_memrate_dispatch info c w = Some ((0, false), w)).
  { unfold stress_memrate_dispatch.
    destruct (_ || _); [rewrite Hf | rewrite Hr]; assumption. }
  exists (clock w (ticks w)).
  exists (mk_world (clock w) (S (ticks w)) (naps w) (touched w) (sse2 w)).
  split; [| split; reflexivity].
  unfold child_step. cbn [pc context wld]. rewrite Hi.
  unfold bind at 1. rewrite Ed. reflexivity.
Qed.

Lemma stress_memrate_write_nt_unsupported_witness :
  let c := context_at 4096 4096 UNLIMITED UNLIMITED in
  let w := frozen_world 0 false in
  stress_memrate_write_nt128 c w = Some ((0, false), w) /\
  stress_memrate_write_nt_rate128 c w = Some ((0, false), w) /\
  exists t2 w',
    child_step x86_64_build (EvReturn true)
               (mk_child (PcDispatch 4 0) c w true true 0 0)
    = Some (mk_child (PcFor 5) (set_stats (stats_update 4 0 t2 0 false (stats c)) c)
                     w' true true 0%nat 0%nat).
Proof.
  intros c w.
  destruct (stress_memrate_write_nt_unsupported 16 c w) as (E1 & E2 & Hstep);
    [reflexivity |].
  split; [exact E1 |]. split; [exact E2 |].
  destruct (Hstep x86_64_build
              (mk_info "write128nt" MR_WR stress_memrate_write_nt128
                       stress_memrate_write_nt_rate128)
              4%nat 0%Q true true true 0%nat 0%nat)
    as (t2 & w' & E & _); [reflexivity | reflexivity | reflexivity |].
  exists t2, w'. exact E.
Defined.

(* ------------------------------------------------------------------ *)
(** ** The reporting loop *)
(* ------------------------------------------------------------------ *)

Section Report.

Lemma Qlt_bool_iff (a b : Q) : Qlt_bool a b = true <-> (a < b)%Q.
Proof.
  unfold Qlt_bool. rewrite negb_true_iff.
  destruct (Qle_bool b a) eqn:E.
  - apply Qle_bool_iff in E. split; [discriminate | intros H; lra].
  - split; [intros _ | reflexivity].
    apply Qnot_le_lt. intros H. apply Qle_bool_iff in H. congruence.
Qed.

Lemma elem_of_report_for (r : report) (infos : list stress_memrate_info_t)
    (table : list stress_memrate_stats_t) (k : nat) :
  r ∈ report_for k infos table <->
  exists i info s, infos !! i = Some info /\ table !! i = Some s /\
                   r ∈ report_slot (k + i) info s.
Proof.
  revert table k. induction infos as [| info infos IH]; intros table k.
  - cbn. split; [intros H; inversion H | intros (i & ? & ? & H & _); inversion H].
  - destruct table as [| s table].
    + cbn. split; [intros H; inversion H |].
      intros (i & ? & ? & _ & H & _). inversion H.
    + cbn [report_for]. rewrite elem_of_app, IH. split.
      * intros [H | (i & info' & s' & Hi & Hs & H)].
        -- exists 0%nat, info, s. rewrite Nat.add_0_r. auto.
        -- exists (S i), info', s'. rewrite Nat.add_succ_r. auto.
      * intros (i & info' & s' & Hi & Hs & H). destruct i as [| i].
        -- cbn in Hi, Hs. inversion Hi; inversion Hs; subst.
           rewrite Nat.add_0_r in H. left. exact H.
        -- right. exists i, info', s'. rewrite Nat.add_succ_r in H. auto.
Qed.

End Report.

(** C7 (as amended): for a slot that is valid and whose duration is
    strictly positive the reporter emits the rate
    [kbytes / (duration * 1024)]; for a slot that is valid and whose
    duration is not strictly positive it reports "interrupted early"; for
    a slot that is not valid it emits nothing at all.  The report of the
    table is made of what the slots emit, and of nothing else. *)
Theorem stress_memrate_report_cases
    (b : build_config) (c : stress_memrate_context_t) :
  (forall i info s,
      (valid s = true /\ (0 < duration s)%Q ->
       report_slot i info s
       = [Metric i (name info ++ " MB per sec")
                 (kbytes s / (duration s * inject_Z 1024))%Q]) /\
      (valid s = true /\ ~ (0 < duration s)%Q ->
       report_slot i info s = [InterruptedEarly (name info)]) /\
      (valid s = false -> report_slot i info s = [])) /\
  (forall r,
      r ∈ stress_memrate_report b c <->
      exists i info s, memrate_info b !! i = Some info /\
                       stats c !! i = Some s /\ r ∈ report_slot i info s).
Proof.
  split.
  - intros i info s. unfold report_slot. repeat split.
    + intros [Hv Hd]. rewrite Hv. cbn [negb].
      apply Qlt_bool_iff in Hd. rewrite Hd. reflexivity.
    + intros [Hv Hd]. rewrite Hv. cbn [negb].
      destruct (Qlt_bool 0 (duration s)) eqn:E; [| reflexivity].
      apply Qlt_bool_iff in E. contradiction.
    + intros Hv. rewrite Hv. reflexivity.
  - intros r. unfold stress_memrate_report. apply elem_of_report_for.
Qed.

(** C7 (counterexample): a table in which no slot is valid and every
    duration is zero, the table as it is before the first dispatch,
    yields an empty report; no slot is reported as interrupted early. *)
Lemma stress_memrate_report_skips_invalid :
  let c := stress_memrate_context x86_64_build ∅ in
  Forall (fun s => valid s = false /\ (duration s == 0)%Q) (stats c) /\
  length (stats c) = 26%nat /\
  stress_memrate_report x86_64_build c = [].
Proof.
  cbn. split; [| split; reflexivity].
  repeat constructor.
Qed.

(* ------------------------------------------------------------------ *)
(** ** What a strategy does to the world *)
(* ------------------------------------------------------------------ *)

Section Frame.

Lemma bind_Some {A B : Type} (m : M A) (k : A -> M B) (w w' : world) (r : B) :
  bind m k w = Some (r, w') <->
  exists a w1, m w = Some (a, w1) /\ k a w1 = Some (r, w').
Proof.
  unfold bind. destruct (m w) as [[a w1] |].
  - split; [intros H; exists a, w1; auto |].
    intros (a' & w1' & E & H). inversion E; subst. exact H.
  - split; [discriminate | intros (? & ? & E & _); discriminate].
Qed.

Lemma quiet_refl (w : world) : quiet w w.
Proof. repeat split. Qed.

Lemma quiet_trans (w1 w2 w3 : world) : quiet w1 w2 -> quiet w2 w3 -> quiet w1 w3.
Proof. unfold quiet. intros (-> & -> & -> & ->) (-> & -> & -> & ->). auto. Qed.

Lemma touch_quiet (l : list access) (w w' : world) (u : unit) :
  touch l w = Some (u, w') -> quiet w w'.
Proof. intros H. inversion H; subst. repeat split. Qed.

Lemma sweep_quiet (fuel : nat) (body : Z -> list access) (W ptr e p : Z)
    (w w' : world) :
  0 <= W -> sweep fuel body W ptr e w = Some (p, w') -> ptr <= p /\ quiet w w'.
Proof.
  intros HW. revert ptr w. induction fuel as [| fuel IH]; intros ptr w H.
  - discriminate.
  - cbn [sweep] in H. destruct (ptr <? e).
    + apply bind_Some in H as (u & w1 & Ht & H).
      apply touch_quiet in Ht. apply IH in H as [Hp Hq].
      split; [lia | eapply quiet_trans; eauto].
    + inversion H; subst. split; [lia | apply quiet_refl].
Qed.

Lemma stos_chunks_quiet (fuel : nat) (chunk loops wr ptr e p : Z) (w w' : world) :
  0 <= chunk ->
  stos_chunks fuel chunk loops wr ptr e w = Some (p, w') ->
  ptr <= p /\ (p = ptr \/ p < e) /\ quiet w w'.
Proof.
  intros Hc. revert ptr w. induction fuel as [| fuel IH]; intros ptr w H.
  - discriminate.
  - cbn [stos_chunks] in H. destruct (Z.ltb_spec (ptr + chunk) e).
    + apply bind_Some in H as (u & w1 & Ht & H).
      apply touch_quiet in Ht. apply IH in H as (Hp & Hpe & Hq).
      split; [lia |]. split; [right; lia | eapply quiet_trans; eauto].
    + inversion H; subst. split; [lia |]. split; [left; reflexivity | apply quiet_refl].
Qed.

Lemma flush_for_quiet (fuel : nat) (a e : Z) (w w' : world) (u : unit) :
  flush_for fuel a e w = Some (u, w') -> quiet w w'.
Proof.
  revert a w. induction fuel as [| fuel IH]; intros a w H.
  - discriminate.
  - cbn [flush_for] in H. destruct (a <? e).
    + apply bind_Some in H as (u' & w1 & Ht & H).
      apply touch_quiet in Ht. apply IH in H. eapply quiet_trans; eauto.
    + inversion H; subst. apply quiet_refl.
Qed.

Lemma paced_refl (t1 dur total : Q) (w : world) : paced t1 dur total w total w.
Proof.
  repeat split. exists 0%nat. cbn. rewrite Nat.add_0_r, app_nil_r. auto.
Qed.

Lemma budget_naps_app (t1 total dur : Q) (l1 l2 : list Q) :
  budget_naps t1 total dur (l1 ++ l2)
  = budget_naps t1 total dur l1
    ++ budget_naps t1 (budget_after total dur (length l1)) dur l2.
Proof.
  revert total. induction l1 as [| t l1 IH]; intros total; cbn; [reflexivity |].
  rewrite IH, app_assoc. reflexivity.
Qed.

Lemma budget_after_add (total dur : Q) (n m : nat) :
  budget_after total dur (n + m) = budget_after (budget_after total dur n) dur m.
Proof.
  revert total. induction n as [| n IH]; intros total; cbn; [reflexivity |].
  apply IH.
Qed.

Lemma paced_trans (t1 dur total1 total2 total3 : Q) (w1 w2 w3 : world) :
  paced t1 dur total1 w1 total2 w2 -> paced t1 dur total2 w2 total3 w3 ->
  paced t1 dur total1 w1 total3 w3.
Proof.
  intros (Hc1 & Hs1 & n & Ht1 & Hb1 & Hn1) (Hc2 & Hs2 & m & Ht2 & Hb2 & Hn2).
  split; [congruence |]. split; [congruence |].
  exists (n + m)%nat. split; [lia |]. split.
  - rewrite budget_after_add. congruence.
  - rewrite Hn2, Hn1, Hc1, Ht1, seq_app, map_app, budget_naps_app.
    rewrite length_map, length_seq, <- Hb1, app_assoc. reflexivity.
Qed.

Lemma quiet_paced (t1 dur total : Q) (w w' : world) :
  quiet w w' -> paced t1 dur total w total w'.
Proof.
  intros (Hc & Ht & Hn & Hs). split; [exact Hc |]. split; [exact Hs |].
  exists 0%nat. cbn. rewrite Nat.add_0_r, app_nil_r. auto.
Qed.

Lemma throttle_paced (t1 total dur total' : Q) (w w' : world) :
  throttle t1 total dur w = Some (total', w') ->
  paced t1 dur total w total' w'.
Proof.
  unfold throttle, bind, stress_time_now, nap_for. cbn [clock ticks naps touched sse2].
  intros H. split; [| split].
  - destruct (Qle_bool _ _); inversion H; reflexivity.
  - destruct (Qle_bool _ _); inversion H; reflexivity.
  - exists 1%nat. cbn [seq List.map budget_naps budget_after nap_for].
    unfold nap_for. rewrite app_nil_r.
    destruct (Qle_bool _ _); inversion H; cbn [ticks naps];
      rewrite ?app_nil_r; repeat split; lia.
Qed.

Lemma paced_sweep_paced (fuel inner : nat) (body : Z -> list access)
    (W le : Z) (t1 total dur : Q) (ptr e p : Z) (w w' : world) :
  0 <= W ->
  paced_sweep fuel inner body W le t1 total dur ptr e w = Some (p, w') ->
  ptr <= p /\ exists total', paced t1 dur total w total' w'.
Proof.
  intros HW. revert ptr total w. induction fuel as [| fuel IH]; intros ptr total w H.
  - discriminate.
  - cbn [paced_sweep] in H. destruct (ptr <? e).
    + apply bind_Some in H as (p1 & w1 & Hs & H).
      apply bind_Some in H as (total1 & w2 & Ht & H).
      apply sweep_quiet in Hs as [Hp1 Hq]; [| exact HW].
      apply throttle_paced in Ht.
      apply IH in H as [Hp (total' & Hpaced)].
      split; [lia |]. exists total'.
      eapply paced_trans; [| exact Hpaced].
      eapply paced_trans; [apply quiet_paced; exact Hq | exact Ht].
    + inversion H; subst. split; [lia |]. exists total. apply paced_refl.
Qed.

Lemma paced_chunks_paced (fuel : nat) (chunk : Z) (t1 total dur total' : Q)
    (ptr e p : Z) (w w' : world) :
  0 <= chunk ->
  paced_chunks fuel chunk t1 total dur ptr e w = Some ((p, total'), w') ->
  ptr <= p /\ (p = ptr \/ p < e) /\ paced t1 dur total w total' w'.
Proof.
  intros Hc. revert ptr total w. induction fuel as [| fuel IH]; intros ptr total w H.
  - discriminate.
  - cbn [paced_chunks] in H. destruct (Z.ltb_spec (ptr + chunk) e).
    + apply bind_Some in H as (u & w1 & Hs & H).
      apply bind_Some in H as (total1 & w2 & Ht & H).
      apply touch_quiet in Hs. apply throttle_paced in Ht.
      apply IH in H as (Hp & Hpe & Hpaced).
      split; [lia |]. split; [right; lia |].
      eapply paced_trans; [| exact Hpaced].
      eapply paced_trans; [apply quiet_paced; exact Hs | exact Ht].
    + inversion H; subst. split; [lia |].
      split; [left; reflexivity | apply paced_refl].
Qed.

Lemma paced_stos_chunks_paced (fuel : nat) (chunk loops wr : Z)
    (t1 total dur total' : Q) (ptr e p : Z) (w w' : world) :
  0 <= chunk ->
  paced_stos_chunks fuel chunk loops wr t1 total dur ptr e w
  = Some ((p, total'), w') ->
  ptr <= p /\ (p = ptr \/ p < e) /\ paced t1 dur total w total' w'.
Proof.
  intros Hc. revert ptr total w. induction fuel as [| fuel IH]; intros ptr total w H.
  - discriminate.
  - cbn [paced_stos_chunks] in H. destruct (Z.ltb_spec (ptr + chunk) e).
    + apply bind_Some in H as (u & w1 & Hs & H).
      apply bind_Some in H as (total1 & w2 & Ht & H).
      apply touch_quiet in Hs. apply throttle_paced in Ht.
      apply IH in H as (Hp & Hpe & Hpaced).
      split; [lia |]. split; [right; lia |].
      eapply paced_trans; [| exact Hpaced].
      eapply paced_trans; [apply quiet_paced; exact Hs | exact Ht].
    + inversion H; subst. split; [lia |].
      split; [left; reflexivity | apply paced_refl].
Qed.

Lemma pass_paced_intro (dur total' : Q) (w w1 w' : world) (t1 : Q) :
  stress_time_now w = Some (t1, w1) ->
  paced t1 dur 0 w1 total' w' -> pass_paced dur w w'.
Proof.
  intros Hn (Hc & Hs & n & Ht & _ & Hnaps).
  inversion Hn; subst; clear Hn. cbn [clock ticks naps sse2] in *.
  split; [exact Hc |]. split; [exact Hs |]. exists n. auto.
Qed.

Lemma paced_quiet_r (t1 dur total total' : Q) (w w1 w' : world) :
  paced t1 dur total w total' w1 -> quiet w1 w' -> paced t1 dur total w total' w'.
Proof.
  intros Hp Hq. eapply paced_trans; [exact Hp | apply quiet_paced; exact Hq].
Qed.

Lemma world_le_refl (w : world) : world_le w w.
Proof. repeat split. lia. Qed.

Lemma world_le_trans (w1 w2 w3 : world) :
  world_le w1 w2 -> world_le w2 w3 -> world_le w1 w3.
Proof.
  intros (Hc1 & Hs1 & Ht1) (Hc2 & Hs2 & Ht2).
  split; [congruence |]. split; [congruence | lia].
Qed.

Lemma quiet_world_le (w w' : world) : quiet w w' -> world_le w w'.
Proof. intros (Hc & Ht & _ & Hs). split; [auto |]. split; [auto | lia]. Qed.

Lemma pass_paced_world_le (dur : Q) (w w' : world) :
  pass_paced dur w w' -> world_le w w'.
Proof.
  intros (Hc & Hs & n & Ht & _). split; [auto |]. split; [auto | lia].
Qed.

Lemma stress_time_now_world_le (w w' : world) (t : Q) :
  stress_time_now w = Some (t, w') -> world_le w w' /\ t = clock w (ticks w).
Proof.
  intros H. inversion H; subst. repeat split. cbn. lia.
Qed.

End Frame.

(* ------------------------------------------------------------------ *)
(** ** What each strategy returns and leaves behind *)
(* ------------------------------------------------------------------ *)

Section Strategies.

Lemma kb_nonneg (ptr a : Z) : a <= ptr -> 0 <= (ptr - a) / KB.
Proof. intros H. apply Z.div_pos; [lia | reflexivity]. Qed.

Lemma fill_chunk_nonneg (c : stress_memrate_context_t) :
  start c <= end_ c -> 0 <= fill_chunk_bytes c.
Proof.
  unfold fill_chunk_bytes, MB. intros H.
  destruct (Z.gtb_spec (end_ c - start c) 1048576); lia.
Qed.

Lemma stress_memrate_read_quiet W pf c w kb v w' :
  0 <= W -> stress_memrate_read W pf c w = Some ((kb, v), w') ->
  v = true /\ 0 <= kb /\ quiet w w'.
Proof.
  intros HW H. unfold stress_memrate_read in H.
  apply bind_Some in H as (p & w1 & Hs & H). inversion H; subst.
  apply sweep_quiet in Hs as [Hp Hq]; [| exact HW].
  split; [reflexivity |]. split; [apply kb_nonneg; exact Hp | exact Hq].
Qed.

Lemma stress_memrate_write_quiet W c w kb v w' :
  0 <= W -> stress_memrate_write W c w = Some ((kb, v), w') ->
  v = true /\ 0 <= kb /\ quiet w w'.
Proof.
  intros HW H. unfold stress_memrate_write in H.
  apply bind_Some in H as (p & w1 & Hs & H). inversion H; subst.
  apply sweep_quiet in Hs as [Hp Hq]; [| exact HW].
  split; [reflexivity |]. split; [apply kb_nonneg; exact Hp | exact Hq].
Qed.

Lemma stress_memrate_write_nt_quiet W c w kb v w' :
  0 <= W -> stress_memrate_write_nt W c w = Some ((kb, v), w') ->
  v = sse2 w /\ 0 <= kb /\ quiet w w'.
Proof.
  intros HW H. unfold stress_memrate_write_nt in H.
  apply bind_Some in H as (has & w1 & Hh & H).
  inversion Hh; subst; clear Hh. destruct (sse2 w1) eqn:E; cbn [negb] in H.
  - apply bind_Some in H as (p & w2 & Hs & H). inversion H; subst.
    apply sweep_quiet in Hs as [Hp Hq]; [| exact HW].
    split; [reflexivity |]. split; [apply kb_nonneg; exact Hp | exact Hq].
  - inversion H; subst. split; [reflexivity |]. split; [lia | apply quiet_refl].
Qed.

Lemma stress_memrate_memset_quiet c w kb v w' :
  0 <= memrate_bytes c -> stress_memrate_memset c w = Some ((kb, v), w') ->
  v = true /\ 0 <= kb /\ quiet w w'.
Proof.
  intros Hb H. unfold stress_memrate_memset in H.
  apply bind_Some in H as (u & w1 & Ht & H). inversion H; subst.
  apply touch_quiet in Ht.
  split; [reflexivity |]. split; [apply Z.div_pos; [lia | reflexivity] | exact Ht].
Qed.

Lemma stress_memrate_stos_quiet wr c w kb v w' :
  start c <= end_ c -> stress_memrate_stos wr c w = Some ((kb, v), w') ->
  v = true /\ 0 <= kb /\ quiet w w'.
Proof.
  intros Hse H. unfold stress_memrate_stos in H.
  apply bind_Some in H as (p & w1 & Hs & H).
  apply stos_chunks_quiet in Hs as (Hp & _ & Hq);
    [| apply (fill_chunk_nonneg c Hse)].
  destruct (negb _).
  - apply bind_Some in H as (u & w2 & Ht & H). inversion H; subst.
    apply touch_quiet in Ht. split; [reflexivity |].
    split; [apply kb_nonneg; exact Hse | eapply quiet_trans; eauto].
  - inversion H; subst.
    split; [reflexivity |]. split; [apply kb_nonneg; exact Hp | exact Hq].
Qed.

Lemma stress_memrate_read_rate_paced W pf c w kb v w' :
  0 <= W -> stress_memrate_read_rate W pf c w = Some ((kb, v), w') ->
  v = true /\ 0 <= kb /\
  pass_paced (chunk_duration (sweep_chunk_bytes W c) (memrate_rd_mbs c)) w w'.
Proof.
  intros HW H. unfold stress_memrate_read_rate in H.
  apply bind_Some in H as (t1 & w1 & Hn & H).
  apply bind_Some in H as (p & w2 & Hs & H). inversion H; subst.
  apply paced_sweep_paced in Hs as [Hp (total' & Hpaced)]; [| exact HW].
  split; [reflexivity |]. split; [apply kb_nonneg; exact Hp |].
  eapply pass_paced_intro; eauto.
Qed.

Lemma stress_memrate_write_rate_paced W c w kb v w' :
  0 <= W -> stress_memrate_write_rate W c w = Some ((kb, v), w') ->
  v = true /\ 0 <= kb /\
  pass_paced (chunk_duration (sweep_chunk_bytes W c) (memrate_wr_mbs c)) w w'.
Proof.
  intros HW H. unfold stress_memrate_write_rate in H.
  apply bind_Some in H as (t1 & w1 & Hn & H).
  apply bind_Some in H as (p & w2 & Hs & H). inversion H; subst.
  apply paced_sweep_paced in Hs as [Hp (total' & Hpaced)]; [| exact HW].
  split; [reflexivity |]. split; [apply kb_nonneg; exact Hp |].
  eapply pass_paced_intro; eauto.
Qed.

Lemma stress_memrate_write_nt_rate_paced W c w kb v w' :
  0 <= W -> stress_memrate_write_nt_rate W c w = Some ((kb, v), w') ->
  v = sse2 w /\ 0 <= kb /\
  if sse2 w
  then pass_paced (chunk_duration (sweep_chunk_bytes W c) (memrate_wr_mbs c)) w w'
  else w' = w.
Proof.
  intros HW H. unfold stress_memrate_write_nt_rate in H.
  apply bind_Some in H as (has & w0 & Hh & H).
  inversion Hh; subst; clear Hh. destruct (sse2 w0) eqn:E; cbn [negb] in H.
  - apply bind_Some in H as (t1 & w1 & Hn & H).
    apply bind_Some in H as (p & w2 & Hs & H). inversion H; subst.
    apply paced_sweep_paced in Hs as [Hp (total' & Hpaced)]; [| exact HW].
    split; [reflexivity |]. split; [apply kb_nonneg; exact Hp |].
    eapply pass_paced_intro; eauto.
  - inversion H; subst. split; [reflexivity |]. split; [lia | reflexivity].
Qed.

Lemma stress_memrate_memset_rate_paced c w kb v w' :
  start c <= end_ c -> stress_memrate_memset_rate c w = Some ((kb, v), w') ->
  v = true /\ 0 <= kb /\
  pass_paced (chunk_duration (fill_chunk_bytes c) (memrate_wr_mbs c)) w w'.
Proof.
  intros Hse H. unfold stress_memrate_memset_rate in H.
  apply bind_Some in H as (t1 & w1 & Hn & H).
  apply bind_Some in H as ([p total1] & w2 & Hs & H). cbn [fst snd] in H.
  apply paced_chunks_paced in Hs as (Hp & _ & Hpaced);
    [| apply (fill_chunk_nonneg c Hse)].
  destruct (_ >? 0).
  - apply bind_Some in H as (u & w3 & Ht & H).
    apply bind_Some in H as (total2 & w4 & Hth & H). inversion H; subst.
    apply touch_quiet in Ht. apply throttle_paced in Hth.
    split; [reflexivity |]. split; [apply kb_nonneg; exact Hse |].
    eapply pass_paced_intro; [exact Hn |].
    eapply paced_trans; [| exact Hth].
    eapply paced_quiet_r; eauto.
  - inversion H; subst.
    split; [reflexivity |]. split; [apply kb_nonneg; exact Hp |].
    eapply pass_paced_intro; eauto.
Qed.

Lemma stress_memrate_stos_rate_paced wr c w kb v w' :
  start c <= end_ c -> stress_memrate_stos_rate wr c w = Some ((kb, v), w') ->
  v = true /\ 0 <= kb /\
  pass_paced (chunk_duration (fill_chunk_bytes c) (memrate_wr_mbs c)) w w'.
Proof.
  intros Hse H. unfold stress_memrate_stos_rate in H.
  apply bind_Some in H as (t1 & w1 & Hn & H).
  apply bind_Some in H as ([p total1] & w2 & Hs & H). cbn [fst snd] in H.
  apply paced_stos_chunks_paced in Hs as (Hp & _ & Hpaced);
    [| apply (fill_chunk_nonneg c Hse)].
  destruct (negb _).
  - apply bind_Some in H as (u & w3 & Ht & H).
    apply bind_Some in H as (total2 & w4 & Hth & H). inversion H; subst.
    apply touch_quiet in Ht. apply throttle_paced in Hth.
    split; [reflexivity |]. split; [apply kb_nonneg; exact Hse |].
    eapply pass_paced_intro; [exact Hn |].
    eapply paced_trans; [| exact Hth].
    eapply paced_quiet_r; eauto.
  - inversion H; subst.
    split; [reflexivity |]. split; [apply kb_nonneg; exact Hp |].
    eapply pass_paced_intro; eauto.
Qed.

Lemma read_well_behaved W pf : 0 <= W -> well_behaved (stress_memrate_read W pf).
Proof.
  intros HW c w kb v w' _ _ H.
  apply stress_memrate_read_quiet in H as (_ & Hk & Hq); [| exact HW].
  split; [exact Hk | apply quiet_world_le; exact Hq].
Qed.

Lemma write_well_behaved W : 0 <= W -> well_behaved (stress_memrate_write W).
Proof.
  intros HW c w kb v w' _ _ H.
  apply stress_memrate_write_quiet in H as (_ & Hk & Hq); [| exact HW].
  split; [exact Hk | apply quiet_world_le; exact Hq].
Qed.

Lemma write_nt_well_behaved W : 0 <= W -> well_behaved (stress_memrate_write_nt W).
Proof.
  intros HW c w kb v w' _ _ H.
  apply stress_memrate_write_nt_quiet in H as (_ & Hk & Hq); [| exact HW].
  split; [exact Hk | apply quiet_world_le; exact Hq].
Qed.

Lemma memset_well_behaved : well_behaved stress_memrate_memset.
Proof.
  intros c w kb v w' _ Hb H.
  apply stress_memrate_memset_quiet in H as (_ & Hk & Hq); [| exact Hb].
  split; [exact Hk | apply quiet_world_le; exact Hq].
Qed.

Lemma stos_well_behaved wr : well_behaved (stress_memrate_stos wr).
Proof.
  intros c w kb v w' Hse _ H.
  apply stress_memrate_stos_quiet in H as (_ & Hk & Hq); [| exact Hse].
  split; [exact Hk | apply quiet_world_le; exact Hq].
Qed.

Lemma read_rate_well_behaved W pf :
  0 <= W -> well_behaved (stress_memrate_read_rate W pf).
Proof.
  intros HW c w kb v w' _ _ H.
  apply stress_memrate_read_rate_paced in H as (_ & Hk & Hq); [| exact HW].
  split; [exact Hk | eapply pass_paced_world_le; exact Hq].
Qed.

Lemma write_rate_well_behaved W :
  0 <= W -> well_behaved (stress_memrate_write_rate W).
Proof.
  intros HW c w kb v w' _ _ H.
  apply stress_memrate_write_rate_paced in H as (_ & Hk & Hq); [| exact HW].
  split; [exact Hk | eapply pass_paced_world_le; exact Hq].
Qed.

Lemma write_nt_rate_well_behaved W :
  0 <= W -> well_behaved (stress_memrate_write_nt_rate W).
Proof.
  intros HW c w kb v w' _ _ H.
  apply stress_memrate_write_nt_rate_paced in H as (_ & Hk & Hq); [| exact HW].
  split; [exact Hk |]. destruct (sse2 w).
  - eapply pass_paced_world_le; exact Hq.
  - subst. apply world_le_refl.
Qed.

Lemma memset_rate_well_behaved : well_behaved stress_memrate_memset_rate.
Proof.
  intros c w kb v w' Hse _ H.
  apply stress_memrate_memset_rate_paced in H as (_ & Hk & Hq); [| exact Hse].
  split; [exact Hk | eapply pass_paced_world_le; exact Hq].
Qed.

Lemma stos_rate_well_behaved wr : well_behaved (stress_memrate_stos_rate wr).
Proof.
  intros c w kb v w' Hse _ H.
  apply stress_memrate_stos_rate_paced in H as (_ & Hk & Hq); [| exact Hse].
  split; [exact Hk | eapply pass_paced_world_le; exact Hq].
Qed.

Ltac strategy_well_behaved :=
  lazymatch goal with
  | |- well_behaved stress_memrate_memset => apply memset_well_behaved
  | |- well_behaved stress_memrate_memset_rate => apply memset_rate_well_behaved
  | |- well_behaved ?f =>
      let g := eval red in f in
      change (well_behaved g);
      lazymatch g with
      | stress_memrate_read _ _ => apply read_well_behaved; lia
      | stress_memrate_read_rate _ _ => apply read_rate_well_behaved; lia
      | stress_memrate_write _ => apply write_well_behaved; lia
      | stress_memrate_write_rate _ => apply write_rate_well_behaved; lia
      | stress_memrate_write_nt _ => apply write_nt_well_behaved; lia
      | stress_memrate_write_nt_rate _ => apply write_nt_rate_well_behaved; lia
      | stress_memrate_stos _ => apply stos_well_behaved
      | stress_memrate_stos_rate _ => apply stos_rate_well_behaved
      end
  end.

Lemma memrate_info_well_behaved (b : build_config) :
  Forall (fun info => well_behaved (func info) /\ well_behaved (func_rate info))
         (memrate_info b).
Proof.
  unfold memrate_info.
  repeat first
    [ apply Forall_app; split
    | apply Forall_ifdef
    | apply Forall_nil_2
    | apply Forall_cons; split;
      [ cbn [func func_rate]; split; strategy_well_behaved | ] ].
Qed.

Lemma dispatch_well_behaved (b : build_config) (info : stress_memrate_info_t)
    c w kb v w' :
  info ∈ memrate_info b ->
  start c <= end_ c -> 0 <= memrate_bytes c ->
  stress_memrate_dispatch info c w = Some ((kb, v), w') ->
  0 <= kb /\ world_le w w'.
Proof.
  intros Hin Hse Hb H.
  pose proof (memrate_info_well_behaved b) as Hwb.
  rewrite Forall_forall in Hwb. destruct (Hwb _ Hin) as [Hf Hr].
  unfold stress_memrate_dispatch in H.
  destruct (_ || _); [eapply Hf | eapply Hr]; eauto.
Qed.

End Strategies.

(* ------------------------------------------------------------------ *)
(** ** Invariants of the driver *)
(* ------------------------------------------------------------------ *)

Section Driver.

Variable b : build_config.

Lemma init_data_for_quiet (fuel : nat) (a e : Z) (w w' : world) :
  init_data_for fuel a e w = Some (tt, w') -> quiet w w'.
Proof.
  revert a w. induction fuel as [| fuel IH]; intros a w H; [discriminate |].
  cbn [init_data_for] in H. destruct (a <? e).
  - apply bind_Some in H as (u & w1 & Ht & H).
    eapply quiet_trans; [eapply touch_quiet; exact Ht | eapply IH; exact H].
  - inversion H; subst. apply quiet_refl.
Qed.

Lemma init_data_runs (a e : Z) (w : world) :
  exists w', stress_memrate_init_data a e w = Some (tt, w').
Proof.
  unfold stress_memrate_init_data.
  assert (H : forall fuel a w, (Z.to_nat (e - a) < fuel)%nat ->
                exists w', init_data_for fuel a e w = Some (tt, w')).
  { clear a w. induction fuel as [| fuel IH]; intros a w Hf; [lia |].
    cbn [init_data_for]. destruct (Z.ltb_spec a e).
    - unfold bind, touch. apply IH. lia.
    - eexists. reflexivity. }
  apply H. lia.
Qed.

(** The three assignments together are the update. *)
Lemma stats_update_steps (i : nat) (t1 t2 : Q) (kb : Z) (v : bool)
    (st : list stress_memrate_stats_t) :
  stats_valid i v (stats_duration i t1 t2 (stats_kbytes i kb st))
  = stats_update i t1 t2 kb v st.
Proof.
  unfold stats_valid, stats_duration, stats_kbytes, stats_update.
  rewrite !list_alter_alter_eq. reflexivity.
Qed.

(** What the statements up to the point where SIGALRM lands leave. *)
Lemma interrupted_update_cases (p : update_point) (i : nat) (t1 : Q) (kb : Z)
    (st st' : list stress_memrate_stats_t) (w w' : world) :
  interrupted_update p i t1 kb st w = Some (st', w') ->
  world_le w w' /\ naps w' = naps w /\ touched w' = touched w /\
  match p with
  | AfterDispatch => st' = st /\ w' = w
  | AfterKbytes => st' = stats_kbytes i kb st /\ w' = w
  | AfterClock => st' = stats_kbytes i kb st /\ ticks w' = S (ticks w)
  | AfterDuration =>
      st' = stats_duration i t1 (clock w (ticks w)) (stats_kbytes i kb st) /\
      ticks w' = S (ticks w)
  end.
Proof.
  intros H. destruct p; cbn in H; inversion H; subst; clear H;
    unfold world_le; cbn; repeat split; auto.
Qed.

(** An alarm in the update, spelled out. *)
Lemma alarm_in_update_cases (p : update_point) (s s' : child_state)
    (i : nat) (t1 : Q) :
  pc s = PcDispatch i t1 ->
  child_step b (EvAlarmInUpdate p) s = Some s' ->
  handler s = true /\
  exists info kb v w1 st w2,
    memrate_info b !! i = Some info /\
    stress_memrate_dispatch info (context s) (wld s) = Some ((kb, v), w1) /\
    interrupted_update p i t1 kb (stats (context s)) w1 = Some (st, w2) /\
    s' = mk_child PcTidy (set_stats st (context s)) w2 (handler s) (jmpbuf s)
                  (munmaps s) (counter s).
Proof.
  intros Epc H. unfold child_step in H. rewrite Epc in H.
  destruct (handler s); [| discriminate]. split; [reflexivity |].
  destruct (memrate_info b !! i) as [info |]; [| discriminate].
  destruct (bind _ _ (wld s)) as [[st w2] |] eqn:E; [| discriminate].
  apply bind_Some in E as ([kb v] & w1 & Hd & Hu).
  inversion H; subst; clear H.
  exists info, kb, v, w1, st, w2. repeat split; assumption.
Qed.

Lemma child_step_inv (clk : nat -> Q) (e : event) (s s' : child_state) :
  child_inv clk s -> child_step b e s = Some s' -> child_inv clk s'.
Proof.
  intros (Hclk & Hb & Hpc) H. unfold child_step in H.
  destruct e as [[buffer |] | [|] | | keep | keep | upd | in_flight];
    destruct (pc s) as [| | | i | i t1 | | | | rc] eqn:Epc;
    try discriminate;
    try (destruct (handler s) eqn:Eh; [| discriminate]);
    try (inversion H; subst; clear H;
         unfold child_inv, stress_memrate_alarm_handler, set_pc;
         cbn [pc context wld handler memrate_bytes set_buffer start end_];
         repeat split; solve [auto | tauto | destruct keep; tauto]).
  - (* PcMmap *)
    destruct (stress_memrate_init_data _ _ (wld s)) as [[[] w] |] eqn:E;
      [| discriminate].
    inversion H; subst; clear H.
    apply init_data_for_quiet in E as (Hc & _).
    unfold child_inv. cbn [pc context wld memrate_bytes set_buffer start end_].
    split; [congruence |]. split; [exact Hb | reflexivity].
  - (* PcFor *)
    destruct (i <? memrate_items b)%nat.
    + destruct Hpc as [Hh Hse].
      destruct (bind _ _ (wld s)) as [[t1 w] |] eqn:E; [| discriminate].
      inversion H; subst; clear H.
      apply bind_Some in E as (u & w1 & Hf & Hn).
      assert (Hq : quiet (wld s) w1).
      { destruct (memrate_flush (context s)).
        - eapply flush_for_quiet. exact Hf.
        - inversion Hf; subst. apply quiet_refl. }
      destruct Hq as (Hc1 & Ht1 & _).
      inversion Hn; subst; clear Hn.
      unfold child_inv. cbn [pc context wld handler clock ticks].
      repeat split; auto. exists (ticks w1). split; [lia | congruence].
    + inversion H; subst; clear H. unfold child_inv, set_pc.
      cbn [pc context wld handler]. tauto.
  - (* PcDispatch *)
    destruct Hpc as (Hh & Hse & n & Hn & Ht1).
    destruct (memrate_info b !! i) as [info |] eqn:Ei; [| discriminate].
    destruct (bind _ _ (wld s)) as [[[[kb v] t2] w] |] eqn:E; [| discriminate].
    inversion H; subst; clear H.
    apply bind_Some in E as ([kb' v'] & w1 & Hd & E).
    apply bind_Some in E as (t2' & w2 & Hnow & E).
    inversion E; subst; clear E.
    apply dispatch_well_behaved with (b := b) in Hd as [_ Hle];
      [| eapply list_elem_of_lookup_2; eauto | lia | exact Hb].
    apply stress_time_now_world_le in Hnow as [Hle2 _].
    destruct (world_le_trans _ _ _ Hle Hle2) as (Hc & _ & _).
    unfold child_inv. cbn [pc context wld handler set_stats memrate_bytes start end_].
    split; [congruence |]. split; [exact Hb |].
    destruct keep; tauto.
  - (* SIGALRM in the update *)
    destruct Hpc as (Hh & Hse & n & Hn & Ht1).
    destruct (alarm_in_update_cases upd s s' i t1 Epc)
      as (_ & info & kb & v & w1 & st & w2 & Ei & Hd & Hu & ->).
    { unfold child_step. rewrite Epc, Eh. exact H. }
    apply dispatch_well_behaved with (b := b) in Hd as [_ (Hc1 & _)];
      [| eapply list_elem_of_lookup_2; eauto | lia | exact Hb].
    apply interrupted_update_cases in Hu as ((Hc2 & _) & _).
    unfold child_inv. cbn [pc context wld handler set_stats memrate_bytes].
    split; [congruence |]. split; [exact Hb | exact Eh].
Qed.

Lemma child_run_inv (clk : nat -> Q) (evs : list event) (s s' : child_state) :
  child_inv clk s -> child_run b evs s = Some s' -> child_inv clk s'.
Proof.
  revert s. induction evs as [| e evs IH]; intros s Hi H; cbn in H.
  - inversion H; subst. exact Hi.
  - destruct (child_step b e s) as [s1 |] eqn:E; [| discriminate].
    eapply IH; [eapply child_step_inv; eauto | exact H].
Qed.

Lemma child_init_inv (c : stress_memrate_context_t) (w : world) :
  0 <= memrate_bytes c -> child_inv (clock w) (child_init c w).
Proof. intros H. repeat split. exact H. Qed.

Lemma child_run_app (evs1 evs2 : list event) (s : child_state) :
  child_run b (evs1 ++ evs2) s
  = match child_run b evs1 s with
    | Some s1 => child_run b evs2 s1
    | None => None
    end.
Proof.
  revert s. induction evs1 as [| e evs1 IH]; intros s; cbn; [reflexivity |].
  destruct (child_step b e s); [apply IH | reflexivity].
Qed.





Lemma child_step_table (clk : nat -> Q) (e : event) (s s' : child_state) :
  child_inv clk s -> child_step b e s = Some s' ->
  stats (context s') = stats (context s) \/ table_step b clk e s s'.
Proof.
  intros (Hclk & Hb & Hpc) H. unfold child_step in H.
  destruct e as [[buffer |] | [|] | | keep | keep | upd | in_flight];
    destruct (pc s) as [| | | i | i t1 | | | | rc] eqn:Epc;
    try discriminate;
    try (destruct (handler s) eqn:Eh; [| discriminate]);
    try (inversion H; subst; clear H; left; reflexivity).
  - destruct (stress_memrate_init_data _ _ (wld s)) as [[[] w] |];
      [| discriminate].
    inversion H; subst. left. reflexivity.
  - destruct (i <? memrate_items b)%nat.
    + destruct (bind _ _ (wld s)) as [[t1 w] |]; [| discriminate].
      inversion H; subst. left. reflexivity.
    + inversion H; subst. left. reflexivity.
  - destruct Hpc as (Hh & Hse & n & Hn & Ht1).
    destruct (memrate_info b !! i) as [info |] eqn:Ei; [| discriminate].
    destruct (bind _ _ (wld s)) as [[[[kb v] t2] w] |] eqn:E; [| discriminate].
    inversion H; subst; clear H.
    apply bind_Some in E as ([kb' v'] & w1 & Hd & E).
    apply bind_Some in E as (t2' & w2 & Hnow & E).
    inversion E; subst; clear E.
    pose proof Hd as Hd'.
    apply dispatch_well_behaved with (b := b) in Hd' as [Hkb (Hc & _ & Ht)];
      [| eapply list_elem_of_lookup_2; eauto | lia | exact Hb].
    apply stress_time_now_world_le in Hnow as [_ Ht2].
    right. exists i, (clock (wld s) n), info, kb, v, w1, n.
    cbn [context set_stats stats]. rewrite Ht2, Hc.
    repeat split; try assumption; try reflexivity. lia.
  - destruct Hpc as (Hh & Hse & n & Hn & Ht1).
    destruct (alarm_in_update_cases upd s s' i t1 Epc)
      as (_ & info & kb & v & w1 & st & w2 & Ei & Hd & Hu & ->).
    { unfold child_step. rewrite Epc, Eh. exact H. }
    pose proof Hd as Hd'.
    apply dispatch_well_behaved with (b := b) in Hd' as [Hkb (Hc & _ & Ht)];
      [| eapply list_elem_of_lookup_2; eauto | lia | exact Hb].
    apply interrupted_update_cases in Hu as (_ & _ & _ & Hu).
    destruct upd; destruct Hu as [-> Hu]; [left; reflexivity | right ..];
      exists i, t1, info, kb, v, w1, n;
      cbn [context set_stats stats]; rewrite ?Hc, ?Hclk;
      repeat split; try assumption; try reflexivity; lia.
Qed.





(** A step that writes the table writes one slot: the kilobytes are
    added, the duration is added or not yet, and the flag is overwritten
    only by the return of the dispatch, after the duration was added. *)
Lemma table_step_slot (clk : nat -> Q) (e : event) (s s' : child_state) :
  table_step b clk e s s' ->
  exists i t1 info kb v w1 n f,
    pc s = PcDispatch i t1 /\
    memrate_info b !! i = Some info /\
    stress_memrate_dispatch info (context s) (wld s) = Some ((kb, v), w1) /\
    0 <= kb /\ (n < ticks w1)%nat /\ t1 = clk n /\
    stats (context s') = alter f i (stats (context s)) /\
    forall slot,
      kbytes (f slot) = (kbytes slot + inject_Z kb)%Q /\
      (duration (f slot) = duration slot \/
       duration (f slot) = (duration slot + (clk (ticks w1) - t1))%Q) /\
      (valid (f slot) = valid slot \/
       valid (f slot) = v /\
       duration (f slot) = (duration slot + (clk (ticks w1) - t1))%Q).
Proof.
  intros (i & t1 & info & kb & v & w1 & n & Epc & Ei & Hd & Hkb & Hn & Ht1 & H).
  cbv zeta in H.
  destruct e as [| | | keep | | [| | |] |]; try contradiction;
    exists i, t1, info, kb, v, w1, n; eexists;
    (split; [exact Epc |]); (split; [exact Ei |]); (split; [exact Hd |]);
    (split; [exact Hkb |]); (split; [exact Hn |]); (split; [exact Ht1 |]).
  - split; [exact H |]. intros slot. cbn. auto.
  - split; [exact H |]. intros slot. cbn. auto.
  - split; [exact H |]. intros slot. cbn. auto.
  - split.
    + rewrite H. unfold stats_duration, stats_kbytes.
      rewrite list_alter_alter_eq. reflexivity.
    + intros slot. cbn. auto.
Qed.

End Driver.

Lemma ticking_clock_monotone (has : bool) (n m : nat) :
  (n <= m)%nat -> (clock (ticking_world has) n <= clock (ticking_world has) m)%Q.
Proof. intros H. cbn. rewrite <- Zle_Qle. lia. Qed.


(* ------------------------------------------------------------------ *)
(** ** Cancellation in the middle of a dispatch *)
(* ------------------------------------------------------------------ *)

(** C1 (as amended): when the alarm cuts a dispatch off, control goes to
    [tidy] and from there to the return, and the table is, slot by slot,
    what it was when the signal arrived, whatever the strategy had swept
    by then: the dispatch that was cut off adds nothing to its slot, and
    what the completed dispatches had added stays. *)
Theorem interrupted_dispatch_adds_nothing
    (b : build_config) (opts : gmap string setting) (w0 : world)
    (evs : list event) (s : child_state) (i : nat) (t1 : Q) (in_flight : Z) :
  child_run b evs (child_init (stress_memrate_context b opts) w0) = Some s ->
  pc s = PcDispatch i t1 ->
  exists s1 s2 s3,
    child_step b (EvAlarm in_flight) s = Some s1 /\ pc s1 = PcTidy /\
    child_step b EvRun s1 = Some s2 /\ pc s2 = PcReturn /\
    child_step b EvRun s2 = Some s3 /\ pc s3 = PcExit EXIT_SUCCESS /\
    stats (context s1) = stats (context s) /\
    stats (context s3) = stats (context s).
Proof.
  intros Hrun Hpc.
  assert (Hinv0 : child_inv (clock w0)
                    (child_init (stress_memrate_context b opts) w0)).
  { apply child_init_inv. cbn [stress_memrate_context memrate_bytes].
    apply Z.land_nonneg. left. unfold wrap64. apply Z.mod_pos_bound. reflexivity. }
  pose proof (child_run_inv b _ _ _ _ Hinv0 Hrun) as (_ & _ & Hat).
  rewrite Hpc in Hat. destruct Hat as (Hh & _).
  eexists. eexists. eexists.
  split; [unfold child_step; rewrite Hpc, Hh; reflexivity |].
  repeat split.
Qed.

Lemma interrupted_dispatch_adds_nothing_witness :
  exists s s1,
    child_run x86_64_build to_first_dispatch
      (child_init (stress_memrate_context x86_64_build small_opts)
                  (ticking_world true))
    = Some s /\
    child_step x86_64_build (EvAlarm 2) s = Some s1 /\
    stats (context s1) = stats (context s).
Proof.
  eexists ?[s].
  destruct (interrupted_dispatch_adds_nothing x86_64_build small_opts
              (ticking_world true) to_first_dispatch ?s 0%nat 0%Q 2)
    as (s1 & _ & _ & H1 & _ & _ & _ & _ & _ & E & _);
    [vm_compute; reflexivity | reflexivity |].
  exists s1. split; [vm_compute; reflexivity |]. split; [exact H1 | exact E].
Defined.

(** C1 (counterexample): on a 4 KiB buffer the alarm arrives during the
    first dispatch, after the strategy has swept two kilobytes.  The run
    ends with the slot of that strategy at zero kilobytes; so it is not
    the case that the slot receives what was in flight. *)
Lemma interrupted_dispatch_loses_partial_kbytes :
  (exists s,
      child_run x86_64_build (to_first_dispatch ++ [EvAlarm 2; EvRun; EvRun])
        (child_init (stress_memrate_context x86_64_build small_opts)
                    (ticking_world true))
      = Some s /\
      pc s = PcExit EXIT_SUCCESS /\
      stats (context s) !! 0%nat = Some (mk_stats 0 0 false)) /\
  ~ partial_progress_recorded x86_64_build.
Proof.
  split.
  - eexists. split; [vm_compute; reflexivity |]. split; reflexivity.
  - intros Hclaim.
    destruct (child_run x86_64_build to_first_dispatch
                (child_init (stress_memrate_context x86_64_build small_opts)
                            (ticking_world true))) as [s |] eqn:E;
      [| vm_compute in E; discriminate].
    vm_compute in E. injection E as Es.
    edestruct (Hclaim s 0%nat 0%Q 2 (mk_stats 0 0 false)) as (slot' & Hl & Hk);
      [rewrite <- Es; reflexivity | rewrite <- Es; reflexivity
      | rewrite <- Es; vm_compute; reflexivity |].
    cbn in Hl. injection Hl as <-. cbn in Hk. discriminate Hk.
Qed.

(* ------------------------------------------------------------------ *)
(** ** Alarms during teardown *)
(* ------------------------------------------------------------------ *)

Section Teardown.

Variable b : build_config.

Lemma handler_stays (e : event) (s s' : child_state) :
  child_step b e s = Some s' -> handler s = true -> handler s' = true.
Proof.
  intros H Hh. unfold child_step in H.
  destruct e as [[buffer |] | [|] | | keep | keep | upd | in_flight];
    destruct (pc s) as [| | | i | i t1 | | | | rc];
    try discriminate;
    try rewrite Hh in H;
    try (inversion H; subst;
         unfold stress_memrate_alarm_handler, set_pc; cbn [handler];
         solve [reflexivity | assumption]).
  - destruct (stress_memrate_init_data _ _ (wld s)) as [[[] w] |];
      [| discriminate].
    inversion H; subst. first [exact Hh | reflexivity].
  - destruct (i <? memrate_items b)%nat.
    + destruct (bind _ _ (wld s)) as [[t1 w] |]; [| discriminate].
      inversion H; subst. first [exact Hh | reflexivity].
    + inversion H; subst. first [exact Hh | reflexivity].
  - destruct (memrate_info b !! i) as [info |]; [| discriminate].
    destruct (bind _ _ (wld s)) as [[[[kb v] t2] w] |]; [| discriminate].
    inversion H; subst. first [exact Hh | reflexivity].
  - destruct (memrate_info b !! i) as [info |]; [| discriminate].
    destruct (bind _ _ (wld s)) as [[st w] |]; [| discriminate].
    inversion H; subst. first [exact Hh | reflexivity].
Qed.

(** A step adds a release only where one was pending, except for an
    alarm that arrives between the release and the return. *)
Lemma child_step_releases (e : event) (s s' : child_state) :
  child_step b e s = Some s' ->
  (munmaps s' + release_pending (pc s')
   <= munmaps s + release_pending (pc s)
      + (if is_alarm e && at_return (pc s) then 1 else 0))%nat /\
  (munmaps s <= munmaps s')%nat /\
  ((at_return (pc s') = true \/ pc s' = PcExit EXIT_SUCCESS) ->
   (at_return (pc s) = true \/ pc s = PcExit EXIT_SUCCESS ->
    (1 <= munmaps s)%nat) ->
   (1 <= munmaps s')%nat).
Proof.
  intros H. unfold child_step in H.
  destruct e as [[buffer |] | [|] | | keep | keep | upd | in_flight];
    destruct (pc s) as [| | | i | i t1 | | | | rc] eqn:Epc;
    try discriminate;
    try (destruct (handler s); [| discriminate]);
    try (inversion H; subst; clear H;
         cbn [pc munmaps set_pc stress_memrate_alarm_handler release_pending
              is_alarm at_return andb];
         repeat split; try lia;
         solve [ intros [Hc | Hc] Hprev; try discriminate;
                 try (apply Hprev; auto); lia
               | destruct keep; cbn; lia
               | destruct keep; intros [Hc | Hc]; discriminate ]).
  - destruct (stress_memrate_init_data _ _ (wld s)) as [[[] w] |];
      [| discriminate].
    inversion H; subst; clear H. cbn. repeat split; try lia.
    intros [Hc | Hc]; discriminate.
  - destruct (i <? memrate_items b)%nat.
    + destruct (bind _ _ (wld s)) as [[t1 w] |]; [| discriminate].
      inversion H; subst; clear H. cbn. repeat split; try lia.
      intros [Hc | Hc]; discriminate.
    + inversion H; subst; clear H. cbn. repeat split; try lia.
      intros [Hc | Hc]; discriminate.
  - destruct (memrate_info b !! i) as [info |]; [| discriminate].
    destruct (bind _ _ (wld s)) as [[[[kb v] t2] w] |]; [| discriminate].
    inversion H; subst; clear H. cbn [pc munmaps release_pending is_alarm andb].
    repeat split; try (destruct keep; cbn; lia).
    destruct keep; intros [Hc | Hc]; discriminate.
  - destruct (memrate_info b !! i) as [info |]; [| discriminate].
    destruct (bind _ _ (wld s)) as [[st w] |]; [| discriminate].
    inversion H; subst; clear H.
    cbn [pc munmaps release_pending is_alarm andb at_return
         stress_memrate_alarm_handler set_pc].
    repeat split; try lia.
    intros [Hc | Hc]; discriminate.
Qed.

Lemma child_run_releases (evs : list event) (s s' : child_state) :
  child_run b evs s = Some s' ->
  (munmaps s' + release_pending (pc s')
   <= munmaps s + release_pending (pc s) + late_alarms b evs s)%nat /\
  ((at_return (pc s) = true \/ pc s = PcExit EXIT_SUCCESS ->
    (1 <= munmaps s)%nat) ->
   (at_return (pc s') = true \/ pc s' = PcExit EXIT_SUCCESS) ->
   (1 <= munmaps s')%nat) /\
  (handler s = true -> handler s' = true).
Proof.
  revert s. induction evs as [| e evs IH]; intros s H; cbn in H.
  - inversion H; subst. cbn. repeat split; auto. lia.
  - cbn [late_alarms].
    destruct (child_step b e s) as [s1 |] eqn:E; [| discriminate].
    destruct (child_step_releases e s s1 E) as (Hle & _ & Hone).
    destruct (IH s1 H) as (Hle' & Hone' & Hh').
    split; [lia |]. split.
    + intros Hprev Hat. apply Hone'; [| exact Hat].
      intros Hat1. apply Hone; assumption.
    + intros Hh. apply Hh'. eapply handler_stays; eauto.
Qed.

End Teardown.

(** C9 (as amended): nothing disarms the handler, at the jump or at any
    other step: once installed it stays installed through teardown.  The
    buffer is released at most once more than the number of alarms that
    are delivered between the release and the return; a run that returns
    [EXIT_SUCCESS] has released it at least once, and exactly once when
    no alarm was delivered between the release and the return, whether
    teardown was reached by normal completion or by a cancellation. *)
Theorem teardown_releases_once_without_late_alarm
    (b : build_config) (c : stress_memrate_context_t) (w : world)
    (evs : list event) (s : child_state) :
  child_run b evs (child_init c w) = Some s ->
  (forall e s', handler s = true -> child_step b e s = Some s' ->
                handler s' = true) /\
  (munmaps s <= 1 + late_alarms b evs (child_init c w))%nat /\
  (pc s = PcExit EXIT_SUCCESS -> (1 <= munmaps s)%nat) /\
  (pc s = PcExit EXIT_SUCCESS -> late_alarms b evs (child_init c w) = 0%nat ->
   munmaps s = 1%nat).
Proof.
  intros Hrun.
  destruct (child_run_releases b evs _ _ Hrun) as (Hle & Hone & _).
  cbn [child_init pc munmaps release_pending] in Hle, Hone.
  assert (Hlow : pc s = PcExit EXIT_SUCCESS -> (1 <= munmaps s)%nat).
  { intros Hpc. apply Hone; [| right; exact Hpc].
    intros [Hc | Hc]; discriminate. }
  split; [intros e s' Hh Hstep; eapply handler_stays; eauto |].
  split; [lia |]. split; [exact Hlow |].
  intros Hpc Hlate. specialize (Hlow Hpc). lia.
Qed.

Lemma teardown_releases_once_without_late_alarm_witness :
  exists s,
    child_run x86_64_build
      (to_first_dispatch ++ [EvReturn false; EvLoop false; EvRun; EvRun])
      (child_init (stress_memrate_context x86_64_build small_opts)
                  (ticking_world true))
    = Some s /\
    pc s = PcExit EXIT_SUCCESS /\ munmaps s = 1%nat.
Proof.
  eexists ?[s].
  destruct (teardown_releases_once_without_late_alarm x86_64_build
              (stress_memrate_context x86_64_build small_opts)
              (ticking_world true)
              (to_first_dispatch ++ [EvReturn false; EvLoop false; EvRun; EvRun])
              ?s)
    as (_ & _ & _ & Hone); [vm_compute; reflexivity |].
  split; [vm_compute; reflexivity |]. split; [reflexivity |].
  apply Hone; reflexivity.
Defined.

(** C9 (counterexample): a run completes normally and releases the
    buffer; an alarm arrives before the function returns.  The handler is
    still installed, the jump leads to [tidy] again, and the buffer is
    released a second time.  So the jump does not disarm the handler, and
    the buffer is not released at most once. *)
Lemma second_alarm_releases_buffer_twice :
  (exists s,
      child_run x86_64_build
        (to_first_dispatch
         ++ [EvReturn false; EvLoop false; EvRun; EvAlarm 0; EvRun])
        (child_init (stress_memrate_context x86_64_build small_opts)
                    (ticking_world true))
      = Some s /\
      pc s = PcReturn /\ handler s = true /\ munmaps s = 2%nat) /\
  ~ handler_disarmed_by_jump x86_64_build /\
  ~ buffer_released_at_most_once x86_64_build.
Proof.
  split; [| split].
  - eexists. split; [vm_compute; reflexivity |]. repeat split.
  - intros Hclaim.
    specialize (Hclaim (mk_child PcReturn (context_at 4096 4096 UNLIMITED UNLIMITED)
                                 (ticking_world true) true true 1 1) 0 _ eq_refl).
    discriminate Hclaim.
  - intros Hclaim.
    specialize (Hclaim (stress_memrate_context x86_64_build small_opts)
                       (ticking_world true)
                       (to_first_dispatch
                        ++ [EvReturn false; EvLoop false; EvRun; EvAlarm 0; EvRun])).
    destruct (child_run _ _ _) as [s |] eqn:E; [| vm_compute in E; discriminate].
    specialize (Hclaim s eq_refl).
    vm_compute in E. injection E as Es. rewrite <- Es in Hclaim. cbn in Hclaim. lia.
Qed.

(* ------------------------------------------------------------------ *)
(** ** The unthrottled sweeps *)
(* ------------------------------------------------------------------ *)

Section Sweep.

Lemma swept_nothing (step n : Z) : 0 < step -> n <= 0 -> swept step n = 0.
Proof.
  intros Hs Hn. unfold swept. rewrite Z.max_l by lia.
  rewrite Z.div_small by lia. reflexivity.
Qed.

Lemma swept_step (step n : Z) :
  0 < step -> 0 < n -> swept step n = step + swept step (n - step).
Proof.
  intros Hs Hn. unfold swept. rewrite (Z.max_r 0 n) by lia.
  destruct (Z.le_gt_cases n step) as [Hle | Hgt].
  - rewrite (Z.max_l 0 (n - step)) by lia.
    replace (n + step - 1) with (1 * step + (n - 1)) by lia.
    rewrite Z.div_add_l, (Z.div_small (n - 1)), (Z.div_small (0 + step - 1)) by lia.
    lia.
  - rewrite (Z.max_r 0 (n - step)) by lia.
    replace (n + step - 1) with (1 * step + (n - step + step - 1)) by lia.
    rewrite Z.div_add_l by lia. lia.
Qed.

Lemma swept_bounds (step n : Z) :
  0 < step -> 0 <= n -> n <= swept step n < n + step.
Proof.
  intros Hs Hn. unfold swept. rewrite Z.max_r by lia.
  pose proof (Z.div_mod (n + step - 1) step ltac:(lia)) as Hdm.
  pose proof (Z.mod_pos_bound (n + step - 1) step Hs) as Hm.
  lia.
Qed.

Lemma swept_exact (step n : Z) :
  0 < step -> 0 <= n -> n mod step = 0 -> swept step n = n.
Proof.
  intros Hs Hn Hm. unfold swept. rewrite Z.max_r by lia.
  apply Z.mod_divide in Hm as [q ->]; [| lia].
  replace (q * step + step - 1) with (q * step + (step - 1)) by lia.
  rewrite Z.div_add_l, (Z.div_small (step - 1)) by lia. lia.
Qed.

(** With fuel for every byte left, the sweep runs to its end, and the
    cursor stops on the first multiple of the step at or past the end. *)
Lemma sweep_runs (fuel : nat) (body : Z -> list access) (W ptr e : Z) (w : world) :
  0 < W -> (Z.to_nat (e - ptr) < fuel)%nat ->
  exists w', sweep fuel body W ptr e w = Some (ptr + swept (16 * W) (e - ptr), w')
             /\ quiet w w'.
Proof.
  intros HW. revert ptr w. induction fuel as [| fuel IH]; intros ptr w Hf; [lia |].
  cbn [sweep]. destruct (Z.ltb_spec ptr e) as [Hlt | Hge].
  - destruct (IH (ptr + 16 * W) (snd (tt, mk_world (clock w) (ticks w) (naps w)
                                            (touched w ++ body ptr) (sse2 w))))
      as (w' & E & Hq); [lia |].
    exists w'. unfold bind, touch. cbn [snd] in E.
    rewrite E. split; [| exact Hq].
    rewrite (swept_step (16 * W) (e - ptr)) by lia.
    replace (e - (ptr + 16 * W)) with (e - ptr - 16 * W) by lia.
    rewrite Z.add_assoc. reflexivity.
  - exists w. rewrite swept_nothing by lia.
    rewrite Z.add_0_r. split; [reflexivity | apply quiet_refl].
Qed.

Lemma stress_memrate_read_swept W pf c w :
  0 < W -> end_ c = start c + memrate_bytes c -> 0 <= memrate_bytes c ->
  exists w', stress_memrate_read W pf c w
             = Some ((swept (16 * W) (memrate_bytes c) / KB, true), w').
Proof.
  intros HW He Hb. unfold stress_memrate_read.
  destruct (sweep_runs (pass_fuel c) (read16 pf W) W (start c) (end_ c) w HW)
    as (w' & E & _); [unfold pass_fuel; lia |].
  exists w'. unfold bind. rewrite E. unfold ret.
  replace (end_ c - start c) with (memrate_bytes c) by lia.
  replace (start c + swept (16 * W) (memrate_bytes c) - start c)
    with (swept (16 * W) (memrate_bytes c)) by lia.
  reflexivity.
Qed.

Lemma stress_memrate_write_swept W c w :
  0 < W -> end_ c = start c + memrate_bytes c -> 0 <= memrate_bytes c ->
  exists w', stress_memrate_write W c w
             = Some ((swept (16 * W) (memrate_bytes c) / KB, true), w').
Proof.
  intros HW He Hb. unfold stress_memrate_write.
  destruct (sweep_runs (pass_fuel c) (write16 W) W (start c) (end_ c) w HW)
    as (w' & E & _); [unfold pass_fuel; lia |].
  exists w'. unfold bind. rewrite E. unfold ret.
  replace (end_ c - start c) with (memrate_bytes c) by lia.
  replace (start c + swept (16 * W) (memrate_bytes c) - start c)
    with (swept (16 * W) (memrate_bytes c)) by lia.
  reflexivity.
Qed.

Lemma stress_memrate_write_nt_swept W c w :
  0 < W -> end_ c = start c + memrate_bytes c -> 0 <= memrate_bytes c ->
  sse2 w = true ->
  exists w', stress_memrate_write_nt W c w
             = Some ((swept (16 * W) (memrate_bytes c) / KB, true), w').
Proof.
  intros HW He Hb Hs. unfold stress_memrate_write_nt.
  destruct (sweep_runs (pass_fuel c) (write_nt16 W) W (start c) (end_ c) w HW)
    as (w' & E & _); [unfold pass_fuel; lia |].
  exists w'. unfold bind, stress_cpu_x86_has_sse2. rewrite Hs. cbn [negb].
  rewrite E. unfold ret.
  replace (end_ c - start c) with (memrate_bytes c) by lia.
  replace (start c + swept (16 * W) (memrate_bytes c) - start c)
    with (swept (16 * W) (memrate_bytes c)) by lia.
  reflexivity.
Qed.

Lemma swept_valid_size (W bytes : Z) :
  0 < W -> 1024 mod (16 * W) = 0 -> 0 <= bytes -> bytes mod 1024 = 0 ->
  swept (16 * W) bytes = bytes.
Proof.
  intros HW Hd Hb Hm. apply swept_exact; [lia | exact Hb |].
  apply Z.mod_divide; [lia |].
  apply Z.mod_divide in Hd; [| lia]. apply Z.mod_divide in Hm; [| lia].
  eapply Z.divide_trans; eauto.
Qed.

Lemma stos_chunks_runs (fuel : nat) (chunk loops wr ptr e : Z) (w : world) :
  0 < chunk -> (Z.to_nat (e - ptr) < fuel)%nat ->
  exists p w', stos_chunks fuel chunk loops wr ptr e w = Some (p, w').
Proof.
  intros Hc. revert ptr w. induction fuel as [| fuel IH]; intros ptr w Hf; [lia |].
  cbn [stos_chunks]. destruct (Z.ltb_spec (ptr + chunk) e) as [Hlt | Hge].
  - unfold bind, touch. apply IH. lia.
  - eexists. eexists. reflexivity.
Qed.

Lemma read_within_buffer nm W pf fr :
  0 < W -> 1024 mod (16 * W) = 0 ->
  within_buffer (mk_info nm MR_RD (stress_memrate_read W pf) fr).
Proof.
  intros HW Hd c w (He & Hb & Hm). unfold MIN_MEMRATE_BYTES, KB in Hb.
  destruct (stress_memrate_read_swept W pf c w HW He) as (w' & E); [lia |].
  rewrite swept_valid_size in E by (assumption || lia).
  eexists. eexists. exists w'. cbn [func]. split; [exact E |].
  split; [apply Z.div_pos; [lia | reflexivity] | lia].
Qed.

Lemma write_within_buffer nm W fr :
  0 < W -> 1024 mod (16 * W) = 0 ->
  within_buffer (mk_info nm MR_WR (stress_memrate_write W) fr).
Proof.
  intros HW Hd c w (He & Hb & Hm). unfold MIN_MEMRATE_BYTES, KB in Hb.
  destruct (stress_memrate_write_swept W c w HW He) as (w' & E); [lia |].
  rewrite swept_valid_size in E by (assumption || lia).
  eexists. eexists. exists w'. cbn [func]. split; [exact E |].
  split; [apply Z.div_pos; [lia | reflexivity] | lia].
Qed.

Lemma write_nt_within_buffer nm W fr :
  0 < W -> 1024 mod (16 * W) = 0 ->
  within_buffer (mk_info nm MR_WR (stress_memrate_write_nt W) fr).
Proof.
  intros HW Hd c w (He & Hb & Hm). unfold MIN_MEMRATE_BYTES, KB in Hb.
  cbn [func]. destruct (sse2 w) eqn:Hs.
  - destruct (stress_memrate_write_nt_swept W c w HW He) as (w' & E);
      [lia | exact Hs |].
    rewrite swept_valid_size in E by (assumption || lia).
    eexists. eexists. exists w'. split; [exact E |].
    split; [apply Z.div_pos; [lia | reflexivity] | lia].
  - exists 0, false, w. split.
    + unfold stress_memrate_write_nt, bind, stress_cpu_x86_has_sse2.
      rewrite Hs. reflexivity.
    + split; [lia | apply Z.div_pos; [lia | reflexivity]].
Qed.

Lemma memset_within_buffer nm fr :
  within_buffer (mk_info nm MR_WR stress_memrate_memset fr).
Proof.
  intros c w (He & Hb & Hm). unfold MIN_MEMRATE_BYTES, KB in Hb.
  eexists. eexists. eexists. cbn [func]. split; [reflexivity |].
  split; [apply Z.div_pos; [lia | reflexivity] | lia].
Qed.

Lemma stos_within_buffer nm wr fr :
  within_buffer (mk_info nm MR_WR (stress_memrate_stos wr) fr).
Proof.
  intros c w (He & Hb & Hm). unfold MIN_MEMRATE_BYTES, KB in Hb.
  assert (Hse : start c <= end_ c) by lia.
  assert (Hchunk : 0 < if end_ c - start c >? MB then MB else end_ c - start c).
  { unfold MB. destruct (Z.gtb_spec (end_ c - start c) 1048576); lia. }
  cbn [func].
  destruct (stos_chunks_runs (pass_fuel c) _
              (wrap32 ((if end_ c - start c >? MB then MB else end_ c - start c) / wr))
              wr (start c) (end_ c) w Hchunk) as (p & w1 & E);
    [unfold pass_fuel; lia |].
  pose proof E as E'.
  apply stos_chunks_quiet in E' as (Hp & Hpe & _); [| lia].
  unfold stress_memrate_stos, bind. rewrite E.
  destruct (negb _).
  - eexists. eexists. eexists. unfold touch. split; [reflexivity |].
    replace (end_ c - start c) with (memrate_bytes c) by lia.
    split; [apply Z.div_pos; [lia | reflexivity] | lia].
  - eexists. eexists. eexists. split; [reflexivity |].
    split; [apply Z.div_pos; [lia | reflexivity] |].
    apply Z.div_le_mono; [reflexivity | lia].
Qed.

(** The two strategies that sweep 1024-bit elements leave the buffer on
    every valid size that is not a multiple of their step of 2048 bytes,
    and return one kilobyte more than the buffer holds. *)
Lemma read1024_overruns c w :
  mapped_context c -> memrate_bytes c mod 2048 <> 0 ->
  exists w', stress_memrate_read1024 c w
             = Some ((memrate_bytes c / KB + 1, true), w').
Proof.
  intros (He & Hb & Hm) Hodd. unfold MIN_MEMRATE_BYTES, KB in *.
  destruct (stress_memrate_read_swept 128 false c w) as (w' & E);
    [lia | exact He | lia |].
  exists w'. unfold stress_memrate_read1024. rewrite E. do 3 f_equal.
  change (16 * 128) with 2048. unfold swept, KB. rewrite Z.max_r by lia.
  apply Z.mod_divide in Hm as [q Hq]; [| lia]. rewrite Hq in *.
  assert (Hq2 : q mod 2 = 1).
  { pose proof (Z.mod_pos_bound q 2 ltac:(lia)).
    destruct (Z.eq_dec (q mod 2) 1) as [? | Hne]; [assumption | exfalso].
    apply Hodd. apply Z.mod_divide; [lia |].
    exists (q / 2). pose proof (Z.div_mod q 2 ltac:(lia)). lia. }
  pose proof (Z.div_mod q 2 ltac:(lia)) as Hdm. rewrite Hq2 in Hdm.
  replace (q * 1024 + 2048 - 1) with ((q / 2 + 1) * 2048 + 1023) by lia.
  rewrite Z.div_add_l, (Z.div_small 1023), Z.add_0_r by lia.
  rewrite Z.div_mul by lia.
  replace ((q / 2 + 1) * 2048) with ((q + 1) * 1024) by lia.
  rewrite Z.div_mul by lia. reflexivity.
Qed.

(** Every entry but the two that sweep 1024-bit elements stays within the
    buffer on every valid size. *)
Lemma memrate_info_within_buffer (b : build_config) :
  Forall (fun info => name info = "read1024"%string \/
                      name info = "write1024"%string \/
                      within_buffer info)
         (memrate_info b).
Proof.
  unfold memrate_info.
  repeat first
    [ apply Forall_app; split
    | apply Forall_ifdef
    | apply Forall_nil_2
    | apply Forall_cons; split;
      [ first
          [ left; reflexivity
          | right; left; reflexivity
          | right; right;
            first [ apply memset_within_buffer
                  | apply stos_within_buffer
                  | apply read_within_buffer; [lia | reflexivity]
                  | apply write_within_buffer; [lia | reflexivity]
                  | apply write_nt_within_buffer; [lia | reflexivity] ] ]
      | ] ].
Qed.

End Sweep.

(** C2 (the code at the failing input): on a buffer of 5 KiB, a valid
    size, the unthrottled 1024-bit read and write strategies report valid
    and return 6 kilobytes, one more than the buffer holds: the third step
    of 2048 bytes starts inside the buffer and its last element lies 896
    bytes past the end. *)
Theorem sweep1024_overruns_odd_kilobyte_buffer :
  let c := context_at 4096 5120 UNLIMITED UNLIMITED in
  valid_memrate_bytes (2 ^ 48) (memrate_bytes c) /\
  memrate_bytes c / KB = 5 /\
  (exists w',
      stress_memrate_read1024 c (frozen_world 0 true) = Some ((6, true), w') /\
      touched w' !! 47%nat = Some (Load (end_ c + 896) 128)) /\
  (exists w',
      stress_memrate_write1024 c (frozen_world 0 true) = Some ((6, true), w') /\
      touched w' !! 47%nat = Some (Store (end_ c + 896) 128)).
Proof.
  intros c. split; [| split; [| split]].
  - vm_compute. repeat split; discriminate.
  - reflexivity.
  - eexists. split; vm_compute; reflexivity.
  - eexists. split; vm_compute; reflexivity.
Qed.

(* ------------------------------------------------------------------ *)
(** ** The rate-limited passes *)
(* ------------------------------------------------------------------ *)

Section Pacing.

Lemma stress_memrate_loops_bounds (c : stress_memrate_context_t) (size : Z) :
  0 < size -> size <= memrate_bytes c < 2 ^ 64 ->
  1 <= stress_memrate_loops c size /\
  stress_memrate_loops c size * size <= memrate_bytes c.
Proof.
  intros Hs Hb. unfold stress_memrate_loops.
  assert (Hbest : 1 <= memrate_bytes c / size).
  { apply Z.div_le_lower_bound; lia. }
  assert (Hmul : memrate_bytes c / size * size <= memrate_bytes c)
    by (rewrite Z.mul_comm; apply Z.mul_div_le; lia).
  destruct (loops_for_cases (memrate_bytes c) (memrate_bytes c / size) chunk_shifts)
    as [(pre & k & post & E & -> & [_ Hle] & _) | [-> _]].
  - lia.
  - intros k Hk. apply chunk_shifts_range in Hk. lia.
  - assert (Hk : 10 <= k <= 20).
    { apply chunk_shifts_range. rewrite E. apply elem_of_app. right. left. }
    assert (0 < 2 ^ k) by (apply Z.pow_pos_nonneg; lia). split; [lia | nia].
  - split; [exact Hbest | exact Hmul].
Qed.

Lemma throttle_runs (t1 total dur : Q) (w : world) :
  exists total' w',
    throttle t1 total dur w = Some (total', w') /\ ticks w' = S (ticks w).
Proof.
  unfold throttle, bind, stress_time_now, nanosleep, ret. cbn [clock ticks].
  destruct (Qle_bool _ _); eexists; eexists; split; reflexivity.
Qed.

Lemma paced_ticks (t1 dur total total' : Q) (w w' : world) :
  paced t1 dur total w total' w' -> (ticks w <= ticks w')%nat.
Proof. intros (_ & _ & n & Ht & _). lia. Qed.

Lemma paced_sweep_runs (fuel inner : nat) (body : Z -> list access)
    (W le : Z) (t1 total dur : Q) (a ptr e : Z) (w : world) :
  0 < W -> 0 < le -> a <= ptr ->
  (Z.to_nat (e - a) < inner)%nat -> (Z.to_nat (e - ptr) < fuel)%nat ->
  exists p w',
    paced_sweep fuel inner body W le t1 total dur ptr e w = Some (p, w') /\
    (ptr < e -> (ticks w < ticks w')%nat).
Proof.
  intros HW Hle. revert ptr total w.
  induction fuel as [| fuel IH]; intros ptr total w Ha Hin Hf; [lia |].
  cbn [paced_sweep]. destruct (Z.ltb_spec ptr e) as [Hlt | Hge].
  - set (read_end := STRESS_PTR_MINIMUM (ptr + le * W) e).
    assert (Hre : ptr < read_end <= e).
    { unfold read_end, STRESS_PTR_MINIMUM.
      destruct (Z.ltb_spec (ptr + le * W) e); nia. }
    destruct (sweep_runs inner body W ptr read_end w HW) as (w1 & Es & Hq);
      [lia |].
    pose proof (swept_bounds (16 * W) (read_end - ptr) ltac:(lia) ltac:(lia)) as Hsw.
    destruct (throttle_runs t1 total dur w1) as (total1 & w2 & Et & Htick).
    destruct (IH (ptr + swept (16 * W) (read_end - ptr)) total1 w2)
      as (p & w' & E & _); [lia | exact Hin | lia |].
    exists p, w'. unfold bind. rewrite Es, Et. split; [exact E |].
    intros _. apply paced_sweep_paced in E as [_ (total' & Hp)]; [| lia].
    apply paced_ticks in Hp. destruct Hq as (_ & Hq & _). lia.
  - exists ptr, w. split; [reflexivity | lia].
Qed.

Lemma paced_chunks_runs (fuel : nat) (chunk : Z) (t1 total dur : Q)
    (ptr e : Z) (w : world) :
  0 < chunk -> (Z.to_nat (e - ptr) < fuel)%nat ->
  exists p total' w',
    paced_chunks fuel chunk t1 total dur ptr e w = Some ((p, total'), w') /\
    e <= p + chunk /\
    (p = ptr \/ (ticks w < ticks w')%nat).
Proof.
  intros Hc. revert ptr total w.
  induction fuel as [| fuel IH]; intros ptr total w Hf; [lia |].
  cbn [paced_chunks]. destruct (Z.ltb_spec (ptr + chunk) e) as [Hlt | Hge].
  - destruct (throttle_runs t1 total dur
                (mk_world (clock w) (ticks w) (naps w)
                          (touched w ++ [Store ptr chunk]) (sse2 w)))
      as (total1 & w2 & Et & Htick).
    destruct (IH (ptr + chunk) total1 w2) as (p & total' & w' & E & Hex & _); [lia |].
    exists p, total', w'. unfold bind, touch. rewrite Et. split; [exact E |].
    split; [exact Hex |].
    right. apply paced_chunks_paced in E as (_ & _ & Hp); [| lia].
    apply paced_ticks in Hp. cbn [ticks] in Htick. lia.
  - exists ptr, total, w. split; [reflexivity |]. split; [lia | left; reflexivity].
Qed.

Lemma paced_stos_chunks_runs (fuel : nat) (chunk loops wr : Z)
    (t1 total dur : Q) (ptr e : Z) (w : world) :
  0 < chunk -> (Z.to_nat (e - ptr) < fuel)%nat ->
  exists p total' w',
    paced_stos_chunks fuel chunk loops wr t1 total dur ptr e w
    = Some ((p, total'), w') /\
    e <= p + chunk /\
    (p = ptr \/ (ticks w < ticks w')%nat).
Proof.
  intros Hc. revert ptr total w.
  induction fuel as [| fuel IH]; intros ptr total w Hf; [lia |].
  cbn [paced_stos_chunks]. destruct (Z.ltb_spec (ptr + chunk) e) as [Hlt | Hge].
  - destruct (throttle_runs t1 total dur
                (mk_world (clock w) (ticks w) (naps w)
                          (touched w ++ [Store ptr (loops * wr)]) (sse2 w)))
      as (total1 & w2 & Et & Htick).
    destruct (IH (ptr + chunk) total1 w2) as (p & total' & w' & E & Hex & _); [lia |].
    exists p, total', w'. unfold bind, touch. rewrite Et. split; [exact E |].
    split; [exact Hex |].
    right. apply paced_stos_chunks_paced in E as (_ & _ & Hp); [| lia].
    apply paced_ticks in Hp. cbn [ticks] in Htick. lia.
  - exists ptr, total, w. split; [reflexivity |]. split; [lia | left; reflexivity].
Qed.

(** The loop count of a sweep is positive and fits 64 bits with its
    sixteen elements. *)
Lemma loop_elements_positive (W : Z) (c : stress_memrate_context_t) :
  0 < W <= 128 -> mapped_context c ->
  0 < wrap64 (stress_memrate_loops c (W * 16) * 16).
Proof.
  intros HW (_ & Hb & _). unfold MIN_MEMRATE_BYTES, KB in Hb.
  destruct (stress_memrate_loops_bounds c (W * 16)) as [H1 H2]; [lia | lia |].
  unfold wrap64. rewrite Z.mod_small; [lia |]. split; [lia | nia].
Qed.

Lemma sweep_rate_runs (body : Z -> list access) (W : Z) (t1 dur : Q)
    (c : stress_memrate_context_t) (w : world) :
  0 < W <= 128 -> mapped_context c ->
  exists p w',
    paced_sweep (pass_fuel c) (pass_fuel c) body W
                (wrap64 (stress_memrate_loops c (W * 16) * 16)) t1 0 dur
                (start c) (end_ c) w = Some (p, w') /\
    (ticks w < ticks w')%nat.
Proof.
  intros HW Hc. pose proof (loop_elements_positive W c HW Hc) as Hle.
  destruct Hc as (He & Hb & _). unfold MIN_MEMRATE_BYTES, KB in Hb.
  destruct (paced_sweep_runs (pass_fuel c) (pass_fuel c) body W
              (wrap64 (stress_memrate_loops c (W * 16) * 16)) t1 0 dur
              (start c) (start c) (end_ c) w)
    as (p & w' & E & Ht); try (unfold pass_fuel; lia).
  exists p, w'. split; [exact E | apply Ht; lia].
Qed.

Lemma fill_chunk_bounds (c : stress_memrate_context_t) :
  mapped_context c ->
  0 < fill_chunk_bytes c <= MB /\ fill_chunk_bytes c <= memrate_bytes c.
Proof.
  intros (He & Hb & _). unfold MIN_MEMRATE_BYTES, KB in Hb.
  unfold fill_chunk_bytes, MB.
  destruct (Z.gtb_spec (end_ c - start c) 1048576); lia.
Qed.

Lemma read_rate_runs W pf c w :
  0 < W <= 128 -> mapped_context c ->
  exists kb w', stress_memrate_read_rate W pf c w = Some ((kb, true), w') /\
                (S (ticks w) < ticks w')%nat.
Proof.
  intros HW Hc. unfold stress_memrate_read_rate, bind at 1, stress_time_now.
  match goal with
  | |- context [paced_sweep _ _ ?body _ _ ?t1 _ ?dur _ _] =>
      destruct (sweep_rate_runs body W t1 dur c
                  (mk_world (clock w) (S (ticks w)) (naps w) (touched w) (sse2 w))
                  HW Hc) as (p & w' & E & Ht)
  end.
  eexists. exists w'. unfold bind. rewrite E. split; [reflexivity | exact Ht].
Qed.

Lemma write_rate_runs W c w :
  0 < W <= 128 -> mapped_context c ->
  exists kb w', stress_memrate_write_rate W c w = Some ((kb, true), w') /\
                (S (ticks w) < ticks w')%nat.
Proof.
  intros HW Hc. unfold stress_memrate_write_rate, bind at 1, stress_time_now.
  match goal with
  | |- context [paced_sweep _ _ ?body _ _ ?t1 _ ?dur _ _] =>
      destruct (sweep_rate_runs body W t1 dur c
                  (mk_world (clock w) (S (ticks w)) (naps w) (touched w) (sse2 w))
                  HW Hc) as (p & w' & E & Ht)
  end.
  eexists. exists w'. unfold bind. rewrite E. split; [reflexivity | exact Ht].
Qed.

Lemma write_nt_rate_runs W c w :
  0 < W <= 128 -> sse2 w = true -> mapped_context c ->
  exists kb w', stress_memrate_write_nt_rate W c w = Some ((kb, true), w') /\
                (S (ticks w) < ticks w')%nat.
Proof.
  intros HW Hs Hc.
  unfold stress_memrate_write_nt_rate, bind at 1, stress_cpu_x86_has_sse2.
  rewrite Hs. cbn [negb]. unfold bind at 1, stress_time_now.
  match goal with
  | |- context [paced_sweep _ _ ?body _ _ ?t1 _ ?dur _ _] =>
      destruct (sweep_rate_runs body W t1 dur c
                  (mk_world (clock w) (S (ticks w)) (naps w) (touched w) (sse2 w))
                  HW Hc) as (p & w' & E & Ht)
  end.
  eexists. exists w'. unfold bind. rewrite E. split; [reflexivity | exact Ht].
Qed.

Lemma memset_rate_runs c w :
  mapped_context c ->
  exists kb w', stress_memrate_memset_rate c w = Some ((kb, true), w') /\
                (S (ticks w) < ticks w')%nat.
Proof.
  intros Hc. destruct (fill_chunk_bounds c Hc) as [Hchunk _].
  destruct Hc as (He & Hb & _). unfold MIN_MEMRATE_BYTES, KB in Hb.
  unfold stress_memrate_memset_rate, bind at 1, stress_time_now.
  fold (fill_chunk_bytes c).
  match goal with
  | |- context [paced_chunks _ _ ?t1 _ ?dur _ _] =>
      destruct (paced_chunks_runs (pass_fuel c) (fill_chunk_bytes c) t1 0 dur
                  (start c) (end_ c)
                  (mk_world (clock w) (S (ticks w)) (naps w) (touched w) (sse2 w)))
        as (p & total' & w1 & E & Hex & Ht); [lia | unfold pass_fuel; lia |]
  end.
  unfold bind at 1. rewrite E. cbn [fst snd].
  pose proof E as E'. apply paced_chunks_paced in E' as (Hp & Hpe & Hpaced); [| lia].
  apply paced_ticks in Hpaced. cbn [ticks] in Hpaced, Ht.
  destruct (Z.gtb_spec (end_ c - p) 0) as [Hgt | Hle]; [| lia].
  match goal with
  | |- context [throttle ?t1 ?total ?dur] =>
      destruct (throttle_runs t1 total dur
                  (mk_world (clock w1) (ticks w1) (naps w1)
                            (touched w1 ++ [Store p (end_ c - p)]) (sse2 w1)))
        as (total2 & w2 & Et & Htick)
  end.
  eexists. exists w2. unfold bind, touch. rewrite Et.
  split; [reflexivity |]. cbn [ticks] in Htick. lia.
Qed.

Lemma stos_rate_runs wr c w :
  0 < wr <= 8 -> mapped_context c ->
  exists kb w', stress_memrate_stos_rate wr c w = Some ((kb, true), w') /\
                (S (ticks w) < ticks w')%nat.
Proof.
  intros Hwr Hc. destruct (fill_chunk_bounds c Hc) as [Hchunk _].
  destruct Hc as (He & Hb & _). unfold MIN_MEMRATE_BYTES, KB in Hb.
  unfold stress_memrate_stos_rate, bind at 1, stress_time_now.
  fold (fill_chunk_bytes c).
  match goal with
  | |- context [paced_stos_chunks _ _ ?loops _ ?t1 _ ?dur _ _] =>
      destruct (paced_stos_chunks_runs (pass_fuel c) (fill_chunk_bytes c) loops wr
                  t1 0 dur (start c) (end_ c)
                  (mk_world (clock w) (S (ticks w)) (naps w) (touched w) (sse2 w)))
        as (p & total' & w1 & E & Hex & Ht); [lia | unfold pass_fuel; lia |]
  end.
  unfold bind at 1. rewrite E. cbn [fst snd].
  pose proof E as E'.
  apply paced_stos_chunks_paced in E' as (Hp & Hpe & Hpaced); [| lia].
  apply paced_ticks in Hpaced. cbn [ticks] in Hpaced, Ht.
  destruct (wrap32 ((end_ c - p) / wr) =? 0) eqn:Eloops; cbn [negb].
  - eexists. exists w1. split; [reflexivity |].
    destruct Ht as [-> | Ht]; [| lia]. exfalso.
    apply Z.eqb_eq in Eloops. unfold wrap32, MB in *.
    assert (Hq : 1 <= (end_ c - start c) / wr)
      by (apply Z.div_le_lower_bound; lia).
    assert (Hq' : (end_ c - start c) / wr <= end_ c - start c).
    { apply Z.div_le_upper_bound; [lia |]. nia. }
    rewrite Z.mod_small in Eloops by lia. lia.
  - match goal with
    | |- context [throttle ?t1 ?total ?dur] =>
        destruct (throttle_runs t1 total dur
                    (mk_world (clock w1) (ticks w1) (naps w1)
                       (touched w1 ++ [Store p (wrap32 ((end_ c - p) / wr) * wr)])
                       (sse2 w1)))
          as (total2 & w2 & Et & Htick)
    end.
    eexists. exists w2. unfold bind, touch. rewrite Et.
    split; [reflexivity |]. cbn [ticks] in Htick. lia.
Qed.

(** A pass of any family runs to its end and is paced. *)
Lemma rate_limited_runs (v : rate_limited) c w :
  rate_limited_ok v w -> mapped_context c ->
  exists kb w',
    rate_limited_func v c w = Some ((kb, true), w') /\
    (S (ticks w) < ticks w')%nat /\
    pass_paced (chunk_duration (rate_limited_chunk v c) (rate_limited_target v c))
               w w'.
Proof.
  intros Hok Hc.
  assert (Hse : start c <= end_ c).
  { destruct Hc as (He & Hb & _). unfold MIN_MEMRATE_BYTES, KB in Hb. lia. }
  destruct v as [W pf | W | W | wr |];
    cbn [rate_limited_func rate_limited_ok rate_limited_chunk rate_limited_target]
      in Hok |- *.
  - destruct (read_rate_runs W pf c w Hok Hc) as (kb & w' & E & Ht).
    exists kb, w'. split; [exact E |]. split; [exact Ht |].
    apply stress_memrate_read_rate_paced in E as (_ & _ & Hp); [exact Hp | lia].
  - destruct (write_rate_runs W c w Hok Hc) as (kb & w' & E & Ht).
    exists kb, w'. split; [exact E |]. split; [exact Ht |].
    apply stress_memrate_write_rate_paced in E as (_ & _ & Hp); [exact Hp | lia].
  - destruct Hok as [HW Hs].
    destruct (write_nt_rate_runs W c w HW Hs Hc) as (kb & w' & E & Ht).
    exists kb, w'. split; [exact E |]. split; [exact Ht |].
    apply stress_memrate_write_nt_rate_paced in E as (_ & _ & Hp); [| lia].
    rewrite Hs in Hp. exact Hp.
  - destruct (stos_rate_runs wr c w Hok Hc) as (kb & w' & E & Ht).
    exists kb, w'. split; [exact E |]. split; [exact Ht |].
    apply stress_memrate_stos_rate_paced in E as (_ & _ & Hp); [exact Hp | lia].
  - destruct (memset_rate_runs c w Hc) as (kb & w' & E & Ht).
    exists kb, w'. split; [exact E |]. split; [exact Ht |].
    apply stress_memrate_memset_rate_paced in E as (_ & _ & Hp); [exact Hp | lia].
Qed.

End Pacing.

(* ------------------------------------------------------------------ *)
(** ** Rounding to binary64 *)
(* ------------------------------------------------------------------ *)

Section Pow2.

Lemma pow2_pos (e : Z) : (0 < pow2 e)%Q.
Proof. apply Qpower_0_lt. reflexivity. Qed.

Lemma pow2_add (a b : Z) : (pow2 (a + b) == pow2 a * pow2 b)%Q.
Proof. apply Qpower_plus. discriminate. Qed.

Lemma pow2_le (a b : Z) : a <= b -> (pow2 a <= pow2 b)%Q.
Proof. intros H. apply Qpower_le_compat_l; [exact H | discriminate]. Qed.

Lemma pow2_lt (a b : Z) : a < b -> (pow2 a < pow2 b)%Q.
Proof. intros H. apply Qpower_lt_compat_l; [exact H | reflexivity]. Qed.

Lemma pow2_Z (e : Z) : 0 <= e -> (pow2 e == inject_Z (2 ^ e))%Q.
Proof. intros H. unfold pow2. rewrite Zpower_Qpower by exact H. reflexivity. Qed.

Lemma pow2_0 : (pow2 0 == 1)%Q.
Proof. reflexivity. Qed.

End Pow2.

Section NearestInteger.

Lemma Q_as_quotient (q : Q) :
  (q * inject_Z (Z.pos (Qden q)) == inject_Z (Qnum q))%Q.
Proof.
  destruct q as [n d]. unfold Qeq, Qmult, inject_Z. cbn. lia.
Qed.

Lemma ilog2_spec (q : Q) :
  (0 < q)%Q -> (pow2 (ilog2 q) <= q)%Q /\ (q < pow2 (ilog2 q + 1))%Q.
Proof.
  intros Hq.
  assert (Hn : 0 < Qnum q) by (destruct q as [n d]; unfold Qlt in Hq; cbn in *; lia).
  set (a := Z.log2 (Qnum q)). set (b := Z.log2 (Z.pos (Qden q))).
  destruct (Z.log2_spec (Qnum q) Hn) as [Ha1 Ha2]. fold a in Ha1, Ha2.
  destruct (Z.log2_spec (Z.pos (Qden q)) ltac:(lia)) as [Hb1 Hb2].
  fold b in Hb1, Hb2.
  assert (Ha0 : 0 <= a) by apply Z.log2_nonneg.
  assert (Hb0 : 0 <= b) by apply Z.log2_nonneg.
  pose proof (Q_as_quotient q) as Hqd.
  set (D := inject_Z (Z.pos (Qden q))) in *.
  set (N := inject_Z (Qnum q)) in *.
  assert (HD : (0 < D)%Q) by (unfold D; change 0%Q with (inject_Z 0);
                              rewrite <- Zlt_Qlt; lia).
  assert (HN1 : (pow2 a <= N)%Q) by (rewrite pow2_Z by lia; unfold N;
                                     rewrite <- Zle_Qle; exact Ha1).
  assert (HN2 : (N < pow2 (a + 1))%Q).
  { rewrite pow2_Z by lia. unfold N. rewrite <- Zlt_Qlt.
    replace (a + 1) with (Z.succ a) by lia. exact Ha2. }
  assert (HD1 : (pow2 b <= D)%Q) by (rewrite pow2_Z by lia; unfold D;
                                     rewrite <- Zle_Qle; exact Hb1).
  assert (HD2 : (D < pow2 (b + 1))%Q).
  { rewrite pow2_Z by lia. unfold D. rewrite <- Zlt_Qlt.
    replace (b + 1) with (Z.succ b) by lia. exact Hb2. }
  assert (Hup : (q < pow2 (a - b + 1))%Q).
  { apply (Qmult_lt_r _ _ D HD). rewrite Hqd.
    eapply Qlt_le_trans; [exact HN2 |].
    replace (a + 1) with ((a - b + 1) + b) by lia. rewrite pow2_add.
    apply Qmult_le_l; [apply pow2_pos | exact HD1]. }
  assert (Hlo : (pow2 (a - b - 1) < q)%Q).
  { apply (Qmult_lt_r _ _ D HD). rewrite Hqd.
    eapply Qlt_le_trans; [| exact HN1].
    replace a with ((a - b - 1) + (b + 1)) at 2 by lia. rewrite pow2_add.
    apply Qmult_lt_l; [apply pow2_pos | exact HD2]. }
  unfold ilog2. fold a b.
  destruct (Qle_bool (pow2 (a - b)) q) eqn:E.
  - apply Qle_bool_iff in E. split; [exact E | exact Hup].
  - split; [apply Qlt_le_weak; exact Hlo |].
    replace (a - b - 1 + 1) with (a - b) by lia.
    apply Qnot_le_lt. intros H. apply Qle_bool_iff in H. congruence.
Qed.

Lemma ilog2_unique (q : Q) (l : Z) :
  (pow2 l <= q)%Q -> (q < pow2 (l + 1))%Q -> ilog2 q = l.
Proof.
  intros H1 H2.
  assert (Hq : (0 < q)%Q) by (eapply Qlt_le_trans; [apply pow2_pos | exact H1]).
  destruct (ilog2_spec q Hq) as [H3 H4].
  destruct (Z.lt_trichotomy (ilog2 q) l) as [Hlt | [E | Hgt]]; [| exact E |].
  - exfalso. assert (pow2 (ilog2 q + 1) <= pow2 l)%Q by (apply pow2_le; lia). lra.
  - exfalso. assert (pow2 (l + 1) <= pow2 (ilog2 q))%Q by (apply pow2_le; lia). lra.
Qed.

Lemma rne_near (q : Q) :
  (inject_Z (rne q) - q <= 1 # 2)%Q /\ (q - inject_Z (rne q) <= 1 # 2)%Q.
Proof.
  unfold rne. pose proof (Qfloor_le q) as Hlo. pose proof (Qlt_floor q) as Hhi.
  rewrite inject_Z_plus in Hhi. change (inject_Z 1) with 1%Q in Hhi.
  destruct (Qcompare_spec (q - inject_Z (Qfloor q)) (1 # 2)) as [E | E | E].
  - destruct (Z.even (Qfloor q)).
    + split; lra.
    + rewrite inject_Z_plus. change (inject_Z 1) with 1%Q. split; lra.
  - split; lra.
  - rewrite inject_Z_plus. change (inject_Z 1) with 1%Q. split; lra.
Qed.

Lemma rne_le (q : Q) (n : Z) : (q <= inject_Z n)%Q -> rne q <= n.
Proof.
  intros H. unfold rne.
  pose proof (Qfloor_le q) as Hlo.
  assert (Hf : Qfloor q <= n).
  { rewrite Zle_Qle. lra. }
  destruct (Z.eq_dec (Qfloor q) n) as [E | Hne].
  - assert (Hc : Qcompare (q - inject_Z (Qfloor q)) (1 # 2) = Lt).
    { apply (proj1 (Qlt_alt _ _)). rewrite E. lra. }
    rewrite Hc. lia.
  - destruct (Qcompare _ _); [destruct (Z.even _) | |]; lia.
Qed.

Lemma rne_ge (q : Q) (n : Z) : (inject_Z n <= q)%Q -> n <= rne q.
Proof.
  intros H. unfold rne.
  assert (Hf : n <= Qfloor q).
  { replace n with (Qfloor (inject_Z n)) by apply Qfloor_Z.
    apply Qfloor_resp_le. exact H. }
  destruct (Qcompare _ _); [destruct (Z.even _) | |]; lia.
Qed.

Lemma rne_Z (n : Z) : rne (inject_Z n) = n.
Proof.
  apply Z.le_antisymm; [apply rne_le | apply rne_ge]; apply Qle_refl.
Qed.

Lemma rne_comp (p q : Q) : (p == q)%Q -> rne p = rne q.
Proof.
  intros E. unfold rne. rewrite (Qfloor_comp _ _ E).
  assert (Ec : (p - inject_Z (Qfloor q) == q - inject_Z (Qfloor q))%Q)
    by (rewrite E; reflexivity).
  rewrite (Qcompare_comp _ _ Ec _ _ (Qeq_refl (1 # 2))). reflexivity.
Qed.

End NearestInteger.

Section Binary64.

Lemma ulp_exp_cases (x : Q) :
  (0 < x)%Q ->
  let e := ulp_exp x in
  -1074 <= e /\
  (x / pow2 e < pow2 53)%Q /\
  ((e = -1074 /\ (x / pow2 e < pow2 52)%Q) \/
   ((pow2 (e + 52) <= x)%Q /\ (pow2 52 <= x / pow2 e)%Q)).
Proof.
  intros Hx e. destruct (ilog2_spec x Hx) as [Hlo Hhi].
  pose proof (pow2_pos e) as HP.
  assert (Hup : forall k, ilog2 x + 1 <= e + k -> (x / pow2 e < pow2 k)%Q).
  { intros k Hk. apply Qlt_shift_div_r; [exact HP |].
    rewrite <- pow2_add. eapply Qlt_le_trans; [exact Hhi |].
    apply pow2_le. lia. }
  unfold ulp_exp in e.
  split; [lia |]. split; [apply Hup; lia |].
  destruct (Z.max_spec (ilog2 x - 52) (-1074)) as [[Hlt E] | [Hge E]]; fold e in E.
  - left. split; [exact E |]. apply Hup. lia.
  - right. rewrite E.
    replace (ilog2 x - 52 + 52) with (ilog2 x) by lia. split; [exact Hlo |].
    apply Qle_shift_div_l; [apply pow2_pos |].
    rewrite <- pow2_add. replace (52 + (ilog2 x - 52)) with (ilog2 x) by lia.
    exact Hlo.
Qed.

Lemma double_on_grid (y : Q) (e : Z) :
  is_double y -> (0 < y)%Q ->
  e = -1074 \/ (pow2 (e + 52) <= y)%Q ->
  exists N, (y == inject_Z N * pow2 e)%Q.
Proof.
  intros (m & e' & Ey & Hm & He') Hy Hgrid.
  assert (Hmpos : 0 < m).
  { destruct (Z_lt_le_dec 0 m) as [? | Hle]; [assumption | exfalso].
    assert (inject_Z m <= 0)%Q by (change 0%Q with (inject_Z 0); rewrite <- Zle_Qle; lia).
    pose proof (pow2_pos e') as HP.
    assert (inject_Z m * pow2 e' <= 0)%Q.
    { rewrite <- (Qmult_0_l (pow2 e')). apply Qmult_le_compat_r; [assumption | lra]. }
    lra. }
  destruct (Z_le_gt_dec e e') as [Hle | Hgt].
  - exists (m * 2 ^ (e' - e)). rewrite Ey, inject_Z_mult, <- pow2_Z by lia.
    rewrite <- Qmult_assoc, <- pow2_add. replace (e' - e + e) with e' by lia.
    reflexivity.
  - exfalso. destruct Hgrid as [-> | Hgrid]; [lia |].
    assert (Hm' : (inject_Z m < pow2 53)%Q).
    { rewrite pow2_Z by lia. rewrite <- Zlt_Qlt. lia. }
    assert (Hy' : (y < pow2 (53 + e'))%Q).
    { rewrite Ey, pow2_add. apply Qmult_lt_r; [apply pow2_pos | exact Hm']. }
    assert (pow2 (53 + e') <= pow2 (e + 52))%Q by (apply pow2_le; lia).
    lra.
Qed.

Lemma round_pos_nonneg (x : Q) : (0 < x)%Q -> (0 <= round_pos x)%Q.
Proof.
  intros Hx. unfold round_pos. pose proof (pow2_pos (ulp_exp x)) as HP.
  apply Qmult_le_0_compat; [| lra].
  change 0%Q with (inject_Z 0). rewrite <- Zle_Qle. apply rne_ge.
  change (inject_Z 0) with 0%Q. apply Qle_shift_div_l; [exact HP | lra].
Qed.

Lemma round_pos_le (x y : Q) :
  (0 < x)%Q -> (x <= y)%Q -> is_double y -> (round_pos x <= y)%Q.
Proof.
  intros Hx Hxy Hy. destruct (ulp_exp_cases x Hx) as (_ & _ & Hc).
  pose proof (pow2_pos (ulp_exp x)) as HP.
  destruct (double_on_grid y (ulp_exp x) Hy) as [N EN]; [lra | |].
  { destruct Hc as [[E _] | [H _]]; [left; exact E | right; lra]. }
  unfold round_pos. rewrite EN.
  apply Qmult_le_compat_r; [| lra].
  rewrite <- Zle_Qle. apply rne_le.
  apply Qle_shift_div_r; [exact HP |]. rewrite <- EN. exact Hxy.
Qed.

Lemma round_pos_ge (x y : Q) :
  (0 < x)%Q -> (0 < y)%Q -> (y <= x)%Q -> is_double y -> (y <= round_pos x)%Q.
Proof.
  intros Hx Hy0 Hxy Hy. destruct (ulp_exp_cases x Hx) as (_ & _ & Hc).
  pose proof (pow2_pos (ulp_exp x)) as HP.
  assert (Hgrid : forall N, (y == inject_Z N * pow2 (ulp_exp x))%Q ->
                            (y <= round_pos x)%Q).
  { intros N EN. unfold round_pos. rewrite EN.
    apply Qmult_le_compat_r; [| lra].
    rewrite <- Zle_Qle. apply rne_ge.
    apply Qle_shift_div_l; [exact HP |]. rewrite <- EN. exact Hxy. }
  destruct Hc as [[E _] | [Hlo Hs]].
  - destruct (double_on_grid y (ulp_exp x) Hy Hy0) as [N EN]; [left; exact E |].
    eapply Hgrid; eauto.
  - destruct (Qlt_le_dec y (pow2 (ulp_exp x + 52))) as [Hsmall | Hbig].
    + apply Qlt_le_weak. eapply Qlt_le_trans; [exact Hsmall |].
      unfold round_pos. rewrite pow2_add, Qmult_comm.
      apply Qmult_le_compat_r; [| lra].
      rewrite pow2_Z by lia. rewrite <- Zle_Qle. apply rne_ge.
      rewrite <- pow2_Z by lia. exact Hs.
    + destruct (double_on_grid y (ulp_exp x) Hy Hy0) as [N EN]; [right; exact Hbig |].
      eapply Hgrid; eauto.
Qed.

Lemma round_pos_double (x : Q) : (0 < x)%Q -> is_double (round_pos x).
Proof.
  intros Hx. destruct (ulp_exp_cases x Hx) as (He & Hup & _).
  set (e := ulp_exp x) in *. set (M := rne (x / pow2 e)).
  pose proof (pow2_pos e) as HP.
  assert (HM0 : 0 <= M).
  { apply rne_ge. change (inject_Z 0) with 0%Q.
    apply Qle_shift_div_l; [exact HP | lra]. }
  assert (HM1 : M <= 2 ^ 53).
  { apply rne_le. rewrite <- pow2_Z by lia. lra. }
  unfold round_pos. fold e M.
  destruct (Z.eq_dec M (2 ^ 53)) as [E | Hne].
  - exists (2 ^ 52), (e + 1). split; [| split; [reflexivity | lia]].
    rewrite E, pow2_add. rewrite <- !pow2_Z by lia.
    change (pow2 53) with (pow2 52 * pow2 1)%Q at 1. ring.
  - exists M, e. split; [reflexivity |]. split; [lia | exact He].
Qed.

Lemma round_pos_id (x : Q) : (0 < x)%Q -> is_double x -> (round_pos x == x)%Q.
Proof.
  intros Hx Hd. apply Qle_antisym.
  - apply round_pos_le; [exact Hx | apply Qle_refl | exact Hd].
  - apply round_pos_ge; [exact Hx | exact Hx | apply Qle_refl | exact Hd].
Qed.

Lemma round_pos_near (x : Q) :
  (0 < x)%Q ->
  (round_pos x - x <= pow2 (ulp_exp x - 1))%Q /\
  (x - round_pos x <= pow2 (ulp_exp x - 1))%Q.
Proof.
  intros Hx. set (e := ulp_exp x). pose proof (pow2_pos e) as HP.
  destruct (rne_near (x / pow2 e)) as [H1 H2].
  assert (Ex : (x == (x / pow2 e) * pow2 e)%Q) by (field; lra).
  assert (Eh : (pow2 (e - 1) == (1 # 2) * pow2 e)%Q).
  { replace (e - 1) with (-1 + e) by lia. rewrite pow2_add. reflexivity. }
  unfold round_pos. fold e. rewrite Eh.
  set (M := inject_Z (rne (x / pow2 e))) in *. set (s := (x / pow2 e)%Q) in *.
  split.
  - setoid_replace (M * pow2 e - x)%Q with ((M - s) * pow2 e)%Q using relation Qeq
      by (rewrite Ex at 1; ring).
    apply Qmult_le_compat_r; lra.
  - setoid_replace (x - M * pow2 e)%Q with ((s - M) * pow2 e)%Q using relation Qeq
      by (rewrite Ex at 1; ring).
    apply Qmult_le_compat_r; lra.
Qed.

End Binary64.

Section Round64.

Lemma is_double_comp (x y : Q) : (x == y)%Q -> is_double x -> is_double y.
Proof. intros E (m & e & Ex & H). exists m, e. rewrite <- E. auto. Qed.

Lemma is_double_opp (x : Q) : is_double x -> is_double (- x).
Proof.
  intros (m & e & Ex & Hm & He). exists (- m), e.
  split; [rewrite Ex, inject_Z_opp; ring |]. split; [lia | exact He].
Qed.

Lemma is_double_Z (n : Z) : Z.abs n < 2 ^ 53 -> is_double (inject_Z n).
Proof.
  intros H. exists n, 0. split; [rewrite pow2_0; ring |]. split; [exact H | lia].
Qed.

Lemma is_double_0 : is_double 0.
Proof. apply (is_double_Z 0). reflexivity. Qed.

Lemma round64_comp (x y : Q) : (x == y)%Q -> round64 x = round64 y.
Proof. intros E. unfold round64. rewrite (Qred_complete _ _ E). reflexivity. Qed.

Lemma round64_cases (x : Q) :
  ((x == 0)%Q /\ round64 x = 0%Q) \/
  ((0 < x)%Q /\ exists x', (x' == x)%Q /\ round64 x = round_pos x') \/
  ((x < 0)%Q /\ exists x', (x' == - x)%Q /\ round64 x = (- round_pos x')%Q).
Proof.
  unfold round64. pose proof (Qred_correct x) as E.
  destruct (Qcompare_spec (Qred x) 0) as [H | H | H].
  - left. split; [rewrite <- E; exact H | reflexivity].
  - right. right. split; [rewrite <- E; exact H |].
    exists (- Qred x)%Q. split; [rewrite E; reflexivity | reflexivity].
  - right. left. split; [rewrite <- E; exact H |].
    exists (Qred x). split; [exact E | reflexivity].
Qed.

Lemma round64_double (x : Q) : is_double (round64 x).
Proof.
  destruct (round64_cases x) as [[_ ->] | [[Hx (x' & E & ->)] | [Hx (x' & E & ->)]]].
  - apply is_double_0.
  - apply round_pos_double. rewrite E. exact Hx.
  - apply is_double_opp, round_pos_double. rewrite E. lra.
Qed.

Lemma round64_le (x y : Q) : (x <= y)%Q -> is_double y -> (round64 x <= y)%Q.
Proof.
  intros Hxy Hy.
  destruct (round64_cases x) as [[E ->] | [[Hx (x' & E & ->)] | [Hx (x' & E & ->)]]].
  - rewrite <- E. exact Hxy.
  - apply round_pos_le; [rewrite E; exact Hx | rewrite E; exact Hxy | exact Hy].
  - assert (Hx' : (0 < x')%Q) by (rewrite E; lra).
    destruct (Qlt_le_dec y 0) as [Hneg | Hpos].
    + assert (- y <= round_pos x')%Q.
      { apply round_pos_ge; [exact Hx' | lra | rewrite E; lra |].
        apply is_double_opp. exact Hy. }
      lra.
    + pose proof (round_pos_nonneg x' Hx'). lra.
Qed.

Lemma round64_ge (x y : Q) : (y <= x)%Q -> is_double y -> (y <= round64 x)%Q.
Proof.
  intros Hxy Hy.
  destruct (round64_cases x) as [[E ->] | [[Hx (x' & E & ->)] | [Hx (x' & E & ->)]]].
  - rewrite <- E. exact Hxy.
  - assert (Hx' : (0 < x')%Q) by (rewrite E; exact Hx).
    destruct (Qlt_le_dec 0 y) as [Hpos | Hneg].
    + apply round_pos_ge; [exact Hx' | exact Hpos | rewrite E; exact Hxy | exact Hy].
    + pose proof (round_pos_nonneg x' Hx'). lra.
  - assert (Hx' : (0 < x')%Q) by (rewrite E; lra).
    assert (round_pos x' <= - y)%Q.
    { apply round_pos_le; [exact Hx' | rewrite E; lra |].
      apply is_double_opp. exact Hy. }
    lra.
Qed.

Lemma round64_id (x : Q) : is_double x -> (round64 x == x)%Q.
Proof.
  intros H. apply Qle_antisym;
    [apply round64_le | apply round64_ge]; (apply Qle_refl || exact H).
Qed.

Lemma round64_nonneg (x : Q) : (0 <= x)%Q -> (0 <= round64 x)%Q.
Proof. intros H. apply round64_ge; [exact H | apply is_double_0]. Qed.

Lemma round64_nonpos (x : Q) : (x <= 0)%Q -> (round64 x <= 0)%Q.
Proof. intros H. apply round64_le; [exact H | apply is_double_0]. Qed.

(** Below [2^30] the rounding moves a number by at most [2^-24]. *)
Lemma round64_near (x : Q) :
  (0 <= x)%Q -> (x < pow2 30)%Q ->
  (round64 x - x <= pow2 (-24))%Q /\ (x - round64 x <= pow2 (-24))%Q.
Proof.
  intros H0 Hx.
  destruct (round64_cases x) as [[E ->] | [[Hp (x' & E & ->)] | [Hn _]]];
    [| | lra].
  - pose proof (pow2_pos (-24)). rewrite E. split; lra.
  - assert (Hx' : (0 < x')%Q) by (rewrite E; exact Hp).
    destruct (round_pos_near x' Hx') as [H1 H2].
    destruct (ilog2_spec x' Hx') as [Hlo _].
    assert (Hl : ilog2 x' < 30).
    { apply (Qpower_lt_compat_l_inv 2); [| reflexivity].
      fold (pow2 (ilog2 x')) (pow2 30). lra. }
    assert (pow2 (ulp_exp x' - 1) <= pow2 (-24))%Q.
    { apply pow2_le. unfold ulp_exp. lia. }
    rewrite <- E. split; lra.
Qed.

End Round64.

(** Two numbers as the processor has them: a tenth and a third. *)
Lemma round64_tenth :
  (round64 (1 # 10) == 3602879701896397 # 36028797018963968)%Q.
Proof. vm_compute. reflexivity. Qed.

Lemma round64_third :
  (round64 (1 # 3) == 6004799503160661 # 18014398509481984)%Q.
Proof. vm_compute. reflexivity. Qed.

Section Timespec.

Lemma Qtrunc_floor (q : Q) : (0 <= q)%Q -> Qtrunc q = Qfloor q.
Proof.
  destruct q as [n d]. unfold Qle, Qtrunc, Qfloor. cbn. intros H.
  apply Z.quot_div_nonneg; lia.
Qed.

(** The whole seconds of a [double] that is not negative are a [double],
    and so is what is left, which stays one last place below 1. *)
Lemma double_floor (x : Q) :
  is_double x -> (0 <= x)%Q ->
  is_double (inject_Z (Qfloor x)) /\
  is_double (x - inject_Z (Qfloor x)) /\
  (x - inject_Z (Qfloor x) <= 1 - pow2 (-53))%Q.
Proof.
  intros (m & e & Ex & Hm & He) Hx.
  pose proof (pow2_pos e) as HP.
  assert (Hm0 : 0 <= m).
  { destruct (Z_lt_le_dec m 0) as [Hneg | ?]; [exfalso | assumption].
    assert (inject_Z m <= -1)%Q by (change (-1)%Q with (inject_Z (-1));
                                    rewrite <- Zle_Qle; lia).
    assert (inject_Z m * pow2 e <= -1 * pow2 e)%Q
      by (apply Qmult_le_compat_r; lra).
    lra. }
  assert (Hhalf : (pow2 (-1) == 1 # 2)%Q) by reflexivity.
  assert (Hsmall : (pow2 (-53) <= pow2 (-1))%Q) by (apply pow2_le; lia).
  destruct (Z_le_gt_dec 0 e) as [Hpos | Hneg].
  - assert (En : (x == inject_Z (m * 2 ^ e))%Q).
    { rewrite Ex, inject_Z_mult, <- pow2_Z by lia. reflexivity. }
    rewrite (Qfloor_comp _ _ En), Qfloor_Z.
    assert (E0 : (x - inject_Z (m * 2 ^ e) == 0)%Q) by (rewrite En; ring).
    split; [apply (is_double_comp x); [exact En | exists m, e; auto] |].
    split; [apply (is_double_comp 0); [rewrite E0; reflexivity | apply is_double_0] |].
    rewrite E0. lra.
  - set (k := - e). assert (Hk : 0 < k) by (unfold k; lia).
    assert (HK : 0 < 2 ^ k) by (apply Z.pow_pos_nonneg; lia).
    assert (EP : (pow2 e * pow2 k == 1)%Q).
    { rewrite <- pow2_add. replace (e + k) with 0 by (unfold k; lia). reflexivity. }
    assert (Ek : (pow2 k == inject_Z (2 ^ k))%Q) by (apply pow2_Z; lia).
    assert (Eq : (x == m # Z.to_pos (2 ^ k))%Q).
    { rewrite Ex, (Qmake_Qdiv m), Z2Pos.id by exact HK.
      rewrite <- Ek. unfold Qdiv. apply Qmult_comp; [reflexivity |].
      unfold pow2. replace e with (- k) by (unfold k; lia). apply Qpower_opp. }
    assert (Ef : Qfloor x = m / 2 ^ k).
    { rewrite (Qfloor_comp _ _ Eq). unfold Qfloor. rewrite Z2Pos.id by exact HK.
      reflexivity. }
    rewrite Ef.
    pose proof (Z.div_mod m (2 ^ k) ltac:(lia)) as Hdm.
    pose proof (Z.mod_pos_bound m (2 ^ k) HK) as Hr.
    assert (Hf : 0 <= m / 2 ^ k <= m).
    { split; [apply Z.div_pos; lia |].
      apply Z.div_le_upper_bound; [lia | nia]. }
    assert (Efrac : (x - inject_Z (m / 2 ^ k)
                     == inject_Z (m mod 2 ^ k) * pow2 e)%Q).
    { rewrite Ex. rewrite Hdm at 1.
      rewrite inject_Z_plus, inject_Z_mult, <- Ek.
      setoid_replace ((pow2 k * inject_Z (m / 2 ^ k) + inject_Z (m mod 2 ^ k)) * pow2 e)%Q
        with (inject_Z (m / 2 ^ k) * (pow2 e * pow2 k) + inject_Z (m mod 2 ^ k) * pow2 e)%Q using relation Qeq
        by ring.
      rewrite EP. ring. }
    split; [apply is_double_Z; lia |].
    split.
    { apply (is_double_comp (inject_Z (m mod 2 ^ k) * pow2 e)%Q);
        [rewrite Efrac; reflexivity |].
      exists (m mod 2 ^ k), e. split; [reflexivity |]. split; [lia | exact He]. }
    rewrite Efrac.
    destruct (Z_le_gt_dec k 53) as [Hle | Hgt].
    + assert (Hr' : (inject_Z (m mod 2 ^ k) <= pow2 k - 1)%Q).
      { rewrite Ek.
        assert (inject_Z (m mod 2 ^ k) <= inject_Z (2 ^ k - 1))%Q
          by (rewrite <- Zle_Qle; lia).
        unfold Z.sub in H. rewrite inject_Z_plus, inject_Z_opp in H.
        change (inject_Z 1) with 1%Q in H. lra. }
      assert (inject_Z (m mod 2 ^ k) * pow2 e <= (pow2 k - 1) * pow2 e)%Q
        by (apply Qmult_le_compat_r; lra).
      assert (pow2 (-53) <= pow2 e)%Q by (apply pow2_le; unfold k in Hle; lia).
      setoid_replace ((pow2 k - 1) * pow2 e)%Q with (pow2 e * pow2 k - pow2 e)%Q using relation Qeq
        in H by ring.
      lra.
    + assert (Hr' : (inject_Z (m mod 2 ^ k) <= pow2 53)%Q).
      { rewrite pow2_Z by lia. rewrite <- Zle_Qle. lia. }
      assert (inject_Z (m mod 2 ^ k) * pow2 e <= pow2 53 * pow2 e)%Q
        by (apply Qmult_le_compat_r; lra).
      assert (pow2 (53 + e) <= pow2 (-1))%Q by (apply pow2_le; unfold k in Hgt; lia).
      rewrite <- pow2_add in H. lra.
Qed.

(** What the conversion to a [struct timespec] makes of a slack that is
    not negative: whole seconds, and nanoseconds below a second; the
    request is the slack up to one nanosecond and the last place of the
    product. *)
Lemma timespec_of_bounds (slack : Q) :
  is_double slack -> (0 <= slack)%Q ->
  tv_sec (timespec_of slack) = Qfloor slack /\
  0 <= tv_sec (timespec_of slack) /\
  0 <= tv_nsec (timespec_of slack) < STRESS_NANOSECOND /\
  (timespec_seconds (timespec_of slack)
   <= slack + (1 # 16777216) / inject_Z STRESS_NANOSECOND)%Q /\
  (slack - (1 + (1 # 16777216)) / inject_Z STRESS_NANOSECOND
   < timespec_seconds (timespec_of slack))%Q.
Proof.
  intros Hd H. unfold timespec_of, timespec_seconds. cbn [tv_sec tv_nsec].
  rewrite (Qtrunc_floor slack H).
  pose proof (Qfloor_le slack) as Hlo.
  set (s := Qfloor slack) in *.
  assert (Hs : 0 <= s).
  { unfold s. replace 0 with (Qfloor 0) by reflexivity. apply Qfloor_resp_le. exact H. }
  destruct (double_floor slack Hd H) as (Hds & Hdf & Hf1). fold s in Hds, Hdf, Hf1.
  assert (Ens : is_double (inject_Z STRESS_NANOSECOND)) by (apply is_double_Z; reflexivity).
  unfold double_mul, double_sub, double_of_int.
  set (f := (slack - inject_Z s)%Q) in *.
  assert (E : round64 (round64 (slack - round64 (inject_Z s))
                       * round64 (inject_Z STRESS_NANOSECOND))
              = round64 (f * inject_Z STRESS_NANOSECOND)).
  { apply round64_comp.
    rewrite (round64_id _ Ens).
    rewrite (round64_comp (slack - round64 (inject_Z s)) f)
      by (unfold f; rewrite (round64_id _ Hds); reflexivity).
    rewrite (round64_id _ Hdf). reflexivity. }
  rewrite E. clear E.
  change (inject_Z STRESS_NANOSECOND) with (1000000000 # 1)%Q.
  assert (Hp53 : (pow2 (-53) == 1 # 9007199254740992)%Q) by reflexivity.
  assert (Hp24 : (pow2 (-24) == 1 # 16777216)%Q) by reflexivity.
  assert (Hp30 : (pow2 30 == 1073741824 # 1)%Q) by reflexivity.
  assert (Hf0 : (0 <= f)%Q) by (unfold f; lra).
  set (x := (f * (1000000000 # 1))%Q).
  assert (Hx0 : (0 <= x)%Q) by (unfold x; lra).
  assert (Hx1 : (x < pow2 30)%Q) by (unfold x; lra).
  destruct (round64_near x Hx0 Hx1) as [Hn1 Hn2].
  pose proof (round64_nonneg x Hx0) as Hy0.
  set (y := round64 x) in *.
  rewrite (Qtrunc_floor y Hy0).
  pose proof (Qfloor_le y) as Hylo. pose proof (Qlt_floor y) as Hyhi.
  set (ns := Qfloor y) in *.
  rewrite inject_Z_plus in Hyhi. change (inject_Z 1) with 1%Q in Hyhi.
  assert (Hns : 0 <= ns).
  { unfold ns. replace 0 with (Qfloor 0) by reflexivity. apply Qfloor_resp_le. exact Hy0. }
  assert (Hns' : ns < 1000000000).
  { rewrite Zlt_Qlt. change (inject_Z 1000000000) with (1000000000 # 1)%Q.
    unfold x in *. lra. }
  split; [reflexivity |]. split; [exact Hs |].
  split; [unfold STRESS_NANOSECOND; lia |].
  unfold Qdiv. change (/ (1000000000 # 1))%Q with (1 # 1000000000)%Q.
  unfold x, f in *. split; lra.
Qed.

End Timespec.

Section Families.

Ltac pick_family :=
  cbn [func_rate rdwr];
  lazymatch goal with
  | |- exists v, stress_memrate_memset_rate = _ /\ _ => exists MemsetRate
  | |- exists v, ?f = _ /\ _ =>
      let g := eval red in f in
      lazymatch g with
      | stress_memrate_read_rate ?W ?pf => exists (ReadRate W pf)
      | stress_memrate_write_rate ?W => exists (WriteRate W)
      | stress_memrate_write_nt_rate ?W => exists (WriteNtRate W)
      | stress_memrate_stos_rate ?wr => exists (StosRate wr)
      end
  end;
  split; [reflexivity |];
  split; [intros w Hs; cbn [rate_limited_ok]; try split;
          first [lia | exact Hs | exact I]
         | intros c; reflexivity].

(** The rate-limited entry point of every entry of every build belongs to
    one of the five families, with a width of the catalogue and with the
    target of its direction. *)
Lemma memrate_info_rate_limited (b : build_config) :
  Forall (fun info =>
            exists v, func_rate info = rate_limited_func v /\
                      (forall w, sse2 w = true -> rate_limited_ok v w) /\
                      (forall c, rate_limited_target v c
                                 = if rdwr info =? MR_RD then memrate_rd_mbs c
                                   else memrate_wr_mbs c))
         (memrate_info b).
Proof.
  unfold memrate_info.
  repeat first
    [ apply Forall_app; split
    | apply Forall_ifdef
    | apply Forall_nil_2
    | apply Forall_cons; split; [pick_family |] ].
Qed.

Lemma rate_limited_chunk_bounds (v : rate_limited) c w :
  rate_limited_ok v w -> mapped_context c ->
  0 < rate_limited_chunk v c <= memrate_bytes c.
Proof.
  intros Hok Hc.
  assert (Hsweep : forall W, 0 < W <= 128 ->
                             0 < sweep_chunk_bytes W c <= memrate_bytes c).
  { intros W HW. destruct Hc as (_ & Hb & _). unfold MIN_MEMRATE_BYTES, KB in Hb.
    destruct (stress_memrate_loops_bounds c (W * 16)) as [H1 H2]; [lia | lia |].
    unfold sweep_chunk_bytes, wrap64.
    rewrite Z.mod_small; [split; nia | split; nia]. }
  destruct v as [W pf | W | W | wr |]; cbn [rate_limited_chunk rate_limited_ok] in *.
  - apply Hsweep. exact Hok.
  - apply Hsweep. exact Hok.
  - apply Hsweep. tauto.
  - destruct (fill_chunk_bounds c Hc). lia.
  - destruct (fill_chunk_bounds c Hc). lia.
Qed.



End Families.

(* ------------------------------------------------------------------ *)
(** ** The budget and the requests *)
(* ------------------------------------------------------------------ *)

Section Budget.





Lemma chunk_duration_nonneg (chunk mbs : Z) :
  0 <= chunk -> 0 <= mbs -> (0 <= chunk_duration chunk mbs)%Q.
Proof.
  intros Hc Hm. unfold chunk_duration, double_div, double_mul, double_of_int.
  assert (HZ : forall z, 0 <= z -> (0 <= round64 (inject_Z z))%Q).
  { intros z Hz. apply round64_nonneg. change 0%Q with (inject_Z 0).
    rewrite <- Zle_Qle. exact Hz. }
  apply round64_nonneg. apply Qmult_le_0_compat; [apply HZ; exact Hc |].
  apply Qinv_le_0_compat. apply round64_nonneg.
  apply Qmult_le_0_compat; apply HZ; [unfold MB; lia | exact Hm].
Qed.

End Budget.



(** The final chunk is charged like a full one: on a buffer of
    1 MiB + 4 KiB filled at 3 MB/s under a clock that stands still, the
    budget after the 4 KiB tail is that of two chunks of 1 MiB. *)
Lemma final_partial_chunk_is_charged_in_full :
  let c := context_at 4096 (MB + 4096) UNLIMITED 3 in
  exists w',
    stress_memrate_memset_rate c (frozen_world 0 true) = Some ((1028, true), w') /\
    touched w' = [Store 4096 MB; Store (4096 + MB) 4096] /\
    naps w' = [mk_timespec 0 333333333; mk_timespec 0 666666666].
Proof.
  intros c. eexists. split; [vm_compute; reflexivity |]. split; reflexivity.
Qed.

(** The rounding shows in the requests.  Six chunks of 1 MiB at 3 MB/s
    under a clock that stands still: a third of a second is not a
    [double], the budget after six chunks is one last place short of two
    seconds, and the last request is one nanosecond short of them. *)
Lemma six_chunks_at_three_megabytes :
  budget_naps 0 0 (chunk_duration MB 3) [0; 0; 0; 0; 0; 0]%Q
  = [mk_timespec 0 333333333; mk_timespec 0 666666666; mk_timespec 1 0;
     mk_timespec 1 333333333; mk_timespec 1 666666666;
     mk_timespec 1 999999999].
Proof. vm_compute. reflexivity. Qed.

(** And 6091 chunks of 1 MiB at 97 MB/s: the budget the code runs up is
    above the quotient 6091/97 of the reals, and so is the request that
    is made of it. *)
Lemma budget_of_6091_chunks_at_97_megabytes :
  let total := budget_after 0 (chunk_duration MB 97) (Z.to_nat 6091) in
  (total == 17260632280373 # 274877906944)%Q /\
  (6091 # 97 < total)%Q /\
  timespec_of total = mk_timespec 62 793814433.
Proof. vm_compute. repeat split; reflexivity. Qed.

(* ------------------------------------------------------------------ *)
(** ** The rounding of the buffer size *)
(* ------------------------------------------------------------------ *)

Section Rounding.

(** [x & ~1023] on 64 bits clears the ten low bits. *)
Lemma land_not_1023 (x : Z) :
  0 <= x < 2 ^ 64 ->
  Z.land x (Z.lxor 1023 (Z.ones 64)) = x / 1024 * 1024.
Proof.
  intros Hx.
  change (Z.lxor 1023 (Z.ones 64)) with (Z.shiftl (Z.ones 54) 10).
  change 1024 with (2 ^ 10).
  rewrite <- Z.shiftr_div_pow2, <- Z.shiftl_mul_pow2 by lia.
  apply Z.bits_inj'. intros n Hn.
  rewrite Z.land_spec.
  destruct (Z.lt_ge_cases n 10) as [Hlt | Hge].
  - rewrite !Z.shiftl_spec_low by lia. apply andb_false_r.
  - rewrite !Z.shiftl_spec by lia. rewrite Z.shiftr_spec by lia.
    replace (n - 10 + 10) with n by lia.
    destruct (Z.lt_ge_cases n 64) as [Hlt | Hge'].
    + rewrite Z.ones_spec_low by lia. apply andb_true_r.
    + rewrite Z.ones_spec_high by lia. rewrite andb_false_r.
      symmetry. apply Z.bits_above_log2; [lia |].
      destruct (Z.eq_dec x 0) as [-> | Hne]; [cbn; lia |].
      apply Z.log2_lt_pow2; [lia |].
      eapply Z.lt_le_trans; [apply Hx |]. apply Z.pow_le_mono_r; lia.
Qed.

End Rounding.

(** X1: the size the child works on is the requested size rounded up to
    the next multiple of 1024 bytes: it is a multiple of 1024, it is not
    below the request and exceeds it by less than 1024, and a request
    that is a multiple of 1024 is kept.  With a request of at least 4 KiB
    the context is, once the buffer is mapped, that of a valid run. *)
Theorem memrate_bytes_is_rounded_up
    (b : build_config) (opts : gmap string setting) (v : Z) :
  opts !! "memrate-bytes" = Some (SettingUint64 v) ->
  0 <= v <= 2 ^ 64 - 1024 ->
  let r := memrate_bytes (stress_memrate_context b opts) in
  r mod 1024 = 0 /\
  v <= r < v + 1024 /\
  (v mod 1024 = 0 -> r = v) /\
  (MIN_MEMRATE_BYTES <= v ->
   forall buffer, mapped_context (set_buffer buffer (stress_memrate_context b opts))).
Proof.
  intros Hopt Hv r.
  assert (Er : r = (v + 1023) / 1024 * 1024).
  { unfold r. cbn [stress_memrate_context memrate_bytes].
    unfold stress_get_setting_uint64. rewrite Hopt.
    unfold wrap64. rewrite Z.mod_small by lia.
    apply land_not_1023. lia. }
  pose proof (Z.div_mod (v + 1023) 1024 ltac:(lia)) as Hdm.
  pose proof (Z.mod_pos_bound (v + 1023) 1024 ltac:(lia)) as Hm.
  assert (Hmod : r mod 1024 = 0) by (rewrite Er; apply Z.mod_mul; lia).
  assert (Hrange : v <= r < v + 1024) by lia.
  split; [exact Hmod |]. split; [exact Hrange |]. split.
  - intros Hvm. apply Z.mod_divide in Hvm as [q Hq]; [| lia].
    apply Z.mod_divide in Hmod as [q' Hq']; [| lia]. lia.
  - intros Hmin buffer. unfold MIN_MEMRATE_BYTES, KB in Hmin.
    unfold mapped_context, MIN_MEMRATE_BYTES, KB.
    cbn [set_buffer end_ start memrate_bytes]. fold r.
    split; [reflexivity |]. split; [lia | exact Hmod].
Qed.

Lemma memrate_bytes_is_rounded_up_witness :
  memrate_bytes
    (stress_memrate_context x86_64_build
       {[ "memrate-bytes"%string := SettingUint64 5000 ]}) = 5120.
Proof.
  destruct (memrate_bytes_is_rounded_up x86_64_build
              {[ "memrate-bytes"%string := SettingUint64 5000 ]} 5000)
    as (Hm & Hr & _); [reflexivity | lia |].
  reflexivity.
Defined.

(* ------------------------------------------------------------------ *)
(** ** The memory traffic of the loops *)
(* ------------------------------------------------------------------ *)

Section Traffic.

Lemma stride_count_nothing (step n : Z) :
  0 < step -> n <= 0 -> stride_count step n = 0%nat.
Proof.
  intros Hs Hn. unfold stride_count. rewrite Z.max_l by lia.
  rewrite Z.div_small by lia. reflexivity.
Qed.

Lemma stride_count_step (step n : Z) :
  0 < step -> 0 < n -> stride_count step n = S (stride_count step (n - step)).
Proof.
  intros Hs Hn. unfold stride_count. rewrite (Z.max_r 0 n) by lia.
  destruct (Z.le_gt_cases n step) as [Hle | Hgt].
  - rewrite (Z.max_l 0 (n - step)) by lia.
    replace (n + step - 1) with (1 * step + (n - 1)) by lia.
    rewrite Z.div_add_l, (Z.div_small (n - 1)), (Z.div_small (0 + step - 1)) by lia.
    reflexivity.
  - rewrite (Z.max_r 0 (n - step)) by lia.
    replace (n + step - 1) with (1 * step + (n - step + step - 1)) by lia.
    rewrite Z.div_add_l by lia.
    assert (0 <= (n - step + step - 1) / step) by (apply Z.div_pos; lia).
    lia.
Qed.

Lemma swept_stride_count (step n : Z) :
  0 < step -> swept step n = Z.of_nat (stride_count step n) * step.
Proof.
  intros Hs. unfold swept, stride_count.
  rewrite Z2Nat.id; [reflexivity |]. apply Z.div_pos; lia.
Qed.

Lemma stride_count_exact (step n : Z) :
  0 < step -> 0 <= n -> n mod step = 0 -> stride_count step n = Z.to_nat (n / step).
Proof.
  intros Hs Hn Hm. unfold stride_count. rewrite Z.max_r by lia. f_equal.
  apply Z.mod_divide in Hm as [q ->]; [| lia].
  replace (q * step + step - 1) with (q * step + (step - 1)) by lia.
  rewrite Z.div_add_l, (Z.div_small (step - 1)), Z.div_mul by lia. lia.
Qed.

Lemma strides_cons (ptr step : Z) (n : nat) :
  strides ptr step (S n) = ptr :: strides (ptr + step) step n.
Proof.
  unfold strides. cbn [seq List.map]. f_equal; [lia |].
  rewrite <- seq_shift, List.map_map. apply List.map_ext. intros k. lia.
Qed.

Lemma strides_app (ptr step : Z) (n m : nat) :
  strides ptr step (n + m)
  = strides ptr step n ++ strides (ptr + Z.of_nat n * step) step m.
Proof.
  revert ptr. induction n as [| n IH]; intros ptr.
  - change (strides ptr step 0) with (@nil Z). cbn [Nat.add app].
    replace (ptr + Z.of_nat 0 * step) with ptr by lia. reflexivity.
  - cbn [Nat.add]. rewrite !strides_cons, IH. cbn [app].
    replace (ptr + step + Z.of_nat n * step) with (ptr + Z.of_nat (S n) * step)
      by lia.
    reflexivity.
Qed.

Lemma with_traffic_nil (w : world) : with_traffic w [] = w.
Proof. destruct w. unfold with_traffic. cbn. rewrite app_nil_r. reflexivity. Qed.

Lemma with_traffic_app (w : world) (l1 l2 : list access) :
  with_traffic (with_traffic w l1) l2 = with_traffic w (l1 ++ l2).
Proof. unfold with_traffic. cbn. rewrite app_assoc. reflexivity. Qed.

(** The flush evicts the lines at [start], [start + 64], ... below [end]
    and does nothing else. *)
Lemma flush_for_traffic (fuel : nat) (a e : Z) (w : world) :
  (Z.to_nat (e - a) < fuel)%nat ->
  flush_for fuel a e w
  = Some (tt, with_traffic w (List.map Clflush (strides a 64 (stride_count 64 (e - a))))).
Proof.
  revert a w. induction fuel as [| fuel IH]; intros a w Hf; [lia |].
  cbn [flush_for]. destruct (Z.ltb_spec a e) as [Hlt | Hge].
  - unfold bind, touch. fold (with_traffic w [Clflush a]).
    rewrite IH by lia. rewrite with_traffic_app.
    rewrite (stride_count_step 64 (e - a)) by lia. rewrite strides_cons.
    replace (e - (a + 64)) with (e - a - 64) by lia. reflexivity.
  - rewrite stride_count_nothing by lia. cbn. rewrite with_traffic_nil. reflexivity.
Qed.

Lemma init_data_for_traffic (fuel : nat) (a e : Z) (w : world) :
  (Z.to_nat (e - a) < fuel)%nat ->
  init_data_for fuel a e w
  = Some (tt, with_traffic w (List.map (fun p => Store p 4)
                                       (strides a 4 (stride_count 4 (e - a))))).
Proof.
  revert a w. induction fuel as [| fuel IH]; intros a w Hf; [lia |].
  cbn [init_data_for]. destruct (Z.ltb_spec a e) as [Hlt | Hge].
  - unfold bind, touch. fold (with_traffic w [Store a 4]).
    rewrite IH by lia. rewrite with_traffic_app.
    rewrite (stride_count_step 4 (e - a)) by lia. rewrite strides_cons.
    replace (e - (a + 4)) with (e - a - 4) by lia. reflexivity.
  - rewrite stride_count_nothing by lia. cbn. rewrite with_traffic_nil. reflexivity.
Qed.

(** A sweep carries out the body at [ptr], [ptr + 16 W], ... below [end]
    and does nothing else. *)
Lemma sweep_traffic (fuel : nat) (body : Z -> list access) (W ptr e : Z) (w : world) :
  0 < W -> (Z.to_nat (e - ptr) < fuel)%nat ->
  sweep fuel body W ptr e w
  = Some (ptr + swept (16 * W) (e - ptr),
          with_traffic w (flat_map body
                            (strides ptr (16 * W) (stride_count (16 * W) (e - ptr))))).
Proof.
  intros HW. revert ptr w. induction fuel as [| fuel IH]; intros ptr w Hf; [lia |].
  cbn [sweep]. destruct (Z.ltb_spec ptr e) as [Hlt | Hge].
  - unfold bind, touch. fold (with_traffic w (body ptr)).
    rewrite IH by lia. rewrite with_traffic_app.
    rewrite (stride_count_step (16 * W) (e - ptr)) by lia. rewrite strides_cons.
    rewrite (swept_step (16 * W) (e - ptr)) by lia.
    replace (e - (ptr + 16 * W)) with (e - ptr - 16 * W) by lia.
    cbn [flat_map]. rewrite Z.add_assoc. reflexivity.
  - rewrite stride_count_nothing, swept_nothing by lia.
    cbn. rewrite with_traffic_nil, Z.add_0_r. reflexivity.
Qed.

Lemma seq_offset (k n : nat) :
  seq k n = List.map (fun j => (k + j)%nat) (seq 0 n).
Proof.
  revert k. induction n as [| n IH]; intros k; [reflexivity |].
  cbn [seq List.map]. rewrite Nat.add_0_r. f_equal.
  rewrite (IH (S k)), (IH 1%nat), List.map_map.
  apply List.map_ext. intros j. lia.
Qed.

(** Sixteen elements per step, step after step, are the elements of the
    buffer one after the other. *)
Lemma unrolled16_elements (op : Z -> Z -> access) (W ptr : Z) (n : nat) :
  flat_map (unrolled16 op W) (strides ptr (16 * W) n) = elements op W ptr (16 * n).
Proof.
  revert ptr. induction n as [| n IH]; intros ptr; [reflexivity |].
  rewrite strides_cons. cbn [flat_map]. rewrite IH.
  replace (16 * S n)%nat with (16 + 16 * n)%nat by lia.
  unfold elements. rewrite seq_app, List.map_app. f_equal.
  cbn [Nat.add]. rewrite (seq_offset 16 (16 * n)).
  rewrite List.map_map. apply List.map_ext. intros j. f_equal. lia.
Qed.

End Traffic.

(** X2: on the mapped buffer of a valid run the cache flush helper evicts
    one line every 64 bytes, [memrate_bytes / 64] lines from the start of
    the buffer on, each of them inside the buffer, and has no other
    effect: it reads no clock, requests no sleep and touches no data. *)
Theorem stress_memrate_flush_lines
    (c : stress_memrate_context_t) (w : world) :
  mapped_context c ->
  let lines := strides (start c) 64 (Z.to_nat (memrate_bytes c / 64)) in
  stress_memrate_flush c w = Some (tt, with_traffic w (List.map Clflush lines)) /\
  Forall (fun p => start c <= p /\ p + 64 <= end_ c) lines.
Proof.
  intros (He & Hb & Hm) lines. unfold MIN_MEMRATE_BYTES, KB in Hb.
  assert (Hm64 : memrate_bytes c mod 64 = 0).
  { apply Z.mod_divide; [lia |]. apply Z.mod_divide in Hm; [| lia].
    eapply Z.divide_trans; [| exact Hm]. exists 16. reflexivity. }
  split.
  - unfold stress_memrate_flush. rewrite flush_for_traffic by (unfold pass_fuel; lia).
    replace (end_ c - start c) with (memrate_bytes c) by lia.
    rewrite stride_count_exact by lia. reflexivity.
  - unfold lines, strides. apply Forall_forall. intros p Hp.
    apply list_elem_of_In, in_map_iff in Hp as (k & <- & Hk).
    apply in_seq in Hk.
    pose proof (Z.div_mod (memrate_bytes c) 64 ltac:(lia)) as Hdm.
    rewrite Hm64 in Hdm.
    assert (Hq : 0 <= memrate_bytes c / 64) by (apply Z.div_pos; lia).
    assert (Hk' : Z.of_nat k < memrate_bytes c / 64) by lia.
    lia.
Qed.

Lemma stress_memrate_flush_lines_witness :
  let c := context_at 4096 4096 UNLIMITED UNLIMITED in
  exists w',
    stress_memrate_flush c (frozen_world 0 true) = Some (tt, w') /\
    length (touched w') = 64%nat.
Proof.
  intros c.
  destruct (stress_memrate_flush_lines c (frozen_world 0 true)) as [E _];
    [vm_compute; repeat split; discriminate |].
  eexists. split; [exact E |]. reflexivity.
Defined.

(** X3: on a buffer whose size is a multiple of four bytes the
    initialisation stores one 32-bit word at every word of the buffer,
    once and in ascending order, and has no other effect. *)
Theorem stress_memrate_init_data_words (a bytes : Z) (w : world) :
  0 <= bytes -> bytes mod 4 = 0 ->
  stress_memrate_init_data a (a + bytes) w
  = Some (tt, with_traffic w (elements Store 4 a (Z.to_nat (bytes / 4)))).
Proof.
  intros Hb Hm. unfold stress_memrate_init_data.
  rewrite init_data_for_traffic by lia.
  replace (a + bytes - a) with bytes by lia.
  rewrite stride_count_exact by lia.
  unfold elements, strides. rewrite List.map_map. reflexivity.
Qed.

Lemma stress_memrate_init_data_words_witness :
  stress_memrate_init_data 4096 (4096 + 16) (frozen_world 0 true)
  = Some (tt, with_traffic (frozen_world 0 true)
                [Store 4096 4; Store 4100 4; Store 4104 4; Store 4108 4]).
Proof.
  rewrite (stress_memrate_init_data_words 4096 16 (frozen_world 0 true));
    [reflexivity | lia | reflexivity].
Defined.

Section Coverage.

Lemma elements_count (W bytes : Z) :
  0 < W -> 1024 mod (16 * W) = 0 -> 0 <= bytes -> bytes mod 1024 = 0 ->
  (16 * stride_count (16 * W) bytes)%nat = Z.to_nat (bytes / W) /\
  bytes mod W = 0.
Proof.
  intros HW Hd Hb Hm.
  assert (Hstep : bytes mod (16 * W) = 0).
  { apply Z.mod_divide; [lia |].
    apply Z.mod_divide in Hd; [| lia]. apply Z.mod_divide in Hm; [| lia].
    eapply Z.divide_trans; eauto. }
  rewrite stride_count_exact by lia.
  apply Z.mod_divide in Hstep as [q Hq]; [| lia].
  assert (Hq0 : 0 <= q) by nia.
  rewrite Hq. rewrite Z.div_mul by lia.
  replace (q * (16 * W)) with (16 * q * W) by lia.
  rewrite Z.div_mul, Z.mod_mul by lia. split; [lia | reflexivity].
Qed.

Lemma sweep_covers (body : Z -> list access) (op : Z -> Z -> access)
    (W : Z) (c : stress_memrate_context_t) (w : world) :
  (forall p, body p = unrolled16 op W p) ->
  0 < W -> 1024 mod (16 * W) = 0 -> mapped_context c ->
  sweep (pass_fuel c) body W (start c) (end_ c) w
  = Some (end_ c,
          with_traffic w (elements op W (start c) (Z.to_nat (memrate_bytes c / W)))).
Proof.
  intros Hbody HW Hd (He & Hb & Hm). unfold MIN_MEMRATE_BYTES, KB in Hb.
  rewrite sweep_traffic by (unfold pass_fuel; lia).
  replace (end_ c - start c) with (memrate_bytes c) by lia.
  rewrite swept_valid_size by (assumption || lia).
  rewrite (flat_map_ext body (unrolled16 op W) Hbody), unrolled16_elements.
  destruct (elements_count W (memrate_bytes c) HW Hd ltac:(lia) Hm) as [-> _].
  rewrite He. reflexivity.
Qed.

End Coverage.

(** X4: on a valid buffer, an unthrottled sweep of elements of [W] bytes
    whose step of [16 W] bytes divides 1024 returns the size of the buffer
    in kilobytes and touches every element of the buffer exactly once, in
    ascending order, and nothing else: the write strategy by a store, the
    read strategy without prefetch by a load, and the non-temporal write
    strategy, where SSE2 is there, by a non-temporal store.  Every
    element lies inside the buffer. *)
Theorem unthrottled_sweep_covers_buffer
    (W : Z) (c : stress_memrate_context_t) (w : world) :
  0 < W -> 1024 mod (16 * W) = 0 -> mapped_context c ->
  let n := Z.to_nat (memrate_bytes c / W) in
  let kb := memrate_bytes c / KB in
  stress_memrate_write W c w
  = Some ((kb, true), with_traffic w (elements Store W (start c) n)) /\
  stress_memrate_read W false c w
  = Some ((kb, true), with_traffic w (elements Load W (start c) n)) /\
  (sse2 w = true ->
   stress_memrate_write_nt W c w
   = Some ((kb, true), with_traffic w (elements NtStore W (start c) n))) /\
  (forall j, (j < n)%nat ->
             start c <= start c + Z.of_nat j * W /\
             start c + Z.of_nat j * W + W <= end_ c).
Proof.
  intros HW Hd Hc n kb.
  assert (Hkb : (end_ c - start c) / KB = kb).
  { destruct Hc as (He & _). unfold kb. f_equal. lia. }
  split; [| split; [| split]].
  - unfold stress_memrate_write, bind.
    rewrite (sweep_covers (write16 W) Store W c w) by (auto || reflexivity).
    unfold ret. rewrite Hkb. reflexivity.
  - unfold stress_memrate_read, bind.
    rewrite (sweep_covers (read16 false W) Load W c w) by (auto || reflexivity).
    unfold ret. rewrite Hkb. reflexivity.
  - intros Hs. unfold stress_memrate_write_nt, bind, stress_cpu_x86_has_sse2.
    rewrite Hs. cbn [negb].
    rewrite (sweep_covers (write_nt16 W) NtStore W c w) by (auto || reflexivity).
    unfold ret. rewrite Hkb. reflexivity.
  - intros j Hj. destruct Hc as (He & Hb & Hm). unfold MIN_MEMRATE_BYTES, KB in Hb.
    destruct (elements_count W (memrate_bytes c) HW Hd ltac:(lia) Hm) as [_ HmW].
    pose proof (Z.div_mod (memrate_bytes c) W ltac:(lia)) as Hdm.
    rewrite HmW in Hdm.
    assert (Hq : 0 <= memrate_bytes c / W) by (apply Z.div_pos; lia).
    assert (Hj' : Z.of_nat j < memrate_bytes c / W) by (unfold n in Hj; lia).
    nia.
Qed.

Lemma unthrottled_sweep_covers_buffer_witness :
  let c := context_at 4096 4096 UNLIMITED UNLIMITED in
  stress_memrate_write64 c (frozen_world 0 true)
  = Some ((4, true),
          with_traffic (frozen_world 0 true) (elements Store 8 4096 512)).
Proof.
  intros c.
  destruct (unthrottled_sweep_covers_buffer 8 c (frozen_world 0 true))
    as (E & _); [lia | reflexivity | vm_compute; repeat split; discriminate |].
  exact E.
Defined.

(* ------------------------------------------------------------------ *)
(** ** Throttling changes the timing only *)
(* ------------------------------------------------------------------ *)

Section SameTraffic.

Lemma throttle_touched (t1 total dur total' : Q) (w w' : world) :
  throttle t1 total dur w = Some (total', w') -> touched w' = touched w.
Proof.
  unfold throttle, bind, stress_time_now, nanosleep, ret. cbn [clock ticks].
  destruct (Qle_bool _ _); intros H; inversion H; reflexivity.
Qed.

Lemma stride_count_add (step r : Z) (m : nat) :
  0 < step -> 0 <= r ->
  stride_count step (Z.of_nat m * step + r) = (m + stride_count step r)%nat.
Proof.
  intros Hs Hr. unfold stride_count. rewrite !Z.max_r by nia.
  replace (Z.of_nat m * step + r + step - 1)
    with (Z.of_nat m * step + (r + step - 1)) by lia.
  rewrite Z.div_add_l by lia.
  assert (0 <= (r + step - 1) / step) by (apply Z.div_pos; lia).
  lia.
Qed.

(** The outer loop of a rate-limited sweep whose chunk is [m] steps long
    stops where the plain sweep stops and carries out the same body at
    the same places. *)
Lemma paced_sweep_traffic (fuel inner : nat) (body : Z -> list access)
    (W le : Z) (m : nat) (t1 total dur : Q) (a ptr e p : Z) (w w' : world) :
  0 < W -> (0 < m)%nat -> le * W = Z.of_nat m * (16 * W) ->
  a <= ptr -> (Z.to_nat (e - a) < inner)%nat ->
  paced_sweep fuel inner body W le t1 total dur ptr e w = Some (p, w') ->
  p = ptr + swept (16 * W) (e - ptr) /\
  touched w'
  = touched w ++ flat_map body
                   (strides ptr (16 * W) (stride_count (16 * W) (e - ptr))).
Proof.
  intros HW Hm Hle. revert ptr total w.
  induction fuel as [| fuel IH]; intros ptr total w Ha Hin H; [discriminate |].
  cbn [paced_sweep] in H. destruct (Z.ltb_spec ptr e) as [Hlt | Hge].
  - unfold STRESS_PTR_MINIMUM in H.
    destruct (Z.ltb_spec (ptr + le * W) e) as [Hchunk | Hlast];
      apply bind_Some in H as (p1 & w1 & Hs & H);
      apply bind_Some in H as (total1 & w2 & Ht & H);
      rewrite sweep_traffic in Hs by lia; inversion Hs; subst p1 w1; clear Hs;
      apply throttle_touched in Ht; cbn [with_traffic touched] in Ht.
    + (* a whole chunk *)
      replace (ptr + le * W - ptr) with (Z.of_nat m * (16 * W) + 0) in H, Ht by lia.
      rewrite stride_count_add, (stride_count_nothing (16 * W) 0) in Ht by lia.
      rewrite swept_stride_count, stride_count_add,
        (stride_count_nothing (16 * W) 0) in H by lia.
      rewrite Nat.add_0_r in H, Ht.
      apply IH in H as [Hp Htr]; [| lia | exact Hin].
      replace (e - (ptr + Z.of_nat m * (16 * W)))
        with (e - ptr - Z.of_nat m * (16 * W)) in Hp, Htr by lia.
      replace (e - ptr) with (Z.of_nat m * (16 * W) + (e - ptr - Z.of_nat m * (16 * W)))
        at 1 2 by lia.
      rewrite swept_stride_count, stride_count_add by lia.
      rewrite swept_stride_count in Hp by lia.
      split; [lia |].
      rewrite Htr, Ht, strides_app, flat_map_app, app_assoc. reflexivity.
    + (* the last chunk *)
      pose proof (swept_bounds (16 * W) (e - ptr) ltac:(lia) ltac:(lia)) as Hsw.
      apply IH in H as [Hp Htr]; [| lia | exact Hin].
      rewrite (swept_nothing (16 * W) (e - (ptr + swept (16 * W) (e - ptr))))
        in Hp by lia.
      rewrite (stride_count_nothing (16 * W) (e - (ptr + swept (16 * W) (e - ptr))))
        in Htr by lia.
      cbn [strides seq List.map flat_map] in Htr. rewrite app_nil_r in Htr.
      split; [lia |]. rewrite Htr, Ht. reflexivity.
  - inversion H; subst. rewrite swept_nothing, stride_count_nothing by lia.
    cbn. rewrite app_nil_r. split; [lia | reflexivity].
Qed.

(** The chunk of a rate-limited sweep is a whole number of steps. *)
Lemma loop_elements_steps (W : Z) (c : stress_memrate_context_t) :
  0 < W <= 128 -> mapped_context c ->
  exists m : nat,
    (0 < m)%nat /\
    wrap64 (stress_memrate_loops c (W * 16) * 16) * W = Z.of_nat m * (16 * W).
Proof.
  intros HW (_ & Hb & _). unfold MIN_MEMRATE_BYTES, KB in Hb.
  destruct (stress_memrate_loops_bounds c (W * 16)) as [H1 H2]; [lia | lia |].
  exists (Z.to_nat (stress_memrate_loops c (W * 16))).
  unfold wrap64. rewrite Z.mod_small by (split; [lia | nia]).
  rewrite Z2Nat.id by lia. split; [lia | lia].
Qed.

Lemma rate_sweep_same (body : Z -> list access) (W : Z) (t1 dur : Q)
    (c : stress_memrate_context_t) (w w1 : world) :
  0 < W <= 128 -> mapped_context c -> touched w1 = touched w ->
  exists wu wr,
    sweep (pass_fuel c) body W (start c) (end_ c) w
    = Some (start c + swept (16 * W) (memrate_bytes c), wu) /\
    paced_sweep (pass_fuel c) (pass_fuel c) body W
                (wrap64 (stress_memrate_loops c (W * 16) * 16)) t1 0 dur
                (start c) (end_ c) w1
    = Some (start c + swept (16 * W) (memrate_bytes c), wr) /\
    touched wr = touched wu.
Proof.
  intros HW Hc Hw1.
  destruct (loop_elements_steps W c HW Hc) as (m & Hm & Hle).
  destruct (sweep_rate_runs body W t1 dur c w1 HW Hc) as (p & wr & E & _).
  destruct Hc as (He & Hb & _). unfold MIN_MEMRATE_BYTES, KB in Hb.
  pose proof E as E'.
  apply (paced_sweep_traffic _ _ _ _ _ m _ _ _ (start c)) in E' as [Hp Htr];
    try lia; [| unfold pass_fuel; lia].
  eexists. exists wr. rewrite sweep_traffic by (unfold pass_fuel; lia).
  replace (end_ c - start c) with (memrate_bytes c) in * by lia.
  split; [reflexivity |]. split; [rewrite E, Hp; reflexivity |].
  rewrite Htr, Hw1. reflexivity.
Qed.

End SameTraffic.

(** X5: on a valid buffer and for every element width of the catalogue,
    the rate-limited read, write and non-temporal write sweeps return the
    kilobytes their unthrottled counterparts return and carry out the same
    memory operations in the same order, whatever the target rate and
    whatever the clock says: throttling changes the timing only. *)
Theorem rate_limited_sweep_same_traffic
    (W : Z) (prefetch : bool) (c : stress_memrate_context_t) (w : world) :
  0 < W <= 128 -> mapped_context c ->
  (exists kb wu wr,
      stress_memrate_read W prefetch c w = Some ((kb, true), wu) /\
      stress_memrate_read_rate W prefetch c w = Some ((kb, true), wr) /\
      touched wr = touched wu) /\
  (exists kb wu wr,
      stress_memrate_write W c w = Some ((kb, true), wu) /\
      stress_memrate_write_rate W c w = Some ((kb, true), wr) /\
      touched wr = touched wu) /\
  (sse2 w = true ->
   exists kb wu wr,
     stress_memrate_write_nt W c w = Some ((kb, true), wu) /\
     stress_memrate_write_nt_rate W c w = Some ((kb, true), wr) /\
     touched wr = touched wu).
Proof.
  intros HW Hc. split; [| split].
  - unfold stress_memrate_read, stress_memrate_read_rate.
    destruct (rate_sweep_same (read16 prefetch W) W (clock w (ticks w))
                (chunk_duration (wrap64 (stress_memrate_loops c (W * 16) * W * 16))
                                (memrate_rd_mbs c))
                c w
                (mk_world (clock w) (S (ticks w)) (naps w) (touched w) (sse2 w))
                HW Hc eq_refl) as (wu & wr & Eu & Er & Ht).
    eexists. exists wu, wr. unfold bind at 1. rewrite Eu.
    unfold bind at 1, stress_time_now. unfold bind. rewrite Er.
    split; [reflexivity |]. split; [reflexivity | exact Ht].
  - unfold stress_memrate_write, stress_memrate_write_rate.
    destruct (rate_sweep_same (write16 W) W (clock w (ticks w))
                (chunk_duration (wrap64 (stress_memrate_loops c (W * 16) * W * 16))
                                (memrate_wr_mbs c))
                c w
                (mk_world (clock w) (S (ticks w)) (naps w) (touched w) (sse2 w))
                HW Hc eq_refl) as (wu & wr & Eu & Er & Ht).
    eexists. exists wu, wr. unfold bind at 1. rewrite Eu.
    unfold bind at 1, stress_time_now. unfold bind. rewrite Er.
    split; [reflexivity |]. split; [reflexivity | exact Ht].
  - intros Hs. unfold stress_memrate_write_nt, stress_memrate_write_nt_rate.
    destruct (rate_sweep_same (write_nt16 W) W (clock w (ticks w))
                (chunk_duration (wrap64 (stress_memrate_loops c (W * 16) * W * 16))
                                (memrate_wr_mbs c))
                c w
                (mk_world (clock w) (S (ticks w)) (naps w) (touched w) (sse2 w))
                HW Hc eq_refl) as (wu & wr & Eu & Er & Ht).
    eexists. exists wu, wr.
    unfold bind at 1, stress_cpu_x86_has_sse2. rewrite Hs. cbn [negb].
    unfold bind at 1. rewrite Eu.
    unfold bind at 1. rewrite Hs. cbn [negb].
    unfold bind at 1, stress_time_now. unfold bind. rewrite Er.
    split; [reflexivity |]. split; [reflexivity | exact Ht].
Qed.

Lemma rate_limited_sweep_same_traffic_witness :
  let c := context_at 4096 5120 7 3 in
  exists kb wu wr,
    stress_memrate_write1024 c (ticking_world true) = Some ((kb, true), wu) /\
    stress_memrate_write_rate1024 c (ticking_world true) = Some ((kb, true), wr) /\
    touched wr = touched wu.
Proof.
  intros c.
  destruct (rate_limited_sweep_same_traffic 128 false c (ticking_world true))
    as (_ & H & _); [lia | vm_compute; repeat split; discriminate |].
  exact H.
Defined.

(* ------------------------------------------------------------------ *)
(** ** The fills tile the buffer *)
(* ------------------------------------------------------------------ *)

Section Tiles.

Lemma tiled_from_app (a b : Z) (l1 l2 : list access) :
  tiled_from a l1 = Some b -> tiled_from a (l1 ++ l2) = tiled_from b l2.
Proof.
  revert a. induction l1 as [| x l1 IH]; intros a H; cbn in H |- *.
  - inversion H; subst. reflexivity.
  - destruct x; try discriminate.
    destruct ((addr =? a) && (0 <? width)); [apply IH; exact H | discriminate].
Qed.

Lemma tiled_from_one (a n : Z) : 0 < n -> tiled_from a [Store a n] = Some (a + n).
Proof.
  intros Hn. cbn. rewrite Z.eqb_refl.
  destruct (Z.ltb_spec 0 n); [reflexivity | lia].
Qed.

Lemma paced_chunks_row (fuel : nat) (chunk : Z) (t1 total dur total' : Q)
    (ptr e p : Z) (w w' : world) :
  0 < chunk ->
  paced_chunks fuel chunk t1 total dur ptr e w = Some ((p, total'), w') ->
  exists l, touched w' = touched w ++ l /\ chunk_row chunk ptr e p l.
Proof.
  intros Hc. revert ptr total w. induction fuel as [| fuel IH]; intros ptr total w H.
  - discriminate.
  - cbn [paced_chunks] in H. destruct (Z.ltb_spec (ptr + chunk) e).
    + apply bind_Some in H as (u & w1 & Hs & H).
      apply bind_Some in H as (total1 & w2 & Ht & H).
      inversion Hs; subst w1; clear Hs.
      apply throttle_touched in Ht. cbn [touched] in Ht.
      apply IH in H as (l & Htr & Hrow & Hall & Hp & Hex & Hpe).
      exists (Store ptr chunk :: l). split.
      * rewrite Htr, Ht, <- app_assoc. reflexivity.
      * unfold chunk_row. cbn [tiled_from length]. rewrite Z.eqb_refl.
        destruct (Z.ltb_spec 0 chunk); [| lia]. cbn [andb].
        split; [exact Hrow |]. split; [constructor; [reflexivity | exact Hall] |].
        split; [lia |]. split; [exact Hex | right; lia].
    + inversion H; subst. exists []. rewrite app_nil_r. split; [reflexivity |].
      unfold chunk_row. cbn. repeat split; try lia. constructor.
Qed.

Lemma paced_stos_chunks_row (fuel : nat) (chunk loops wr : Z)
    (t1 total dur total' : Q) (ptr e p : Z) (w w' : world) :
  0 < chunk -> loops * wr = chunk ->
  paced_stos_chunks fuel chunk loops wr t1 total dur ptr e w
  = Some ((p, total'), w') ->
  exists l, touched w' = touched w ++ l /\ chunk_row chunk ptr e p l.
Proof.
  intros Hc Hl. revert ptr total w. induction fuel as [| fuel IH]; intros ptr total w H.
  - discriminate.
  - cbn [paced_stos_chunks] in H. destruct (Z.ltb_spec (ptr + chunk) e).
    + apply bind_Some in H as (u & w1 & Hs & H).
      apply bind_Some in H as (total1 & w2 & Ht & H).
      inversion Hs; subst w1; clear Hs.
      apply throttle_touched in Ht. cbn [touched] in Ht.
      apply IH in H as (l & Htr & Hrow & Hall & Hp & Hex & Hpe).
      exists (Store ptr chunk :: l). split.
      * rewrite Htr, Ht, Hl, <- app_assoc. reflexivity.
      * unfold chunk_row. cbn [tiled_from length]. rewrite Z.eqb_refl.
        destruct (Z.ltb_spec 0 chunk); [| lia]. cbn [andb].
        split; [exact Hrow |]. split; [constructor; [reflexivity | exact Hall] |].
        split; [lia |]. split; [exact Hex | right; lia].
    + inversion H; subst. exists []. rewrite app_nil_r. split; [reflexivity |].
      unfold chunk_row. cbn. repeat split; try lia. constructor.
Qed.

Lemma stos_chunks_row (fuel : nat) (chunk loops wr : Z)
    (ptr e p : Z) (w w' : world) :
  0 < chunk -> loops * wr = chunk ->
  stos_chunks fuel chunk loops wr ptr e w = Some (p, w') ->
  exists l, w' = with_traffic w l /\ chunk_row chunk ptr e p l.
Proof.
  intros Hc Hl. revert ptr w. induction fuel as [| fuel IH]; intros ptr w H.
  - discriminate.
  - cbn [stos_chunks] in H. destruct (Z.ltb_spec (ptr + chunk) e).
    + apply bind_Some in H as (u & w1 & Hs & H).
      inversion Hs; subst w1; clear Hs.
      apply IH in H as (l & Htr & Hrow & Hall & Hp & Hex & Hpe).
      exists (Store ptr chunk :: l). split.
      * rewrite Htr, Hl. unfold with_traffic. cbn. rewrite <- app_assoc. reflexivity.
      * unfold chunk_row. cbn [tiled_from length]. rewrite Z.eqb_refl.
        destruct (Z.ltb_spec 0 chunk); [| lia]. cbn [andb].
        split; [exact Hrow |]. split; [constructor; [reflexivity | exact Hall] |].
        split; [lia |]. split; [exact Hex | right; lia].
    + inversion H; subst. exists []. rewrite with_traffic_nil. split; [reflexivity |].
      unfold chunk_row. cbn. repeat split; try lia. constructor.
Qed.

(** A row of chunks and the rest of the buffer after it tile the buffer,
    in pieces of at most one chunk. *)
Lemma chunk_row_rest (chunk ptr e p : Z) (l : list access) :
  0 < chunk -> ptr < e -> chunk_row chunk ptr e p l ->
  0 < e - p <= chunk /\
  tiled_from ptr (l ++ [Store p (e - p)]) = Some e /\
  Forall (fun a => store_width a <= chunk) (l ++ [Store p (e - p)]).
Proof.
  intros Hc Hlt (Hrow & Hall & Hp & Hex & Hpe).
  assert (Hrest : 0 < e - p <= chunk) by lia.
  split; [exact Hrest |]. split.
  - rewrite (tiled_from_app _ _ _ _ Hrow), tiled_from_one by lia. f_equal. lia.
  - apply Forall_app. split.
    + eapply Forall_impl; [exact Hall |]. cbn. intros a ->. lia.
    + constructor; [cbn; lia | constructor].
Qed.

(** The chunk of a fill on a valid buffer is a multiple of 1024 bytes. *)
Lemma fill_chunk_kilobytes (c : stress_memrate_context_t) :
  mapped_context c -> fill_chunk_bytes c mod 1024 = 0.
Proof.
  intros (He & Hb & Hm). unfold fill_chunk_bytes, MB.
  destruct (Z.gtb_spec (end_ c - start c) 1048576); [reflexivity |].
  replace (end_ c - start c) with (memrate_bytes c) by lia. exact Hm.
Qed.

Lemma words_of_chunk (wr n : Z) :
  0 < wr -> 1024 mod wr = 0 -> 0 <= n <= MB -> n mod 1024 = 0 ->
  wrap32 (n / wr) * wr = n /\ (0 < n -> wrap32 (n / wr) <> 0).
Proof.
  intros Hwr Hd Hn Hm. unfold MB in Hn.
  assert (Hmw : n mod wr = 0).
  { apply Z.mod_divide; [lia |].
    apply Z.mod_divide in Hd; [| lia]. apply Z.mod_divide in Hm; [| lia].
    eapply Z.divide_trans; eauto. }
  pose proof (Z.div_mod n wr ltac:(lia)) as Hdm. rewrite Hmw in Hdm.
  assert (Hq : 0 <= n / wr <= n).
  { split; [apply Z.div_pos; lia |]. apply Z.div_le_upper_bound; [lia | nia]. }
  unfold wrap32. rewrite Z.mod_small by lia. split; [lia |]. intros Hpos. nia.
Qed.

End Tiles.

(** X6: on a valid buffer the rate-limited fill returns the kilobytes the
    unthrottled fill returns, the size of the buffer, and its stores tile
    the buffer: they start at the start of the buffer, each starts where
    the one before ended, the last ends at the end of the buffer, and none
    is longer than 1 MiB.  The unthrottled fill is one store of the whole
    buffer. *)
Theorem stress_memrate_memset_rate_tiles
    (c : stress_memrate_context_t) (w : world) :
  mapped_context c ->
  stress_memrate_memset c w
  = Some ((memrate_bytes c / KB, true),
          with_traffic w [Store (start c) (memrate_bytes c)]) /\
  exists w' l,
    stress_memrate_memset_rate c w = Some ((memrate_bytes c / KB, true), w') /\
    touched w' = touched w ++ l /\
    tiled_from (start c) l = Some (end_ c) /\
    Forall (fun a => store_width a <= MB) l.
Proof.
  intros Hc. split; [reflexivity |].
  destruct (memset_rate_runs c w Hc) as (kb & w' & E & _).
  destruct (fill_chunk_bounds c Hc) as [Hchunk _].
  pose proof Hc as (He & Hb & _). unfold MIN_MEMRATE_BYTES, KB in Hb.
  pose proof E as E'. unfold stress_memrate_memset_rate in E'.
  fold (fill_chunk_bytes c) in E'.
  apply bind_Some in E' as (t1 & w1 & Hn & E').
  apply bind_Some in E' as ([p total1] & w2 & Hs & E'). cbn [fst snd] in E'.
  inversion Hn; subst t1 w1; clear Hn.
  apply paced_chunks_row in Hs as (l & Htr & Hrow); [| lia].
  cbn [touched] in Htr.
  destruct (chunk_row_rest (fill_chunk_bytes c) (start c) (end_ c) p l
              ltac:(lia) ltac:(lia) Hrow) as (Hrest & Htile & Hw).
  destruct (Z.gtb_spec (end_ c - p) 0) as [Hgt | Hle]; [| lia].
  apply bind_Some in E' as (u & w3 & Ht & E').
  apply bind_Some in E' as (total2 & w4 & Hth & E').
  inversion Ht; subst w3; clear Ht. apply throttle_touched in Hth.
  cbn [touched] in Hth. inversion E'; subst kb w4; clear E'.
  exists w', (l ++ [Store p (end_ c - p)]).
  replace (end_ c - start c) with (memrate_bytes c) in E by lia.
  split; [exact E |]. split; [rewrite Hth, Htr, app_assoc; reflexivity |].
  split; [exact Htile |].
  eapply Forall_impl; [exact Hw |]. cbn. intros a Ha. lia.
Qed.

Lemma stress_memrate_memset_rate_tiles_witness :
  let c := context_at 4096 (MB + 4096) UNLIMITED 3 in
  exists w' l,
    stress_memrate_memset_rate c (frozen_world 0 true)
    = Some ((memrate_bytes c / KB, true), w') /\
    touched w' = l /\ tiled_from (start c) l = Some (end_ c).
Proof.
  intros c.
  destruct (stress_memrate_memset_rate_tiles c (frozen_world 0 true))
    as (_ & w' & l & E & Htr & Htile & _); [vm_compute; repeat split; discriminate |].
  exists w', l. split; [exact E |]. split; [exact Htr | exact Htile].
Defined.

(** X7: on a valid buffer a repeated-store strategy whose word size
    divides 1024, unthrottled or rate-limited, returns the size of the
    buffer in kilobytes, and its stores tile the buffer: they start at the
    start of the buffer, each starts where the one before ended, the last
    ends at the end of the buffer, and none is longer than 1 MiB.  The
    remainder after the last whole chunk is never empty, so it is always
    written. *)
Theorem stress_memrate_stos_tiles
    (wr : Z) (c : stress_memrate_context_t) (w : world) :
  0 < wr <= 8 -> 1024 mod wr = 0 -> mapped_context c ->
  (exists w' l,
      stress_memrate_stos wr c w = Some ((memrate_bytes c / KB, true), w') /\
      touched w' = touched w ++ l /\
      tiled_from (start c) l = Some (end_ c) /\
      Forall (fun a => store_width a <= MB) l) /\
  (exists w' l,
      stress_memrate_stos_rate wr c w = Some ((memrate_bytes c / KB, true), w') /\
      touched w' = touched w ++ l /\
      tiled_from (start c) l = Some (end_ c) /\
      Forall (fun a => store_width a <= MB) l).
Proof.
  intros Hwr8 Hd Hc. assert (Hwr : 0 < wr) by lia.
  destruct (fill_chunk_bounds c Hc) as [Hchunk _].
  pose proof (fill_chunk_kilobytes c Hc) as Hck.
  pose proof Hc as (He & Hb & Hm). unfold MIN_MEMRATE_BYTES, KB in Hb.
  destruct (words_of_chunk wr (fill_chunk_bytes c) Hwr Hd ltac:(lia) Hck)
    as [Hloops _].
  assert (Hrest : forall p l,
             chunk_row (fill_chunk_bytes c) (start c) (end_ c) p l ->
             wrap32 ((end_ c - p) / wr) * wr = end_ c - p /\
             wrap32 ((end_ c - p) / wr) <> 0).
  { intros p l Hrow.
    destruct (chunk_row_rest (fill_chunk_bytes c) (start c) (end_ c) p l
              ltac:(lia) ltac:(lia) Hrow) as (Hr & _).
    destruct Hrow as (_ & _ & Hp & _).
    assert (Hmod : (end_ c - p) mod 1024 = 0).
    { apply Z.mod_divide; [lia |].
      apply Z.mod_divide in Hck as [q Hq]; [| lia].
      apply Z.mod_divide in Hm as [q' Hq']; [| lia].
      exists (q' - Z.of_nat (length l) * q). nia. }
    destruct (words_of_chunk wr (end_ c - p) Hwr Hd ltac:(lia) Hmod) as [H1 H2].
    split; [exact H1 | apply H2; lia]. }
  split.
  - unfold stress_memrate_stos. fold (fill_chunk_bytes c).
    destruct (stos_chunks_runs (pass_fuel c) (fill_chunk_bytes c)
                (wrap32 (fill_chunk_bytes c / wr)) wr (start c) (end_ c) w)
      as (p & w1 & E); [lia | unfold pass_fuel; lia |].
    unfold bind at 1. rewrite E.
    apply stos_chunks_row in E as (l & -> & Hrow); [| lia | exact Hloops].
    destruct (Hrest p l Hrow) as [Hwords Hnz].
    destruct (chunk_row_rest (fill_chunk_bytes c) (start c) (end_ c) p l
              ltac:(lia) ltac:(lia) Hrow) as (_ & Htile & Hw).
    apply Z.eqb_neq in Hnz. rewrite Hnz. cbn [negb]. rewrite Hwords.
    eexists. exists (l ++ [Store p (end_ c - p)]). unfold bind, touch, ret.
    replace (end_ c - start c) with (memrate_bytes c) by lia.
    split; [reflexivity |]. cbn [touched with_traffic].
    split; [rewrite app_assoc; reflexivity |]. split; [exact Htile |].
    eapply Forall_impl; [exact Hw |]. cbn. intros a Ha. lia.
  - destruct (stos_rate_runs wr c w Hwr8 Hc) as (kb & w' & E & _).
    pose proof E as E'. unfold stress_memrate_stos_rate in E'.
    fold (fill_chunk_bytes c) in E'.
    apply bind_Some in E' as (t1 & w1 & Hn & E').
    apply bind_Some in E' as ([p total1] & w2 & Hs & E'). cbn [fst snd] in E'.
    inversion Hn; subst t1 w1; clear Hn.
    apply paced_stos_chunks_row in Hs as (l & Htr & Hrow); [| lia | exact Hloops].
    cbn [touched] in Htr.
    destruct (Hrest p l Hrow) as [Hwords Hnz].
    destruct (chunk_row_rest (fill_chunk_bytes c) (start c) (end_ c) p l
              ltac:(lia) ltac:(lia) Hrow) as (_ & Htile & Hw).
    apply Z.eqb_neq in Hnz. rewrite Hnz in E'. cbn [negb] in E'.
    rewrite Hwords in E'.
    apply bind_Some in E' as (u & w3 & Ht & E').
    apply bind_Some in E' as (total2 & w4 & Hth & E').
    inversion Ht; subst w3; clear Ht. apply throttle_touched in Hth.
    cbn [touched] in Hth. inversion E'; subst kb w4; clear E'.
    exists w', (l ++ [Store p (end_ c - p)]).
    replace (end_ c - start c) with (memrate_bytes c) in E by lia.
    split; [exact E |]. split; [rewrite Hth, Htr, app_assoc; reflexivity |].
    split; [exact Htile |].
    eapply Forall_impl; [exact Hw |]. cbn. intros a Ha. lia.
Qed.

Lemma stress_memrate_stos_tiles_witness :
  let c := context_at 4096 (MB + 4096) UNLIMITED 3 in
  exists w' l,
    stress_memrate_write_stos64 c (frozen_world 0 true)
    = Some ((memrate_bytes c / KB, true), w') /\
    touched w' = l /\ tiled_from (start c) l = Some (end_ c).
Proof.
  intros c.
  destruct (stress_memrate_stos_tiles 8 c (frozen_world 0 true))
    as ((w' & l & E & Htr & Htile & _) & _);
    [lia | reflexivity | vm_compute; repeat split; discriminate |].
  exists w', l. split; [exact E |]. split; [exact Htr | exact Htile].
Defined.

(* ------------------------------------------------------------------ *)
(** ** More invariants of the driver *)
(* ------------------------------------------------------------------ *)

Section DriverMore.

Variable b : build_config.

(** The world of a step: the clock and the CPU stay, the readings go on. *)
Lemma child_step_world (clk : nat -> Q) (e : event) (s s' : child_state) :
  child_inv clk s -> child_step b e s = Some s' -> world_le (wld s) (wld s').
Proof.
  intros (Hclk & Hb & Hpc) H. unfold child_step in H.
  destruct e as [[buffer |] | [|] | | keep | keep | upd | in_flight];
    destruct (pc s) as [| | | i | i t1 | | | | rc] eqn:Epc;
    try discriminate;
    try (destruct (handler s) eqn:Eh; [| discriminate]);
    try (inversion H; subst; clear H; apply world_le_refl).
  - destruct (stress_memrate_init_data _ _ (wld s)) as [[[] w] |] eqn:E;
      [| discriminate].
    inversion H; subst; clear H. cbn [wld].
    apply quiet_world_le. eapply init_data_for_quiet. exact E.
  - destruct (i <? memrate_items b)%nat.
    + destruct (bind _ _ (wld s)) as [[t1 w] |] eqn:E; [| discriminate].
      inversion H; subst; clear H. cbn [wld].
      apply bind_Some in E as (u & w1 & Hf & Hn).
      apply stress_time_now_world_le in Hn as [Hle _].
      eapply world_le_trans; [| exact Hle].
      destruct (memrate_flush (context s)).
      * apply quiet_world_le. eapply flush_for_quiet. exact Hf.
      * inversion Hf; subst. apply world_le_refl.
    + inversion H; subst. apply world_le_refl.
  - destruct Hpc as (Hh & Hse & n & Hn & Ht1).
    destruct (memrate_info b !! i) as [info |] eqn:Ei; [| discriminate].
    destruct (bind _ _ (wld s)) as [[[[kb v] t2] w] |] eqn:E; [| discriminate].
    inversion H; subst; clear H. cbn [wld].
    apply bind_Some in E as ([kb' v'] & w1 & Hd & E).
    apply bind_Some in E as (t2' & w2 & Hnow & E).
    inversion E; subst; clear E.
    apply dispatch_well_behaved with (b := b) in Hd as [_ Hle];
      [| eapply list_elem_of_lookup_2; eauto | lia | exact Hb].
    apply stress_time_now_world_le in Hnow as [Hle2 _].
    eapply world_le_trans; eauto.
  - destruct Hpc as (Hh & Hse & n & Hn & Ht1).
    destruct (alarm_in_update_cases b upd s s' i t1 Epc)
      as (_ & info & kb & v & w1 & st & w2 & Ei & Hd & Hu & ->).
    { unfold child_step. rewrite Epc, Eh. exact H. }
    apply dispatch_well_behaved with (b := b) in Hd as [_ Hle];
      [| eapply list_elem_of_lookup_2; eauto | lia | exact Hb].
    apply interrupted_update_cases in Hu as (Hle2 & _).
    cbn [wld]. eapply world_le_trans; eauto.
Qed.

(** The settings of the run stay, and so does the buffer once mapped;
    the table keeps its length, and a dispatch in flight is that of an
    entry of the catalogue. *)
Lemma child_step_config (e : event) (s s' : child_state) :
  child_step b e s = Some s' ->
  memrate_bytes (context s') = memrate_bytes (context s) /\
  memrate_rd_mbs (context s') = memrate_rd_mbs (context s) /\
  memrate_wr_mbs (context s') = memrate_wr_mbs (context s) /\
  memrate_flush (context s') = memrate_flush (context s) /\
  length (stats (context s')) = length (stats (context s)) /\
  (pc s <> PcMmap ->
   start (context s') = start (context s) /\ end_ (context s') = end_ (context s)) /\
  (forall i t1, pc s' = PcDispatch i t1 -> (i < memrate_items b)%nat) /\
  pc s' <> PcMmap.
Proof.
  intros H. unfold child_step in H.
  destruct e as [[buffer |] | [|] | | keep | keep | upd | in_flight];
    destruct (pc s) as [| | | i | i t1 | | | | rc] eqn:Epc;
    try discriminate;
    try (destruct (handler s) eqn:Eh; [| discriminate]);
    try (inversion H; subst; clear H;
         unfold stress_memrate_alarm_handler, set_pc;
         cbn [pc context set_buffer memrate_bytes memrate_rd_mbs memrate_wr_mbs
              memrate_flush stats start end_];
         repeat split; solve [ reflexivity | congruence | discriminate
                             | intros ? ? ?; discriminate
                             | destruct keep; intros ? ? ?; discriminate
                             | destruct keep; discriminate ]).
  - destruct (stress_memrate_init_data _ _ (wld s)) as [[[] w] |];
      [| discriminate].
    inversion H; subst; clear H.
    cbn [pc context set_buffer memrate_bytes memrate_rd_mbs memrate_wr_mbs
         memrate_flush stats start end_].
    repeat split; solve [reflexivity | congruence | discriminate
                        | intros ? ? ?; discriminate].
  - destruct (i <? memrate_items b)%nat eqn:Ei.
    + destruct (bind _ _ (wld s)) as [[t1 w] |]; [| discriminate].
      inversion H; subst; clear H. cbn [pc context].
      repeat split; try discriminate.
      intros i' t1' E. inversion E; subst. apply Nat.ltb_lt. exact Ei.
    + inversion H; subst; clear H. unfold set_pc. cbn [pc context].
      repeat split; discriminate.
  - destruct (memrate_info b !! i) as [info |] eqn:Ei; [| discriminate].
    destruct (bind _ _ (wld s)) as [[[[kb v] t2] w] |]; [| discriminate].
    inversion H; subst; clear H.
    cbn [pc context set_stats memrate_bytes memrate_rd_mbs memrate_wr_mbs
         memrate_flush stats start end_].
    repeat split; try (destruct keep; discriminate).
    all: try (destruct keep; intros ? ? ?; discriminate).
    unfold stats_update. apply length_alter.
  - destruct (memrate_info b !! i) as [info |] eqn:Ei; [| discriminate].
    destruct (bind _ _ (wld s)) as [[st w] |] eqn:E; [| discriminate].
    apply bind_Some in E as ([kb v] & w1 & _ & Hu).
    apply interrupted_update_cases in Hu as (_ & _ & _ & Hu).
    inversion H; subst; clear H.
    unfold stress_memrate_alarm_handler, set_pc.
    cbn [pc context set_stats memrate_bytes memrate_rd_mbs memrate_wr_mbs
         memrate_flush stats start end_ fst].
    repeat split; try discriminate; try (intros ? ? ?; discriminate).
    destruct upd; destruct Hu as [-> _];
      unfold stats_duration, stats_kbytes; rewrite ?length_alter; reflexivity.
Qed.

Lemma child_run_invariant (P : child_state -> Prop) :
  (forall e s s', P s -> child_step b e s = Some s' -> P s') ->
  forall evs s s', P s -> child_run b evs s = Some s' -> P s'.
Proof.
  intros Hstep evs. induction evs as [| e evs IH]; intros s s' HP H; cbn in H.
  - inversion H; subst. exact HP.
  - destruct (child_step b e s) as [s1 |] eqn:E; [| discriminate].
    eapply IH; [eapply Hstep; eauto | exact H].
Qed.

Lemma context_bytes_nonneg (opts : gmap string setting) :
  0 <= memrate_bytes (stress_memrate_context b opts).
Proof.
  cbn [stress_memrate_context memrate_bytes].
  apply Z.land_nonneg. left. unfold wrap64. apply Z.mod_pos_bound. reflexivity.
Qed.

Lemma child_run_reachable (opts : gmap string setting) (w0 : world)
    (evs : list event) (s : child_state) :
  child_run b evs (child_init (stress_memrate_context b opts) w0) = Some s ->
  child_inv (clock w0) s.
Proof.
  apply child_run_inv, child_init_inv, context_bytes_nonneg.
Qed.

(** X8.  [stress_memrate_child] changes nothing of what it was configured
    with: at every point of every run the buffer size, the two rates and
    the flush flag are those the parent computed from the options, and
    once the buffer is mapped its start and its end stay for the rest of
    the run. *)
Theorem driver_keeps_configuration
    (opts : gmap string setting) (w0 : world)
    (evs : list event) (s : child_state) :
  let c0 := stress_memrate_context b opts in
  child_run b evs (child_init c0 w0) = Some s ->
  (memrate_bytes (context s) = memrate_bytes c0 /\
   memrate_rd_mbs (context s) = memrate_rd_mbs c0 /\
   memrate_wr_mbs (context s) = memrate_wr_mbs c0 /\
   memrate_flush (context s) = memrate_flush c0) /\
  (pc s <> PcMmap ->
   forall evs' s',
     child_run b evs' s = Some s' ->
     start (context s') = start (context s) /\
     end_ (context s') = end_ (context s)).
Proof.
  intros c0 Hrun. split.
  - pattern s. eapply child_run_invariant; [| | exact Hrun].
    + intros e s1 s2 (H1 & H2 & H3 & H4) Hstep.
      apply child_step_config in Hstep as (E1 & E2 & E3 & E4 & _).
      rewrite E1, E2, E3, E4. auto.
    + cbn. auto.
  - clear Hrun. intros Hpc evs'. revert s Hpc.
    induction evs' as [| e evs' IH]; intros s Hpc s' H; cbn in H.
    + inversion H; subst. auto.
    + destruct (child_step b e s) as [s1 |] eqn:Hstep; [| discriminate].
      apply child_step_config in Hstep as (_ & _ & _ & _ & _ & Hse & _ & Hpc1).
      destruct (Hse Hpc) as [E1 E2].
      destruct (IH s1 Hpc1 s' H) as [E3 E4]. split; congruence.
Qed.

(** X9.  The driver never indexes past its tables: the table of
    statistics has one slot for each entry of the catalogue at every point
    of every run, and whenever a dispatch is in flight its index names an
    entry of the catalogue and a slot of the table. *)
Theorem driver_index_in_range
    (opts : gmap string setting) (w0 : world)
    (evs : list event) (s : child_state) :
  child_run b evs (child_init (stress_memrate_context b opts) w0) = Some s ->
  length (stats (context s)) = memrate_items b /\
  forall i t1,
    pc s = PcDispatch i t1 ->
    (i < memrate_items b)%nat /\
    is_Some (memrate_info b !! i) /\ is_Some (stats (context s) !! i).
Proof.
  intros Hrun.
  assert (H : length (stats (context s)) = memrate_items b /\
              forall i t1, pc s = PcDispatch i t1 -> (i < memrate_items b)%nat).
  { pattern s. eapply child_run_invariant; [| | exact Hrun].
    - intros e s1 s2 [Hl _] Hstep.
      apply child_step_config in Hstep as (_ & _ & _ & _ & El & _ & Hi & _).
      split; [congruence | exact Hi].
    - split; [apply length_replicate | intros i t1 E; discriminate]. }
  destruct H as [Hl Hi]. split; [exact Hl |].
  intros i t1 E. specialize (Hi i t1 E). split; [exact Hi |].
  split; apply lookup_lt_is_Some; [exact Hi | lia].
Qed.

(** Before the loop nothing has happened yet. *)
Lemma child_step_before_loop (c0 : stress_memrate_context_t) (w0 : world)
    (e : event) (s s' : child_state) :
  untouched c0 w0 s \/ ~ before_loop (pc s) ->
  child_step b e s = Some s' ->
  untouched c0 w0 s' \/ ~ before_loop (pc s').
Proof.
  intros [(Hb & Hm & Hc & Hw & Hh & Hpc) | Hlate] H; unfold child_step in H.
  - destruct e as [[buffer |] | [|] | | keep | keep | upd | in_flight];
      destruct (pc s) as [| | | i | i t1 | | | | [|]] eqn:Epc;
      try discriminate; try contradiction;
      try (rewrite Hh in H; discriminate).
    + destruct (stress_memrate_init_data _ _ (wld s)) as [[[] w] |] eqn:E;
        [| discriminate].
      apply init_data_for_quiet in E.
      inversion H; subst; clear H. unfold untouched.
      cbn [pc context wld handler jmpbuf munmaps counter before_loop].
      left. destruct Hpc as [Hc0 Hj]. rewrite Hc0.
      split; [exact I |]. split; [exact Hm |]. split; [exact Hc |].
      split; [eapply quiet_trans; eauto |]. split; [exact Hh |].
      split; [eexists; reflexivity | exact Hj].
    + inversion H; subst; clear H. unfold untouched, set_pc.
      cbn [pc context wld handler jmpbuf munmaps counter before_loop].
      left. destruct Hpc as [Hc0 Hj]. rewrite Hj.
      destruct Hw as (Q1 & Q2 & Q3 & Q4). repeat split; auto.
    + inversion H; subst; clear H. right. cbn. tauto.
    + inversion H; subst; clear H. unfold untouched, set_pc.
      cbn [pc context wld handler jmpbuf munmaps counter before_loop].
      left. destruct Hpc as [Hc0 Hj]. rewrite Hj.
      destruct Hw as (Q1 & Q2 & Q3 & Q4). repeat split; auto.
    + inversion H; subst; clear H. unfold untouched.
      cbn [pc context wld handler jmpbuf munmaps counter before_loop].
      left. destruct Hpc as [Hc0 Hj].
      destruct Hw as (Q1 & Q2 & Q3 & Q4). repeat split; auto.
  - right.
    destruct e as [[buffer |] | [|] | | keep | keep | upd | in_flight];
      destruct (pc s) as [| | | i | i t1 | | | | [|]] eqn:Epc;
      try discriminate; try (exfalso; apply Hlate; exact I);
      try (destruct (handler s); [| discriminate]);
      try (inversion H; subst; clear H; unfold stress_memrate_alarm_handler, set_pc;
           cbn [pc before_loop]; try destruct keep; tauto).
    + destruct (i <? memrate_items b)%nat.
      * destruct (bind _ _ (wld s)) as [[t1 w] |]; [| discriminate].
        inversion H; subst. cbn. tauto.
      * inversion H; subst. cbn. tauto.
    + destruct (memrate_info b !! i); [| discriminate].
      destruct (bind _ _ (wld s)) as [[[[kb v] t2] w] |]; [| discriminate].
      inversion H; subst. cbn. destruct keep; tauto.
    + destruct (memrate_info b !! i); [| discriminate].
      destruct (bind _ _ (wld s)) as [[st w] |]; [| discriminate].
      inversion H; subst. cbn. tauto.
Qed.

(** X10.  A child that exits with [EXIT_NO_RESOURCE] has measured
    nothing: no strategy ran, the clock was not read and no sleep was
    requested, the table and the bogo counter are as the parent left
    them, and the buffer was not released.
    When the exit is the one after [stress_sighandler] failed (the jump
    buffer is then set) the buffer had been mapped, so the child exits
    with the mapping in place. *)
Theorem no_resource_exit_did_nothing
    (opts : gmap string setting) (w0 : world)
    (evs : list event) (s : child_state) :
  let c0 := stress_memrate_context b opts in
  child_run b evs (child_init c0 w0) = Some s ->
  pc s = PcExit EXIT_NO_RESOURCE ->
  ticks (wld s) = ticks w0 /\ naps (wld s) = naps w0 /\
  stats (context s) = stats c0 /\
  counter s = 0%nat /\ munmaps s = 0%nat /\
  if jmpbuf s then exists buffer, context s = set_buffer buffer c0
  else context s = c0.
Proof.
  intros c0 Hrun Hpc.
  destruct (child_run_invariant
              (fun s => untouched c0 w0 s \/ ~ before_loop (pc s))
              (child_step_before_loop c0 w0) evs (child_init c0 w0) s)
    as [(_ & Hm & Hc & (_ & Ht & Hn & _) & _ & Hctx) | Hlate];
    [| exact Hrun | |].
  - left. cbn. repeat split.
  - rewrite Hpc in Hctx. repeat split; try assumption.
    + destruct (jmpbuf s); [destruct Hctx as [buffer E] |]; rewrite ?E, ?Hctx;
        reflexivity.
  - exfalso. apply Hlate. rewrite Hpc. exact I.
Qed.



(** Under a clock that moves on at every reading the slots stay sound. *)
Lemma child_step_sound (clk : nat -> Q) (e : event) (s s' : child_state) :
  (forall n m, (n < m)%nat -> (clk n < clk m)%Q) ->
  child_inv clk s -> child_step b e s = Some s' ->
  Forall slot_sound (stats (context s)) ->
  Forall slot_sound (stats (context s')).
Proof.
  intros Hstrict Hinv Hstep Hs.
  destruct (child_step_table b clk e s s' Hinv Hstep) as [E | Hstep'];
    [rewrite E; exact Hs |].
  apply table_step_slot in Hstep'
    as (i & t1 & info & kb & v & w1 & n & f & _ & _ & _ & Hkb & Hn & Ht1 & E & Hf).
  rewrite E. apply Forall_alter; [exact Hs |].
  intros slot _ (Hk & Hd & Hv). subst t1.
  specialize (Hstrict n (ticks w1) Hn).
  assert (0 <= inject_Z kb)%Q by (change 0%Q with (inject_Z 0); rewrite <- Zle_Qle; lia).
  destruct (Hf slot) as (Ek & Ed & Ev).
  unfold slot_sound. rewrite Ek.
  split; [lra |]. split.
  - destruct Ed as [-> | ->]; lra.
  - intros Hval. destruct Ev as [Ev | [_ ->]]; [| lra].
    rewrite Ev in Hval. specialize (Hv Hval).
    destruct Ed as [-> | ->]; lra.
Qed.

(** X12.  When the clock moves on between any two readings, the reporting
    loop of [stress_memrate] never takes its [interrupted early] branch,
    whatever run of the child filled the table, also one that SIGALRM cut
    off between the statements that write a slot: the flag of a slot is
    written after its duration, so every slot that is marked valid has a
    positive duration, every line of the report is a metric, and its rate
    is not negative. *)
Theorem report_gives_rates_under_strict_clock
    (opts : gmap string setting) (w0 : world)
    (evs : list event) (s : child_state) :
  (forall n m, (n < m)%nat -> (clock w0 n < clock w0 m)%Q) ->
  child_run b evs (child_init (stress_memrate_context b opts) w0) = Some s ->
  Forall slot_sound (stats (context s)) /\
  Forall reported_rate (stress_memrate_report b (context s)).
Proof.
  intros Hstrict Hrun.
  assert (Hs : child_inv (clock w0) s /\ Forall slot_sound (stats (context s))).
  { pattern s. eapply child_run_invariant; [| | exact Hrun].
    - intros e s1 s2 [Hi Hs] Hstep.
      split; [eapply child_step_inv; eauto | eapply child_step_sound; eauto].
    - split; [apply child_init_inv, context_bytes_nonneg |].
      cbn [child_init context stress_memrate_context stats].
      apply Forall_replicate. unfold slot_sound. cbn.
      split; [lra |]. split; [lra | discriminate]. }
  destruct Hs as [_ Hs]. split; [exact Hs |].
  apply Forall_forall. intros r Hr. unfold stress_memrate_report in Hr.
  apply elem_of_report_for in Hr as (i & info & slot & _ & Hslot & Hr).
  rewrite Forall_forall in Hs.
  destruct (Hs slot) as (Hk & Hd & Hv); [eapply list_elem_of_lookup_2; eauto |].
  unfold report_slot in Hr. destruct (valid slot); cbn [negb] in Hr;
    [| inversion Hr].
  specialize (Hv eq_refl).
  destruct (Qlt_bool 0 (duration slot)) eqn:El.
  - apply list_elem_of_singleton in Hr. subst r. cbn [reported_rate].
    apply Qle_shift_div_l.
    + apply Qmult_lt_0_compat; [exact Hv | reflexivity].
    + lra.
  - exfalso. apply Qlt_bool_iff in Hv. congruence.
Qed.

(** Without SSE2 a non-temporal strategy returns at once. *)
Lemma non_temporal_unsupported (info : stress_memrate_info_t) (W : Z)
    (c : stress_memrate_context_t) (w : world) :
  non_temporal info W -> sse2 w = false ->
  rdwr info = MR_RD \/ rdwr info = MR_WR ->
  stress_memrate_dispatch info c w = Some ((0, false), w).
Proof.
  intros [Hf Hr] Hs Hd.
  destruct (dispatch_cases info c Hd) as [Hu Hl]. cbv zeta in Hu, Hl.
  destruct (Z.eq_dec (if rdwr info =? MR_RD then memrate_rd_mbs c
                      else memrate_wr_mbs c) UNLIMITED) as [E | E].
  - rewrite (Hu E), Hf. unfold stress_memrate_write_nt, bind,
      stress_cpu_x86_has_sse2. rewrite Hs. reflexivity.
  - rewrite (Hl E), Hr. unfold stress_memrate_write_nt_rate, bind,
      stress_cpu_x86_has_sse2. rewrite Hs. reflexivity.
Qed.

(** X13.  On a CPU without SSE2 a non-temporal entry of the catalogue
    never shows in the results: at every point of every run its slot is
    marked invalid and holds no kilobytes, so the reporting loop prints
    nothing for it, neither a rate nor [interrupted early]. *)
Theorem non_temporal_entry_unreported_without_sse2
    (opts : gmap string setting) (w0 : world)
    (evs : list event) (s : child_state)
    (i : nat) (info : stress_memrate_info_t) (W : Z) :
  sse2 w0 = false ->
  memrate_info b !! i = Some info -> non_temporal info W ->
  child_run b evs (child_init (stress_memrate_context b opts) w0) = Some s ->
  exists slot,
    stats (context s) !! i = Some slot /\
    valid slot = false /\ (kbytes slot == 0)%Q /\
    report_slot i info slot = [].
Proof.
  intros Hsse Hi Hnt Hrun.
  assert (Hd : rdwr info = MR_RD \/ rdwr info = MR_WR).
  { pose proof (memrate_info_direction b) as H. rewrite Forall_forall in H.
    apply H. eapply list_elem_of_lookup_2; eauto. }
  assert (H : child_inv (clock w0) s /\ sse2 (wld s) = false /\
              exists slot, stats (context s) !! i = Some slot /\
                           valid slot = false /\ (kbytes slot == 0)%Q).
  { pattern s. eapply child_run_invariant; [| | exact Hrun].
    - intros e s1 s2 (Hinv & Hs & slot & Hslot & Hv & Hk) Hstep.
      split; [eapply child_step_inv; eauto |]. split.
      { destruct (child_step_world _ _ _ _ Hinv Hstep) as (_ & E & _). congruence. }
      destruct (child_step_table b _ e s1 s2 Hinv Hstep) as [E | Hstep'];
        [rewrite E; exists slot; auto |].
      apply table_step_slot in Hstep'
        as (j & t1 & info' & kb & v & w1 & n & f & _ & Hj & Hdis & _ & _ & _
            & E & Hf).
      rewrite E. destruct (Nat.eq_dec i j) as [-> | Hij].
      + rewrite list_lookup_alter_eq, Hslot. eexists. split; [reflexivity |].
        assert (info' = info) by congruence. subst info'.
        rewrite (non_temporal_unsupported info W _ _ Hnt Hs Hd) in Hdis.
        inversion Hdis; subst. destruct (Hf slot) as (Ek & _ & Ev).
        split; [destruct Ev as [-> | [-> _]]; [exact Hv | reflexivity] |].
        rewrite Ek, Hk. reflexivity.
      + rewrite list_lookup_alter_ne by auto. exists slot. auto.
    - split; [apply child_init_inv, context_bytes_nonneg |].
      split; [exact Hsse |].
      exists (mk_stats 0 0 false).
      cbn [child_init context stress_memrate_context stats].
      split; [| split; reflexivity].
      apply lookup_replicate_2. apply lookup_lt_Some in Hi. exact Hi. }
  destruct H as (_ & _ & slot & Hslot & Hv & Hk).
  exists slot. repeat split; try assumption.
  unfold report_slot. rewrite Hv. reflexivity.
Qed.

End DriverMore.

Lemma driver_keeps_configuration_witness :
  exists s s',
    child_run x86_64_build to_first_dispatch
      (child_init (stress_memrate_context x86_64_build small_opts)
                  (ticking_world true))
    = Some s /\
    child_run x86_64_build [EvReturn true] s = Some s' /\
    memrate_bytes (context s) = 4096 /\
    start (context s') = start (context s) /\
    end_ (context s') = end_ (context s).
Proof.
  eexists ?[s]. eexists ?[s'].
  destruct (driver_keeps_configuration x86_64_build small_opts
              (ticking_world true) to_first_dispatch ?s)
    as [(Hb & _) Hbuf]; [vm_compute; reflexivity |].
  split; [vm_compute; reflexivity |].
  split; [vm_compute; reflexivity |].
  split; [exact Hb |].
  apply (Hbuf ltac:(discriminate) [EvReturn true]). vm_compute. reflexivity.
Defined.

Lemma driver_index_in_range_witness :
  exists s,
    child_run x86_64_build to_first_dispatch
      (child_init (stress_memrate_context x86_64_build small_opts)
                  (ticking_world true))
    = Some s /\
    length (stats (context s)) = 26%nat /\
    is_Some (stats (context s) !! 0%nat).
Proof.
  eexists ?[s].
  destruct (driver_index_in_range x86_64_build small_opts
              (ticking_world true) to_first_dispatch ?s)
    as [Hl Hi]; [vm_compute; reflexivity |].
  split; [vm_compute; reflexivity |]. split; [exact Hl |].
  apply (Hi 0%nat 0%Q). reflexivity.
Defined.

Lemma no_resource_exit_did_nothing_witness :
  exists s,
    child_run x86_64_build [EvMmap (Some 4096); EvRun; EvSighandler false]
      (child_init (stress_memrate_context x86_64_build small_opts)
                  (ticking_world true))
    = Some s /\
    ticks (wld s) = 0%nat /\ munmaps s = 0%nat /\ jmpbuf s = true.
Proof.
  eexists ?[s].
  destruct (no_resource_exit_did_nothing x86_64_build small_opts
              (ticking_world true)
              [EvMmap (Some 4096); EvRun; EvSighandler false] ?s)
    as (Hw & _ & _ & _ & Hm & _); [vm_compute; reflexivity | reflexivity |].
  split; [vm_compute; reflexivity |].
  split; [exact Hw |]. split; [exact Hm | reflexivity].
Defined.


Lemma ticking_clock_strict (has : bool) (n m : nat) :
  (n < m)%nat -> (clock (ticking_world has) n < clock (ticking_world has) m)%Q.
Proof. intros H. cbn. rewrite <- Zlt_Qlt. lia. Qed.

Lemma report_gives_rates_under_strict_clock_witness :
  exists s,
    child_run x86_64_build (to_first_dispatch ++ [EvReturn true])
      (child_init (stress_memrate_context x86_64_build small_opts)
                  (ticking_world true))
    = Some s /\
    Forall reported_rate (stress_memrate_report x86_64_build (context s)).
Proof.
  eexists ?[s].
  destruct (report_gives_rates_under_strict_clock x86_64_build small_opts
              (ticking_world true) (to_first_dispatch ++ [EvReturn true]) ?s)
    as [_ H]; [apply ticking_clock_strict | vm_compute; reflexivity |].
  split; [vm_compute; reflexivity | exact H].
Defined.

Lemma non_temporal_entry_unreported_without_sse2_witness :
  exists s slot,
    child_run x86_64_build
      (to_first_dispatch
         ++ [EvReturn true; EvRun; EvReturn true; EvRun; EvReturn true;
             EvRun; EvReturn true; EvRun; EvReturn true])
      (child_init (stress_memrate_context x86_64_build small_opts)
                  (ticking_world false))
    = Some s /\
    pc s = PcFor 5 /\
    stats (context s) !! 4%nat = Some slot /\ valid slot = false.
Proof.
  eexists ?[s].
  destruct (non_temporal_entry_unreported_without_sse2 x86_64_build small_opts
              (ticking_world false)
              (to_first_dispatch
                 ++ [EvReturn true; EvRun; EvReturn true; EvRun; EvReturn true;
                     EvRun; EvReturn true; EvRun; EvReturn true])
              ?s 4%nat
              (mk_info "write128nt" MR_WR stress_memrate_write_nt128
                       stress_memrate_write_nt_rate128) 16)
    as (slot & Hslot & Hv & _);
    [reflexivity | reflexivity | split; reflexivity | vm_compute; reflexivity |].
  exists slot. split; [vm_compute; reflexivity |].
  split; [reflexivity |]. split; [exact Hslot | exact Hv].
Defined.

(* ------------------------------------------------------------------ *)
(** ** The table only grows *)
(* ------------------------------------------------------------------ *)




(* ------------------------------------------------------------------ *)
(** ** Every pass returns *)
(* ------------------------------------------------------------------ *)

Section Progress.

Lemma mapped_context_spans (c : stress_memrate_context_t) :
  mapped_context c ->
  end_ c = start c + memrate_bytes c /\ 0 <= memrate_bytes c.
Proof. intros (He & Hb & _). unfold MIN_MEMRATE_BYTES, KB in Hb. lia. Qed.

Lemma read_returns W pf : 0 < W -> returns (stress_memrate_read W pf).
Proof.
  intros HW c w Hc. destruct (mapped_context_spans c Hc) as [He Hb].
  destruct (stress_memrate_read_swept W pf c w HW He Hb) as (w' & E). eauto.
Qed.

Lemma write_returns W : 0 < W -> returns (stress_memrate_write W).
Proof.
  intros HW c w Hc. destruct (mapped_context_spans c Hc) as [He Hb].
  destruct (stress_memrate_write_swept W c w HW He Hb) as (w' & E). eauto.
Qed.

Lemma write_nt_returns W : 0 < W -> returns (stress_memrate_write_nt W).
Proof.
  intros HW c w Hc. destruct (mapped_context_spans c Hc) as [He Hb].
  destruct (sse2 w) eqn:Hs.
  - destruct (stress_memrate_write_nt_swept W c w HW He Hb Hs) as (w' & E). eauto.
  - exists 0, false, w.
    unfold stress_memrate_write_nt, bind, stress_cpu_x86_has_sse2.
    rewrite Hs. reflexivity.
Qed.

Lemma memset_returns : returns stress_memrate_memset.
Proof. intros c w _. eexists. eexists. eexists. reflexivity. Qed.

Lemma stos_returns wr : returns (stress_memrate_stos wr).
Proof.
  intros c w Hc.
  destruct (stos_within_buffer ""%string wr stress_memrate_memset_rate c w Hc)
    as (kb & v & w' & E & _).
  eauto.
Qed.

Lemma rate_limited_returns (v : rate_limited) :
  (forall w, sse2 w = true -> rate_limited_ok v w) ->
  returns (rate_limited_func v).
Proof.
  intros Hok c w Hc.
  assert (Hv : rate_limited_ok v (mk_world (clock w) (ticks w) (naps w) (touched w) true))
    by (apply Hok; reflexivity).
  destruct v as [W pf | W | W | wr |]; cbn [rate_limited_ok rate_limited_func] in *.
  - destruct (read_rate_runs W pf c w Hv Hc) as (kb & w' & E & _). eauto.
  - destruct (write_rate_runs W c w Hv Hc) as (kb & w' & E & _). eauto.
  - destruct (sse2 w) eqn:Hs.
    + destruct (write_nt_rate_runs W c w) as (kb & w' & E & _); eauto. tauto.
    + exists 0, false, w.
      unfold stress_memrate_write_nt_rate, bind, stress_cpu_x86_has_sse2.
      rewrite Hs. reflexivity.
  - destruct (stos_rate_runs wr c w Hv Hc) as (kb & w' & E & _). eauto.
  - destruct (memset_rate_runs c w Hc) as (kb & w' & E & _). eauto.
Qed.

Ltac strategy_returns :=
  lazymatch goal with
  | |- returns stress_memrate_memset => apply memset_returns
  | |- returns ?f =>
      let g := eval red in f in
      change (returns g);
      lazymatch g with
      | stress_memrate_read _ _ => apply read_returns; lia
      | stress_memrate_write _ => apply write_returns; lia
      | stress_memrate_write_nt _ => apply write_nt_returns; lia
      | stress_memrate_stos _ => apply stos_returns
      end
  end.

Lemma memrate_info_returns (b : build_config) :
  Forall (fun info => returns (func info)) (memrate_info b).
Proof.
  unfold memrate_info.
  repeat first
    [ apply Forall_app; split
    | apply Forall_ifdef
    | apply Forall_nil_2
    | apply Forall_cons; split; [cbn [func]; strategy_returns |] ].
Qed.

(** Whatever the two targets are, the dispatch of an entry of the
    catalogue returns. *)
Lemma dispatch_returns (b : build_config) (info : stress_memrate_info_t)
    (c : stress_memrate_context_t) (w : world) :
  info ∈ memrate_info b -> mapped_context c ->
  exists kb v w', stress_memrate_dispatch info c w = Some ((kb, v), w').
Proof.
  intros Hin Hc. unfold stress_memrate_dispatch.
  destruct (_ || _).
  - pose proof (memrate_info_returns b) as H. rewrite Forall_forall in H.
    apply (H info Hin c w Hc).
  - pose proof (memrate_info_rate_limited b) as H. rewrite Forall_forall in H.
    destruct (H info Hin) as (v & -> & Hok & _).
    apply (rate_limited_returns v Hok c w Hc).
Qed.

Lemma flush_returns (c : stress_memrate_context_t) (w : world) :
  exists w', stress_memrate_flush c w = Some (tt, w').
Proof.
  unfold stress_memrate_flush. rewrite flush_for_traffic; [eauto |].
  unfold pass_fuel. lia.
Qed.

End Progress.

(** X14.  No pass gets stuck: in a run on a buffer of at least the
    minimum size, at the head of the loop the step to the next dispatch
    exists (the optional flush of the buffer ends and the clock is read),
    and whenever a dispatch is in flight it returns, for every entry of
    the catalogue of every build, for every pair of targets, with or
    without SSE2, and the driver goes on to the next entry or to the end
    of the round. *)
Theorem every_dispatch_returns
    (b : build_config) (opts : gmap string setting) (w0 : world)
    (evs : list event) (s : child_state) :
  let c0 := stress_memrate_context b opts in
  MIN_MEMRATE_BYTES <= memrate_bytes c0 ->
  child_run b evs (child_init c0 w0) = Some s ->
  (forall i, pc s = PcFor i -> exists s', child_step b EvRun s = Some s') /\
  (forall i t1 keep,
      pc s = PcDispatch i t1 ->
      exists s', child_step b (EvReturn keep) s = Some s' /\
                 pc s' = (if keep then PcFor (S i) else PcIncCounter)).
Proof.
  intros c0 Hmin Hrun.
  pose proof (child_run_reachable b opts w0 evs s Hrun) as (_ & _ & Hpc).
  assert (Hcfg : memrate_bytes (context s) = memrate_bytes c0 /\
                 forall i t1, pc s = PcDispatch i t1 -> (i < memrate_items b)%nat).
  { pattern s. eapply child_run_invariant; [| | exact Hrun].
    - intros e s1 s2 [Hl _] Hstep.
      apply child_step_config in Hstep as (El & _ & _ & _ & _ & _ & Hi & _).
      split; [congruence | exact Hi].
    - split; [reflexivity | intros i t1 E; discriminate]. }
  destruct Hcfg as [Hbytes Hidx].
  assert (Hmapped : end_ (context s) = start (context s) + memrate_bytes (context s) ->
                    mapped_context (context s)).
  { intros He. split; [exact He |]. rewrite Hbytes. split.
    - split; [exact Hmin |].
      cbn [c0 stress_memrate_context memrate_bytes].
      rewrite land_not_1023 by (unfold wrap64; apply Z.mod_pos_bound; reflexivity).
      pose proof (Z.mod_pos_bound
                    (stress_get_setting_uint64 opts "memrate-bytes"
                       DEFAULT_MEMRATE_BYTES + 1023) (2 ^ 64) ltac:(lia)) as Hw.
      unfold wrap64.
      pose proof (Z.mul_div_le
                    ((stress_get_setting_uint64 opts "memrate-bytes"
                        DEFAULT_MEMRATE_BYTES + 1023) mod 2 ^ 64) 1024 ltac:(lia)).
      lia.
    - cbn [c0 stress_memrate_context memrate_bytes].
      rewrite land_not_1023 by (unfold wrap64; apply Z.mod_pos_bound; reflexivity).
      apply Z.mod_mul. lia. }
  split.
  - intros i Ei. rewrite Ei in Hpc. destruct Hpc as [_ He].
    unfold child_step. rewrite Ei.
    destruct (i <? memrate_items b)%nat; [| eauto].
    unfold bind at 1.
    destruct (memrate_flush (context s)).
    + destruct (flush_returns (context s) (wld s)) as (w' & ->).
      unfold stress_time_now. eauto.
    + unfold ret, stress_time_now. eauto.
  - intros i t1 keep Ei. rewrite Ei in Hpc. destruct Hpc as (_ & He & _).
    specialize (Hidx i t1 Ei).
    destruct (lookup_lt_is_Some_2 (memrate_info b) i Hidx) as [info Hinfo].
    destruct (dispatch_returns b info (context s) (wld s))
      as (kb & v & w' & E); [eapply list_elem_of_lookup_2; eauto | auto |].
    unfold child_step. rewrite Ei, Hinfo. unfold bind at 1. rewrite E.
    unfold bind, stress_time_now, ret. eexists. split; reflexivity.
Qed.

Lemma every_dispatch_returns_witness :
  exists s s',
    child_run x86_64_build to_first_dispatch
      (child_init (stress_memrate_context x86_64_build small_opts)
                  (ticking_world true))
    = Some s /\
    child_step x86_64_build (EvReturn true) s = Some s' /\ pc s' = PcFor 1.
Proof.
  eexists ?[s].
  destruct (every_dispatch_returns x86_64_build small_opts
              (ticking_world true) to_first_dispatch ?s)
    as [_ Hd]; [vm_compute; discriminate | vm_compute; reflexivity |].
  destruct (Hd 0%nat 0%Q true eq_refl) as (s' & E & Hpc).
  exists s'. split; [vm_compute; reflexivity |]. split; [exact E | exact Hpc].
Defined.

(** X15.  Whatever the build options are, the catalogue names each of
    its strategies differently, so no two lines of the report share a
    label; it has between 9 and 26 entries; and the nine strategies that
    no build option guards are always among them. *)
Theorem catalogue_names_distinct (b : build_config) :
  NoDup (List.map name (memrate_info b)) /\
  (9 <= memrate_items b <= 26)%nat /\
  portable_names ⊆ List.map name (memrate_info b).
Proof.
  apply (bool_decide_unpack _).
  destruct b as [[] [] [] [] [] [] [] [] [] [] []]; vm_compute; reflexivity.
Qed.

(** X16.  On a buffer of a valid size the count of 16-element steps
    between two checks of the clock is never more than [2^20] and never
    less than 1024, unless the whole buffer holds fewer than 1024 steps,
    in which case it is the whole buffer; and the chunk never exceeds the
    buffer. *)
Theorem stress_memrate_loops_on_valid_size
    (c : stress_memrate_context_t) (size : Z) :
  mapped_context c -> 0 < size <= memrate_bytes c ->
  let n := stress_memrate_loops c size in
  let steps := memrate_bytes c / size in
  1 <= n <= 2 ^ 20 /\ n <= steps /\
  (1024 <= steps -> 1024 <= n) /\
  (steps < 1024 -> n = steps) /\
  n * size <= memrate_bytes c.
Proof.
  intros (_ & Hb & Hm) Hs n steps.
  unfold MIN_MEMRATE_BYTES, KB in Hb.
  assert (Hsteps : 1 <= steps) by (apply Z.div_le_lower_bound; lia).
  assert (Hmul : steps * size <= memrate_bytes c)
    by (unfold steps; rewrite Z.mul_comm; apply Z.mul_div_le; lia).
  destruct (loops_for_cases (memrate_bytes c) steps chunk_shifts)
    as [(pre & k & post & E & Hn & [_ Hle] & _) | [Hn Hall]].
  - lia.
  - intros k Hk. apply chunk_shifts_range in Hk. lia.
  - assert (Hk : 10 <= k <= 20).
    { apply chunk_shifts_range. rewrite E. apply elem_of_app. right. left. }
    assert (Hlo : 2 ^ 10 <= 2 ^ k) by (apply Z.pow_le_mono_r; lia).
    assert (Hhi : 2 ^ k <= 2 ^ 20) by (apply Z.pow_le_mono_r; lia).
    change (n = 2 ^ k) in Hn. rewrite Hn.
    change (2 ^ 10) with 1024 in Hlo.
    repeat split; try lia. nia.
  - change (n = steps) in Hn. rewrite Hn.
    assert (Hsmall : steps < 1024).
    { destruct (Z_lt_ge_dec steps 1024) as [? | Hge]; [assumption | exfalso].
      apply (Hall 10).
      - apply chunk_shifts_range. lia.
      - split; [exact Hm | change (2 ^ 10) with 1024; lia]. }
    change (2 ^ 20) with 1048576. repeat split; lia.
Qed.

Lemma stress_memrate_loops_on_valid_size_witness :
  let c := context_at 4096 (MB + 4096) UNLIMITED 3 in
  1024 <= stress_memrate_loops c 128 <= 2 ^ 20 /\
  stress_memrate_loops c 2048 = memrate_bytes c / 2048.
Proof.
  intros c.
  destruct (stress_memrate_loops_on_valid_size c 128)
    as ([_ Hhi] & _ & Hlo & _);
    [vm_compute; repeat split; discriminate
    | vm_compute; split; [reflexivity | discriminate] |].
  destruct (stress_memrate_loops_on_valid_size c 2048)
    as (_ & _ & _ & Hall & _);
    [vm_compute; repeat split; discriminate
    | vm_compute; split; [reflexivity | discriminate] |].
  split; [split; [apply Hlo; vm_compute; discriminate | exact Hhi] |].
  apply Hall. reflexivity.
Defined.

(* ------------------------------------------------------------------ *)
(** ** No sleep is longer than the budget *)
(* ------------------------------------------------------------------ *)

Section SleepBound.

Lemma budget_after_double (total dur : Q) (k : nat) :
  is_double total -> is_double (budget_after total dur k).
Proof.
  revert total. induction k as [| k IH]; intros total Hd; [exact Hd |].
  cbn [budget_after]. apply IH. apply round64_double.
Qed.

(** With a duration that is not negative the budget does not go down. *)
Lemma budget_after_ge (total dur : Q) (k : nat) :
  (0 <= dur)%Q -> is_double total -> (total <= budget_after total dur k)%Q.
Proof.
  intros Hdur. revert total. induction k as [| k IH]; intros total Hd;
    [apply Qle_refl |].
  cbn [budget_after].
  eapply Qle_trans; [| apply IH; apply round64_double].
  apply round64_ge; [lra | exact Hd].
Qed.

Lemma budget_naps_bounded (t_start total dur : Q) (readings : list Q) :
  (0 <= dur)%Q -> is_double total ->
  Forall (fun t => (t_start <= t)%Q) readings ->
  (length (budget_naps t_start total dur readings) <= length readings)%nat /\
  Forall (fun ts => (timespec_seconds ts
                     <= budget_after total dur (length readings)
                        + (1 # 16777216) / inject_Z STRESS_NANOSECOND)%Q)
         (budget_naps t_start total dur readings).
Proof.
  intros Hdur. revert total.
  induction readings as [| t rest IH]; intros total Hd Hr.
  - split; [reflexivity | constructor].
  - apply Forall_cons in Hr as [Ht Hrest].
    assert (Hd' : is_double (double_add total dur)) by apply round64_double.
    destruct (IH (double_add total dur) Hd' Hrest) as [Hlen Hall].
    cbn [budget_naps budget_after length]. split.
    + rewrite length_app. unfold nap_for. destruct (Qle_bool _ _); cbn; lia.
    + apply Forall_app. split; [| exact Hall].
      unfold nap_for.
      destruct (Qle_bool 0 (double_sub (double_add total dur) (double_sub t t_start)))
        eqn:E; [| constructor].
      apply Qle_bool_iff in E. constructor; [| constructor].
      destruct (timespec_of_bounds _ (round64_double _) E) as (_ & _ & _ & Hle & _).
      assert (Hel : (0 <= double_sub t t_start)%Q) by (apply round64_nonneg; lra).
      assert (Hslack : (double_sub (double_add total dur) (double_sub t t_start)
                        <= double_add total dur)%Q).
      { apply round64_le; [lra | exact Hd']. }
      pose proof (budget_after_ge (double_add total dur) dur (length rest) Hdur Hd').
      set (d := ((1 # 16777216) / inject_Z STRESS_NANOSECOND)%Q) in *.
      fold (double_sub (double_add total dur) (double_sub t t_start)) in Hle.
      cbv beta. lra.
Qed.

End SleepBound.

(** X17.  Under a clock that never runs backwards, a rate-limited pass
    of any family asks for at most one sleep per chunk, and no sleep it
    asks for is longer than the budget the pass has run up by its end,
    the duration of one chunk added up over its chunks in [double], but
    for the last place of the product that gives the nanoseconds
    ([2^-24] ns). *)
Theorem rate_limited_sleeps_within_budget
    (v : rate_limited) (c : stress_memrate_context_t) (w : world) :
  rate_limited_ok v w ->
  mapped_context c ->
  1 <= rate_limited_target v c ->
  (forall n m, (n <= m)%nat -> (clock w n <= clock w m)%Q) ->
  let dur := chunk_duration (rate_limited_chunk v c) (rate_limited_target v c) in
  exists kb w' n new,
    rate_limited_func v c w = Some ((kb, true), w') /\
    ticks w' = S (ticks w + n) /\
    naps w' = naps w ++ new /\
    (length new <= n)%nat /\
    Forall (fun ts => (timespec_seconds ts
                       <= budget_after 0 dur n
                          + (1 # 16777216) / inject_Z 1000000000)%Q) new.
Proof.
  intros Hok Hc Ht Hmono dur.
  destruct (rate_limited_runs v c w Hok Hc)
    as (kb & w' & E & _ & _ & _ & n & Hn & Hnaps).
  exists kb, w', n. eexists. split; [exact E |]. split; [exact Hn |].
  split; [exact Hnaps |].
  assert (Hdur : (0 <= dur)%Q).
  { apply chunk_duration_nonneg; [| lia].
    destruct (rate_limited_chunk_bounds v c w Hok Hc). lia. }
  destruct (budget_naps_bounded (clock w (ticks w)) 0 dur
              (List.map (clock w) (seq (S (ticks w)) n)) Hdur is_double_0)
    as [Hlen Hall].
  { apply Forall_forall. intros t Hin.
    apply list_elem_of_fmap in Hin as (k & -> & Hk).
    apply Hmono. apply elem_of_seq in Hk. lia. }
  rewrite length_map, length_seq in Hlen, Hall. split; [exact Hlen | exact Hall].
Qed.

Lemma rate_limited_sleeps_within_budget_witness :
  let c := context_at 4096 (MB + 4096) UNLIMITED 3 in
  exists kb w' n new,
    stress_memrate_memset_rate c (ticking_world true) = Some ((kb, true), w') /\
    naps w' = new /\ (length new <= n)%nat.
Proof.
  intros c.
  destruct (rate_limited_sleeps_within_budget MemsetRate c (ticking_world true))
    as (kb & w' & n & new & E & _ & Hnaps & Hlen & _);
    [exact I | vm_compute; repeat split; discriminate | vm_compute; discriminate
    | apply ticking_clock_monotone |].
  exists kb, w', n, new. split; [exact E |]. split; [exact Hnaps | exact Hlen].
Defined.

(* ------------------------------------------------------------------ *)
(** ** The hint about multiples of 1 MB *)
(* ------------------------------------------------------------------ *)

Section Hint.

Lemma land_MB (x : Z) :
  0 <= x -> Z.land x MB = if Z.testbit x 20 then MB else 0.
Proof.
  intros Hx. apply Z.bits_inj'. intros n Hn.
  rewrite Z.land_spec. change MB with (2 ^ 20).
  rewrite Z.pow2_bits_eqb by lia.
  destruct (Z.eqb_spec 20 n) as [<- | Hne].
  - rewrite andb_true_r. destruct (Z.testbit x 20) eqn:E.
    + rewrite Z.pow2_bits_true; [reflexivity | lia].
    + rewrite Z.bits_0. reflexivity.
  - rewrite andb_false_r. destruct (Z.testbit x 20).
    + rewrite Z.pow2_bits_false; [reflexivity | exact Hne].
    + rewrite Z.bits_0. reflexivity.
Qed.

Lemma testbit_20 (x : Z) :
  0 <= x -> Z.testbit x 20 = ((x / MB) mod 2 =? 1).
Proof.
  intros Hx. pose proof (Z.testbit_spec' x 20 ltac:(lia)) as H.
  change (2 ^ 20) with MB in H.
  destruct (Z.testbit x 20); cbn [Z.b2z] in H; rewrite <- H; reflexivity.
Qed.

End Hint.

(** X18.  The hint that tells the user to use multiples of 1 MB looks at
    one bit of the size only: it is printed exactly when the size is above
    1 MB and its count of whole megabytes is odd.  So it is printed for
    every odd multiple of 1 MB from 3 MB on, which are multiples of 1 MB,
    and it is not printed for a size that is an even count of megabytes
    plus a remainder, which is not. *)
Theorem optimal_speed_hint_tests_one_bit (memrate_bytes : Z) :
  0 <= memrate_bytes ->
  (optimal_speed_hint memrate_bytes = true <->
   MB < memrate_bytes /\ (memrate_bytes / MB) mod 2 = 1) /\
  (forall k, 1 <= k -> memrate_bytes = (2 * k + 1) * MB ->
             memrate_bytes mod MB = 0 /\ optimal_speed_hint memrate_bytes = true) /\
  (forall k r, 1 <= k -> 0 < r < MB -> memrate_bytes = 2 * k * MB + r ->
               memrate_bytes mod MB <> 0 /\ optimal_speed_hint memrate_bytes = false).
Proof.
  intros Hb.
  assert (Hiff : optimal_speed_hint memrate_bytes = true <->
                 MB < memrate_bytes /\ (memrate_bytes / MB) mod 2 = 1).
  { unfold optimal_speed_hint. rewrite andb_true_iff, negb_true_iff.
    rewrite land_MB, testbit_20 by exact Hb.
    destruct (Z.gtb_spec memrate_bytes MB) as [Hgt | Hle];
      destruct (Z.eqb_spec ((memrate_bytes / MB) mod 2) 1) as [E | E];
      cbn; unfold MB, KB in *; split; intros [H1 H2];
      try discriminate; try lia; split; try reflexivity; try lia. }
  split; [exact Hiff |]. split.
  - intros k Hk E. split.
    + rewrite E. apply Z.mod_mul. discriminate.
    + apply Hiff. rewrite E. rewrite Z.div_mul by discriminate.
      split; [unfold MB, KB; lia |].
      replace (2 * k + 1) with (1 + k * 2) by ring.
      rewrite Z.mod_add by lia. reflexivity.
  - intros k r Hk Hr E.
    replace (2 * k * MB + r) with (r + (k * 2) * MB) in E by ring. split.
    + rewrite E. rewrite Z.mod_add by discriminate.
      rewrite Z.mod_small by lia. lia.
    + apply not_true_is_false. intros Eh.
      apply Hiff in Eh as [_ Hodd]. rewrite E in Hodd.
      rewrite Z.div_add in Hodd by discriminate.
      rewrite Z.div_small in Hodd by lia.
      rewrite Z.add_0_l, Z.mod_mul in Hodd by lia. discriminate.
Qed.

Lemma optimal_speed_hint_tests_one_bit_witness :
  optimal_speed_hint (3 * MB) = true /\ (3 * MB) mod MB = 0 /\
  optimal_speed_hint (2 * MB + 4096) = false /\ (2 * MB + 4096) mod MB <> 0.
Proof.
  destruct (optimal_speed_hint_tests_one_bit (3 * MB)) as (_ & Hodd & _);
    [vm_compute; discriminate |].
  destruct (optimal_speed_hint_tests_one_bit (2 * MB + 4096)) as (_ & _ & Heven);
    [vm_compute; discriminate |].
  destruct (Hodd 1) as [H1 H2]; [lia | reflexivity |].
  destruct (Heven 1 4096) as [H3 H4];
    [lia | vm_compute; split; reflexivity | reflexivity |].
  split; [exact H2 |]. split; [exact H1 |]. split; [exact H4 | exact H3].
Defined.
